(** * maxsum: DiscreteFunction, variable register and marginalisation

    A shallow embedding of [DiscreteFunction.h] (the tabular function class of
    the max-sum library) together with the parts of the variable register and
    of the domain iterator that the class relies on.

    Conventions of the embedding:
    - [VarID] and [ValIndex] are natural numbers; [ValType], which the class
      documents as "a primitive numeric type, such as double or int", is
      modelled by exact integers.
    - [ValIndex] is a 32-bit [int] in the sources.  The constructor
      accumulates the number of cells in such an [int]; that product is
      modelled in [Z] with its wrap-around written out ([wrap_int]), so a
      domain whose number of cells does not fit gets the array that the
      wrapped product asks for.
    - A C++ exception is the outcome [Throw]; reading or writing outside the
      value array (which C++ leaves undefined) is the outcome [Undefined];
      loops driven by an iterator run on a step budget and end in [OutOfFuel]
      when it is exhausted.  The theorems show that none of the last two
      happens on well-formed inputs whose domains have a number of cells
      that an [int] holds. *)

From stdpp Require Import gmap list sorting.
From Stdlib Require Import ZArith Lia.

Abbreviation VarID := nat (only parsing).
Abbreviation ValIndex := nat (only parsing).
Abbreviation ValType := Z (only parsing).
Abbreviation Registry := (gmap nat nat) (only parsing).

(** ** Outcomes *)

Inductive Exception : Type :=
  | UnknownVariableException
  | BadDomainException
  | InconsistentDomainException.

Inductive Result (A : Type) : Type :=
  | Ok (a : A)
  | Throw (e : Exception)
  | Undefined
  | OutOfFuel.

Arguments Ok {A} a.
Arguments Throw {A} e.
Arguments Undefined {A}.
Arguments OutOfFuel {A}.

Definition bind {A B} (m : Result A) (k : A → Result B) : Result B :=
  match m with
  | Ok a => k a
  | Throw e => Throw e
  | Undefined => Undefined
  | OutOfFuel => OutOfFuel
  end.

Notation "'let*' x ':=' m 'in' k" := (bind m (fun x => k))
  (at level 10, x name, m at level 100, k at level 200).

Definition of_option {A} (o : option A) : Result A :=
  match o with Some a => Ok a | None => Undefined end.

(** ** Machine integers *)

(** The largest [int]. *)
Definition INT_MAX : Z := 2147483647.

(** The value that a 32-bit two's-complement [int] holds after an
    arithmetic result [z]. *)
Definition wrap_int (z : Z) : Z :=
  ((z + 2147483648) mod 4294967296 - 2147483648)%Z.

(** ** The variable register *)

Module Register.

(** Modelled from the spec: [register.h] and its implementation are not
    part of the sources; the register is the process-wide map from a
    variable to its domain size, which the embedding passes explicitly. *)
Definition isRegistered (reg : Registry) (var : VarID) : bool :=
  bool_decide (is_Some (reg !! var)).

(** Modelled from the spec: fails with the unknown-variable error when the
    variable is absent. *)
Definition getDomainSize (reg : Registry) (var : VarID) : Result ValIndex :=
  match reg !! var with
  | Some siz => Ok siz
  | None => Throw UnknownVariableException
  end.

(** Modelled from the spec: inserts [(var, siz)] if absent; if present with
    an equal size, succeeds; otherwise fails without mutation.  The result
    pairs the outcome with the register afterwards. *)
Definition registerVariable (var : VarID) (siz : ValIndex) (reg : Registry)
  : Result unit * Registry :=
  match reg !! var with
  | None => (Ok tt, <[var := siz]> reg)
  | Some old =>
      if decide (old = siz) then (Ok tt, reg)
      else (Throw InconsistentDomainException, reg)
  end.

(** Modelled from the spec: the C surface of [maxsum_c.h], where an error
    collapses to [-1]; the header documents [-1] for a variable "already
    registered, but with a different domain size". *)
Definition registerVariable_ms (var : VarID) (siz : ValIndex) (reg : Registry)
  : Z * Registry :=
  match registerVariable var siz reg with
  | (Ok _, reg') => (0%Z, reg')
  | (_, reg') => ((-1)%Z, reg')
  end.

End Register.

(** ** Index arithmetic *)

(** Modelled from the spec: [sub2ind] lives in [common.h], which is not part
    of the sources.  It is the loop that the supervariable accessor below
    inlines: the linear index grows by [sub[k] * skipSize] and [skipSize] by
    the size of dimension [k]. *)
Fixpoint sub2ind_from (skipSize index : ValIndex)
    (sizes : list ValIndex) (sub : list ValIndex) : ValIndex :=
  match sizes, sub with
  | s :: sizes', a :: sub' => sub2ind_from (skipSize * s) (index + a * skipSize) sizes' sub'
  | _, _ => index
  end.

Definition sub2ind (sizes sub : list ValIndex) : ValIndex :=
  sub2ind_from 1 0 sizes sub.

(** The formula of the data model, written out:
    [Σ_k sub[k] · ∏_{j<k} sizes[j]]. *)
Definition prod_list (l : list nat) : nat := foldr Nat.mul 1 l.

Definition linear_index (sizes sub : list ValIndex) : ValIndex :=
  sum_list (imap (fun k a => a * prod_list (take k sizes)) sub).

(** A tuple over a list of sizes: one in-range index per dimension. *)
Definition in_range (sizes sub : list ValIndex) : Prop :=
  Forall2 (fun a s => a < s) sub sizes.

(** ** DiscreteFunction *)

Record DiscreteFunction : Type := mkDiscreteFunction {
  vars_i : list VarID;
  size_i : list ValIndex;
  values_i : list ValType
}.

(** [std::sort] on variable ids. *)
Definition sort (l : list VarID) : list VarID := merge_sort le l.

(** [std::unique]: keeps the first element of every run of equal elements. *)
Fixpoint unique (l : list VarID) : list VarID :=
  match l with
  | [] => []
  | x :: l' =>
      match l' with
      | [] => [x]
      | y :: _ => if decide (x = y) then unique l' else x :: unique l'
      end
  end.

(** [std::includes] on two sorted ranges. *)
Fixpoint includes (l1 l2 : list VarID) {struct l2} : bool :=
  match l2 with
  | [] => true
  | y :: l2' =>
      (fix walk (l1 : list VarID) : bool :=
         match l1 with
         | [] => false
         | x :: l1' =>
             if y <? x then false
             else if x <? y then walk l1'
             else includes l1' l2'
         end) l1
  end.

Module DiscreteFunction.

(** [DiscreteFunction(ValType val)]: the constant function. *)
Definition constant (val : ValType) : DiscreteFunction :=
  mkDiscreteFunction [] [] [val].

(** The size-caching loop of the constructor. *)
Fixpoint cacheSizes (reg : Registry) (vars : list VarID) : Result (list ValIndex) :=
  match vars with
  | [] => Ok []
  | v :: vars' =>
      let* s := Register.getDomainSize reg v in
      let* ss := cacheSizes reg vars' in
      Ok (s :: ss)
  end.

(** The running product of the same loop: [ValIndex totalSize = 1], then
    [totalSize *= size_i[k]] for each variable, in [int]. *)
Definition totalSize (sizes : list ValIndex) : Z :=
  fold_left (fun t s => wrap_int (t * Z.of_nat s)) sizes 1%Z.

(** [DiscreteFunction(VarIt begin, VarIt end, ValType val)].  The array
    is resized to [totalSize]; a negative size is outside what [resize]
    accepts. *)
Definition make (reg : Registry) (vars : list VarID) (val : ValType)
  : Result DiscreteFunction :=
  let vars' := sort vars in
  let* sizes := cacheSizes reg vars' in
  let total := totalSize sizes in
  if decide (total < 0)%Z then Undefined
  else Ok (mkDiscreteFunction vars' sizes (replicate (Z.to_nat total) val)).

Definition domainSize (f : DiscreteFunction) : nat := length (values_i f).

Definition noVars (f : DiscreteFunction) : nat := length (vars_i f).

(** [operator()(ValIndex ind)] and [at(ValIndex ind)], as a read. *)
Definition at_ (f : DiscreteFunction) (ind : ValIndex) : Result ValType :=
  of_option (values_i f !! ind).

(** The same accessor as the target of an assignment. *)
Definition setAt (f : DiscreteFunction) (ind : ValIndex) (v : ValType)
  : Result DiscreteFunction :=
  if decide (ind < length (values_i f)) then
    Ok (mkDiscreteFunction (vars_i f) (size_i f) (<[ind := v]> (values_i f)))
  else Undefined.

(** [operator()(IndIt begin, IndIt end)]: own-domain subindices. *)
Definition atSub (f : DiscreteFunction) (sub : list ValIndex) : Result ValType :=
  at_ f (sub2ind (size_i f) sub).

(** The loop of [operator()(VarIt, VarIt, IndIt, IndIt)]: walks the caller's
    variables [inV] with their subindices [sub], and this function's own
    variables [myV] with their sizes [siz]. *)
Fixpoint superIndex (myV : list VarID) (siz : list ValIndex)
    (inV : list VarID) (sub : list ValIndex)
    (skipSize index : ValIndex) : ValIndex :=
  match inV, sub with
  | v :: inV', a :: sub' =>
      match myV, siz with
      | m :: myV', s :: siz' =>
          if decide (m ≠ v) then superIndex myV siz inV' sub' skipSize index
          else superIndex myV' siz' inV' sub' (skipSize * s) (index + a * skipSize)
      | _, _ => index
      end
  | _, _ => index
  end.

Definition getSuperIndex (f : DiscreteFunction)
    (vars : list VarID) (sub : list ValIndex) : ValIndex :=
  superIndex (vars_i f) (size_i f) vars sub 1 0.

(** [operator()(VarIt varBegin, VarIt varEnd, IndIt subBegin, IndIt subEnd)]. *)
Definition atSuper (f : DiscreteFunction)
    (vars : list VarID) (sub : list ValIndex) : Result ValType :=
  at_ f (getSuperIndex f vars sub).

Definition setAtSuper (f : DiscreteFunction)
    (vars : list VarID) (sub : list ValIndex) (v : ValType)
  : Result DiscreteFunction :=
  setAt f (getSuperIndex f vars sub) v.

End DiscreteFunction.

(** ** DomainIterator *)

(** The value paired with [v] in two parallel lists (first occurrence). *)
Fixpoint lookupVal {A} (vars : list VarID) (vals : list A) (v : VarID) : option A :=
  match vars, vals with
  | w :: vars', a :: vals' => if decide (w = v) then Some a else lookupVal vars' vals' v
  | _, _ => None
  end.

(** Modelled from the spec: [DomainIterator.h] is not part of the sources.
    The state is the target's [(vars, sizes)], the current tuple, a fixed
    flag per variable, and whether the free coordinates are exhausted. *)
Record DomainIterator : Type := mkDomainIterator {
  it_vars : list VarID;
  it_sizes : list ValIndex;
  it_sub : list ValIndex;
  it_fixed : list bool;
  it_finished : bool
}.

Module DomainIterator.

(** Modelled from the spec: an iterator over the whole domain of [f],
    starting at the all-zero tuple with every coordinate free. *)
Definition make (f : DiscreteFunction) : DomainIterator :=
  mkDomainIterator (vars_i f) (size_i f)
    (replicate (length (vars_i f)) 0) (replicate (length (vars_i f)) false) false.

Definition hasNext (it : DomainIterator) : bool := negb (it_finished it).

Definition getVars (it : DomainIterator) : list VarID := it_vars it.

Definition getSubInd (it : DomainIterator) : list ValIndex := it_sub it.

(** Modelled from the spec: the current linear index into the target's
    value array. *)
Definition getInd (it : DomainIterator) : ValIndex :=
  sub2ind (it_sizes it) (it_sub it).

(** Modelled from the spec: the tuple as a mixed-radix counter with radices
    [sizes]; only free coordinates are incremented, the first one varying
    fastest.  The boolean is the carry out of the last free coordinate. *)
Fixpoint increment (sizes : list ValIndex) (fixed : list bool)
    (sub : list ValIndex) : list ValIndex * bool :=
  match sizes, fixed, sub with
  | s :: sizes', fx :: fixed', a :: sub' =>
      if fx then
        let r := increment sizes' fixed' sub' in (a :: r.1, r.2)
      else if S a <? s then (S a :: sub', false)
      else
        let r := increment sizes' fixed' sub' in (0 :: r.1, r.2)
  | _, _, _ => (sub, true)
  end.

(** [operator++]. *)
Definition advance (it : DomainIterator) : DomainIterator :=
  let r := increment (it_sizes it) (it_fixed it) (it_sub it) in
  mkDomainIterator (it_vars it) (it_sizes it) r.1 (it_fixed it) r.2.

(** Modelled from the spec: pins each listed variable of the target's
    domain to its value and marks it fixed; a listed variable that is not
    in the domain is ignored. *)
Definition condition (vars : list VarID) (vals : list ValIndex)
    (it : DomainIterator) : DomainIterator :=
  mkDomainIterator (it_vars it) (it_sizes it)
    (zip_with (fun w a => default a (lookupVal vars vals w)) (it_vars it) (it_sub it))
    (zip_with (fun w b => match lookupVal vars vals w with Some _ => true | None => b end)
       (it_vars it) (it_fixed it))
    (it_finished it).

(** Modelled from the spec: [condition(otherIterator)] pins variables using
    the other iterator's current tuple. *)
Definition conditionOn (other it : DomainIterator) : DomainIterator :=
  condition (getVars other) (getSubInd other) it.

Definition isFixed (it : DomainIterator) (var : VarID) : bool :=
  default false (lookupVal (it_vars it) (it_fixed it) var).

Definition fixedCount (it : DomainIterator) : nat :=
  length (filter (fun b => b = true) (it_fixed it)).

End DomainIterator.

(** A loop [for (...; it.hasNext(); ++it) body], run on a budget of [fuel]
    iterations; [s] is the state that the body updates. *)
Fixpoint forEach {S : Type} (fuel : nat) (it : DomainIterator)
    (body : DomainIterator → S → Result S) (s : S) : Result S :=
  if DomainIterator.hasNext it then
    match fuel with
    | 0 => OutOfFuel
    | S fuel' =>
        let* s' := body it s in
        forEach fuel' (DomainIterator.advance it) body s'
    end
  else Ok s.

Module Ops.
Import DiscreteFunction.

(** [DiscreteFunction::expand(VarInd begin, VarInd end)]; the result is the
    content of [*this] afterwards. *)
Definition expand (reg : Registry) (vars : list VarID) (f : DiscreteFunction)
  : Result DiscreteFunction :=
  let newVar := unique (sort (vars_i f ++ vars)) in
  if decide (length newVar ≤ length (vars_i f)) then Ok f
  else
    let* result := make reg newVar 0 in
    forEach (prod_list (size_i result)) (DomainIterator.make result)
      (fun k r =>
         let* v := atSuper f newVar (DomainIterator.getSubInd k) in
         setAt r (DomainIterator.getInd k) v)
      result.

(** [DiscreteFunction::condition(vBegin, vEnd, iBegin, iEnd)]; the result is
    the content of [*this] afterwards. *)
Definition condition (reg : Registry) (vars : list VarID) (vals : list ValIndex)
    (f : DiscreteFunction) : Result DiscreteFunction :=
  let it := DomainIterator.condition vars vals (DomainIterator.make f) in
  if decide (0 = DomainIterator.fixedCount it) then Ok f
  else
    let freeVars :=
      filter (fun v => DomainIterator.isFixed it v = false) (vars_i f) in
    let* result := make reg freeVars 0 in
    forEach (domainSize f) it
      (fun k r =>
         let* v := at_ f (DomainIterator.getInd k) in
         setAtSuper r (DomainIterator.getVars k) (DomainIterator.getSubInd k) v)
      result.

(** The body of the loop of [marginal] for one position of [outIt]: first
    the aggregate of [inFun] over the positions conditioned on [outIt]... *)
Definition aggregateCell (inFun : DiscreteFunction)
    (aggregate : ValType → ValType → ValType) (outIt : DomainIterator)
  : Result ValType :=
  let inIt := DomainIterator.conditionOn outIt (DomainIterator.make inFun) in
  let* first := at_ inFun (DomainIterator.getInd inIt) in
  forEach (domainSize inFun) (DomainIterator.advance inIt)
    (fun it r =>
       let* v := at_ inFun (DomainIterator.getInd it) in
       Ok (aggregate r v))
    first.

(** ... then the store into the current position of [outFun]. *)
Definition marginalCell (inFun : DiscreteFunction)
    (aggregate : ValType → ValType → ValType)
    (outIt : DomainIterator) (outFun : DiscreteFunction)
  : Result DiscreteFunction :=
  let* result := aggregateCell inFun aggregate outIt in
  setAt outFun (DomainIterator.getInd outIt) result.

(** [marginal(inFun, aggregate, outFun)].  The result pairs the outcome with
    the content of [outFun] afterwards; the check of the domains throws
    before anything is written.  When the loop itself breaks down the
    content of [outFun] is not defined, and the pair carries the initial
    one. *)
Definition marginal (inFun : DiscreteFunction)
    (aggregate : ValType → ValType → ValType) (outFun : DiscreteFunction)
  : Result unit * DiscreteFunction :=
  if negb (includes (vars_i inFun) (vars_i outFun)) then
    (Throw BadDomainException, outFun)
  else
    match forEach (domainSize outFun) (DomainIterator.make outFun)
            (marginalCell inFun aggregate) outFun with
    | Ok out' => (Ok tt, out')
    | Throw e => (Throw e, outFun)
    | Undefined => (Undefined, outFun)
    | OutOfFuel => (OutOfFuel, outFun)
    end.

(** Modelled from the spec: the body of [maxMarginal] is not part of the
    sources; the header documents it as
    [marginal(inFun, std::max<ValType>, outFun)]. *)
Definition maxMarginal (inFun outFun : DiscreteFunction)
  : Result unit * DiscreteFunction :=
  marginal inFun Z.max outFun.

(** Modelled from the spec: likewise [marginal(inFun, std::min<ValType>, outFun)]. *)
Definition minMarginal (inFun outFun : DiscreteFunction)
  : Result unit * DiscreteFunction :=
  marginal inFun Z.min outFun.

(** Modelled from the spec: the body of [meanMarginal] is not part of the
    sources; it sums and divides by [|dom(in)| / |dom(out)|].  With exact
    integers the quotient of a cell is rounded down. *)
Definition meanMarginal (inFun outFun : DiscreteFunction)
  : Result unit * DiscreteFunction :=
  match marginal inFun Z.add outFun with
  | (Ok _, out') =>
      let n := Z.of_nat (domainSize inFun / domainSize outFun) in
      (Ok tt, mkDiscreteFunction (vars_i out') (size_i out')
                ((fun v => (v / n)%Z) <$> values_i out'))
  | r => r
  end.

End Ops.

(** ** Relational operators between a function and a scalar *)

Module Compare.

(** [operator<(f, v)]. *)
Definition lt_fs (f : DiscreteFunction) (v : ValType) : bool :=
  forallb (fun x => negb (x >=? v)%Z) (values_i f).

(** [operator>=(v, f)]. *)
Definition ge_sf (v : ValType) (f : DiscreteFunction) : bool := lt_fs f v.

(** [operator<=(f, v)]. *)
Definition le_fs (f : DiscreteFunction) (v : ValType) : bool :=
  forallb (fun x => negb (x >? v)%Z) (values_i f).

(** [operator>(v, f)]. *)
Definition gt_sf (v : ValType) (f : DiscreteFunction) : bool := le_fs f v.

(** [operator>(f, v)]. *)
Definition gt_fs (f : DiscreteFunction) (v : ValType) : bool :=
  forallb (fun x => negb (x <=? v)%Z) (values_i f).

(** [operator<=(v, f)]. *)
Definition le_sf (v : ValType) (f : DiscreteFunction) : bool := gt_fs f v.

(** [operator>=(f, v)]. *)
Definition ge_fs (f : DiscreteFunction) (v : ValType) : bool :=
  forallb (fun x => negb (x <? v)%Z) (values_i f).

(** [operator<(v, f)]. *)
Definition lt_sf (v : ValType) (f : DiscreteFunction) : bool := ge_fs f v.

End Compare.

(** ** Equality of functions *)

Module Equality.
Import DiscreteFunction.

(** Modelled from the spec: the table over the given variables that
    carries the coordinate tuples of a domain, with one cell for each
    tuple as in the data model (the product of the sizes, as a number). *)
Definition domainTable (reg : Registry) (vars : list VarID)
  : Result DiscreteFunction :=
  let vars' := sort vars in
  let* sizes := cacheSizes reg vars' in
  Ok (mkDiscreteFunction vars' sizes (replicate (prod_list sizes) 0%Z)).

Section tolerance.
(** The outcome of the relative test when the denominator is zero, which
    the specification leaves open. *)
Variable zeroDenominator : ValType → ValType → ValType → bool.

(** Modelled from the spec: the test on one pair of values is not part
    of the sources.  It is the relative test [|1 − a/b| < tol] where the
    denominator is nonzero (here with exact numbers, multiplied out by
    [|b|]), and reduces to exact equality when [tol] is zero. *)
Definition withinTolerance (a b tol : ValType) : bool :=
  if decide (tol = 0%Z) then bool_decide (a = b)
  else if decide (b = 0%Z) then zeroDenominator a b tol
  else bool_decide (Z.abs (b - a) < tol * Z.abs b)%Z.

(** Modelled from the spec: the body of [equalWithinTolerance] is not
    part of the sources.  It is true iff, for every coordinate tuple in
    the union of the two domains, the broadcasted values agree within
    [tol]. *)
Definition equalWithinTolerance (reg : Registry)
    (f1 f2 : DiscreteFunction) (tol : ValType) : Result bool :=
  let union := unique (sort (vars_i f1 ++ vars_i f2)) in
  let* u := domainTable reg union in
  forEach (domainSize u) (DomainIterator.make u)
    (fun it ok =>
       let* a := atSuper f1 (DomainIterator.getVars it) (DomainIterator.getSubInd it) in
       let* b := atSuper f2 (DomainIterator.getVars it) (DomainIterator.getSubInd it) in
       Ok (ok && withinTolerance a b tol))
    true.

(** [operator==(f1, f2)]. *)
Definition eq (reg : Registry) (f1 f2 : DiscreteFunction) : Result bool :=
  equalWithinTolerance reg f1 f2 0.

(** [operator!=(f1, f2)]. *)
Definition neq (reg : Registry) (f1 f2 : DiscreteFunction) : Result bool :=
  let* b := equalWithinTolerance reg f1 f2 0 in Ok (negb b).

End tolerance.

End Equality.

(** ** Further constructors and scalar arithmetic *)

(** A loop [for (int k = first; k < first + count; ++k) body]. *)
Fixpoint forRange {St : Type} (first count : nat)
    (body : nat → St → Result St) (s : St) : Result St :=
  match count with
  | 0 => Ok s
  | S count' =>
      let* s' := body first s in
      forRange (S first) count' body s'
  end.

Module Scalar.
Import DiscreteFunction.

(** [DiscreteFunction(VarID var, ValType val)]: the register is asked twice,
    once for [size_i] and once for the length of [values_i]. *)
Definition makeVar (reg : Registry) (var : VarID) (val : ValType)
  : Result DiscreteFunction :=
  let* siz := Register.getDomainSize reg var in
  let* len := Register.getDomainSize reg var in
  Ok (mkDiscreteFunction [var] [siz] (replicate len val)).

(** [assignKeepDomain(val)]. *)
Definition assignKeepDomain (val : ValType) (f : DiscreteFunction) : DiscreteFunction :=
  mkDiscreteFunction (vars_i f) (size_i f) (replicate (length (values_i f)) val).

(** [operator+=(ValType val)]. *)
Definition addScalar (val : ValType) (f : DiscreteFunction) : DiscreteFunction :=
  mkDiscreteFunction (vars_i f) (size_i f) ((fun x => x + val)%Z <$> values_i f).

(** [operator-=(ValType val)]. *)
Definition subScalar (val : ValType) (f : DiscreteFunction) : DiscreteFunction :=
  mkDiscreteFunction (vars_i f) (size_i f) ((fun x => x - val)%Z <$> values_i f).

(** [operator*=(ValType val)]. *)
Definition mulScalar (val : ValType) (f : DiscreteFunction) : DiscreteFunction :=
  mkDiscreteFunction (vars_i f) (size_i f) ((fun x => x * val)%Z <$> values_i f).

(** [operator-()]: a copy multiplied by [-1]. *)
Definition neg (f : DiscreteFunction) : DiscreteFunction := mulScalar (-1) f.

(** [operator+(T rhs)], [operator-(T rhs)] and [operator*(T rhs)] with a
    scalar: a copy of [*this] updated in place. *)
Definition plus (f : DiscreteFunction) (rhs : ValType) : DiscreteFunction :=
  addScalar rhs f.

Definition minus (f : DiscreteFunction) (rhs : ValType) : DiscreteFunction :=
  subScalar rhs f.

Definition times (f : DiscreteFunction) (rhs : ValType) : DiscreteFunction :=
  mulScalar rhs f.

(** [operator+(ValType f1, f2)] and [operator*(ValType f1, f2)]. *)
Definition plus_sf (f1 : ValType) (f2 : DiscreteFunction) : DiscreteFunction :=
  plus f2 f1.

Definition times_sf (f1 : ValType) (f2 : DiscreteFunction) : DiscreteFunction :=
  times f2 f1.

End Scalar.

(** ** The accessor by a variable map *)

Module MapAccess.
Import DiscreteFunction.

(** The loop of [getIndex(const VarMap& vals)]; the map is the list of its
    pairs in the order its iterator returns them. *)
Fixpoint mapIndex (myV : list VarID) (siz : list ValIndex)
    (inV : list (VarID * ValIndex)) (skipSize index : ValIndex) : ValIndex :=
  match inV with
  | p :: inV' =>
      match myV, siz with
      | m :: myV', s :: siz' =>
          if decide (m ≠ p.1) then mapIndex myV siz inV' skipSize index
          else mapIndex myV' siz' inV' (skipSize * s) (index + p.2 * skipSize)
      | _, _ => index
      end
  | [] => index
  end.

(** [getIndex(const VarMap& vals)]. *)
Definition getIndex (f : DiscreteFunction) (vals : list (VarID * ValIndex)) : ValIndex :=
  if decide (0 = noVars f) then 0
  else mapIndex (vars_i f) (size_i f) vals 1 0.

(** [operator()(const VarMap& vals)]. *)
Definition atMap (f : DiscreteFunction) (vals : list (VarID * ValIndex))
  : Result ValType :=
  at_ f (getIndex f vals).

End MapAccess.

(** ** Element-wise operations *)

Module ElementWise.
Import DiscreteFunction.

(** [elementWiseOp<UnaryScalarOp OP>(inFcn)]. *)
Definition unary (reg : Registry) (OP : ValType → ValType) (inFcn : DiscreteFunction)
  : Result DiscreteFunction :=
  let* result := make reg (vars_i inFcn) 0 in
  forRange 0 (domainSize inFcn)
    (fun k r => let* v := at_ inFcn k in setAt r k (OP v))
    result.

(** Modelled from the spec: the body of [expand(const DiscreteFunction& fun)]
    is not part of the sources; the header documents that afterwards the
    domain is the union of the previous domain with that of [fun]. *)
Definition expandTo (reg : Registry) (fun_ : DiscreteFunction) (f : DiscreteFunction)
  : Result DiscreteFunction :=
  Ops.expand reg (vars_i fun_) f.

(** Modelled from the spec: the body of [operator()(const DomainIterator& it)]
    is not part of the sources; the header documents that it indexes by the
    iterator's [getSubInd()] array. *)
Definition atIterator (f : DiscreteFunction) (it : DomainIterator) : Result ValType :=
  atSuper f (DomainIterator.getVars it) (DomainIterator.getSubInd it).

(** [elementWiseOp<DualScalarOp OP>(inFcn1, inFcn2)]. *)
Definition binary (reg : Registry) (OP : ValType → ValType → ValType)
    (inFcn1 inFcn2 : DiscreteFunction) : Result DiscreteFunction :=
  let* result := make reg (vars_i inFcn1) 0 in
  let* result := expandTo reg inFcn2 result in
  forEach (domainSize result) (DomainIterator.make result)
    (fun it r =>
       let* a := atIterator inFcn1 it in
       let* b := atIterator inFcn2 it in
       setAt r (DomainIterator.getInd it) (OP a b))
    result.

End ElementWise.

(** ** Specification vocabulary *)

(** The restriction of a tuple [sub] over the variables [vars] to the
    variables [own]: the coordinates of [own], in the order of [own]. *)
Definition restrict (vars : list VarID) (sub : list ValIndex) (own : list VarID)
  : list ValIndex :=
  (fun v => default 0 (lookupVal vars sub v)) <$> own.

Definition reg_positive (reg : Registry) : Prop :=
  ∀ v s, reg !! v = Some s → 0 < s.

(** A number of cells that a [ValIndex], an [int], holds. *)
Definition fits_int (n : nat) : Prop := (Z.of_nat n ≤ INT_MAX)%Z.

(** The registered sizes of a list of variables, and the number of tuples
    over them. *)
Definition domainSizes (reg : Registry) (vars : list VarID) : list ValIndex :=
  (fun v => default 0 (reg !! v)) <$> vars.

Definition cellCount (reg : Registry) (vars : list VarID) : nat :=
  prod_list (domainSizes reg vars).

(** The invariants of the data model; the number of cells is the [ValIndex]
    that [domainSize()] returns. *)
Record wf (reg : Registry) (f : DiscreteFunction) : Prop := mk_wf {
  wf_sorted : StronglySorted lt (vars_i f);
  wf_sizes : Forall2 (fun v s => reg !! v = Some s) (vars_i f) (size_i f);
  wf_values : length (values_i f) = prod_list (size_i f);
  wf_fits : fits_int (length (values_i f))
}.

(** What the run of an iterator over the domain of [f] depends on: the
    variables, their sizes and one cell for each tuple. *)
Record layout (reg : Registry) (f : DiscreteFunction) : Prop := mk_layout {
  layout_sorted : StronglySorted lt (vars_i f);
  layout_sizes : Forall2 (fun v s => reg !! v = Some s) (vars_i f) (size_i f);
  layout_values : length (values_i f) = prod_list (size_i f)
}.

Definition wf_layout reg f (H : wf reg f) : layout reg f :=
  mk_layout reg f (wf_sorted reg f H) (wf_sizes reg f H) (wf_values reg f H).

Coercion wf_layout : wf >-> layout.

(** The value of [f] at a tuple over its own domain, by the storage formula. *)
Definition cell (f : DiscreteFunction) (sub : list ValIndex) : option ValType :=
  values_i f !! linear_index (size_i f) sub.

(** The linear index in nested form. *)
Fixpoint horner (sizes sub : list nat) : nat :=
  match sizes, sub with
  | s :: sizes', a :: sub' => a + s * horner sizes' sub'
  | _, _ => 0
  end.


(** A tuple over a list of registered variables: one index per variable,
    each below the registered domain size. *)
Definition tuple_over (reg : Registry) (vars : list VarID) (sub : list ValIndex) : Prop :=
  Forall2 (fun v a => ∃ s, reg !! v = Some s ∧ a < s) vars sub.

(** ** The run of an iterator *)

(** The tuples that an iterator over [sizes] goes through when the
    coordinates flagged in [fixed] stay at their value in [sub] and the free
    ones run over their range, the first free coordinate varying fastest. *)
Fixpoint tuples (sizes : list nat) (fixed : list bool) (sub : list nat)
  : list (list nat) :=
  match sizes, fixed, sub with
  | s :: sizes', fx :: fixed', a :: sub' =>
      if (fx : bool) then cons a <$> tuples sizes' fixed' sub'
      else t ← tuples sizes' fixed' sub'; (fun b => b :: t) <$> seq 0 s
  | _, _, _ => [sub]
  end.

(** The tuple with every free coordinate at zero. *)
Fixpoint start (sizes : list nat) (fixed : list bool) (sub : list nat) : list nat :=
  match sizes, fixed, sub with
  | s :: sizes', fx :: fixed', a :: sub' =>
      (if (fx : bool) then a else 0) :: start sizes' fixed' sub'
  | _, _, _ => sub
  end.

(** [x] agrees with [sub] on the fixed coordinates and is in range on the
    free ones. *)
Fixpoint compatible (sizes : list nat) (fixed : list bool) (sub x : list nat) : Prop :=
  match sizes, fixed, sub, x with
  | s :: sizes', fx :: fixed', a :: sub', b :: x' =>
      (if (fx : bool) then b = a else b < s) ∧ compatible sizes' fixed' sub' x'
  | [], [], [], [] => True
  | _, _, _, _ => False
  end.

(** [visits sizes fixed x L]: advancing repeatedly from the tuple [x] goes
    through exactly the tuples of [L], and then the counter overflows. *)
Inductive visits (sizes : list nat) (fixed : list bool)
  : list nat → list (list nat) → Prop :=
  | visits_last x :
      (DomainIterator.increment sizes fixed x).2 = true →
      visits sizes fixed x [x]
  | visits_step x y L :
      DomainIterator.increment sizes fixed x = (y, false) →
      visits sizes fixed y L →
      visits sizes fixed x (x :: L).

(** A loop body applied along a list, threading the state. *)
Fixpoint foldM {X S : Type} (body : X → S → Result S) (L : list X) (s : S)
  : Result S :=
  match L with
  | [] => Ok s
  | x :: L' => let* s' := body x s in foldM body L' s'
  end.

(** The iterator [it] placed at the tuple [x]. *)
Definition at_tuple (it : DomainIterator) (x : list nat) : DomainIterator :=
  mkDomainIterator (it_vars it) (it_sizes it) x (it_fixed it) false.

(** The tuple and the flags of an iterator over the variables [own] right
    after it was conditioned on [pv ↦ pvals]. *)
Definition pinned_sub (pv : list VarID) (pvals : list ValIndex) (own : list VarID)
  : list ValIndex :=
  zip_with (fun w a => default a (lookupVal pv pvals w)) own (replicate (length own) 0).

Definition pinned_fixed (pv : list VarID) (pvals : list ValIndex) (own : list VarID)
  : list bool :=
  zip_with (fun w b => match lookupVal pv pvals w with Some _ => true | None => b end)
    own (replicate (length own) false).

(** [x] is a tuple over [own] that carries the value of [pv ↦ pvals] at
    every variable of [own] listed in [pv]. *)
Definition agrees (reg : Registry) (pv : list VarID) (pvals : list ValIndex)
    (own : list VarID) (x : list ValIndex) : Prop :=
  tuple_over reg own x ∧
  ∀ w a, w ∈ own → lookupVal pv pvals w = Some a → lookupVal own x w = Some a.

(** The tuple over [own] that extends the tuple [y] over [free] by the values
    of [pv ↦ pvals]. *)
Definition extend (own pv : list VarID) (pvals : list ValIndex)
    (free : list VarID) (y : list ValIndex) : list ValIndex :=
  (fun w => match lookupVal pv pvals w with
            | Some a => a
            | None => default 0 (lookupVal free y w)
            end) <$> own.

(** The outcome is not a C++ exception. *)
Definition no_throw {A} (r : Result A) : Prop := ∀ e, r ≠ Throw e.

(** ** A running example

    Variables [1] and [2] with domain sizes [2] and [3]; [example_g] is
    [g(i, j) = i + 10·j] over [{1, 2}], [example_f] is [(10, 20)] over [{1}]
    and [example_out] an output function over [{1}]. *)
Definition example_reg : gmap nat nat := {[1 := 2; 2 := 3]}.

Definition example_g : DiscreteFunction :=
  mkDiscreteFunction [1; 2] [2; 3] [0; 1; 10; 11; 20; 21]%Z.

Definition example_f : DiscreteFunction :=
  mkDiscreteFunction [1] [2] [10; 20]%Z.

Definition example_out : DiscreteFunction :=
  mkDiscreteFunction [1] [2] [0; 0]%Z.

Definition example_h : DiscreteFunction :=
  mkDiscreteFunction [2] [3] [5; 6; 7]%Z.

Definition example_const : DiscreteFunction := DiscreteFunction.constant 0.


(** * Properties *)

(** ** Index arithmetic *)

Lemma sub2ind_from_horner sizes : ∀ sub skip idx,
  sub2ind_from skip idx sizes sub = idx + skip * horner sizes sub.
Proof.
  induction sizes as [|s sizes IH]; intros [|a sub] skip idx; simpl; try lia.
  rewrite IH. lia.
Qed.

Lemma sub2ind_horner sizes sub : sub2ind sizes sub = horner sizes sub.
Proof. unfold sub2ind. rewrite sub2ind_from_horner. lia. Qed.

Lemma sum_list_imap_scale (g : nat → nat) s (l : list nat) :
  sum_list (imap (fun k a => a * (s * g k)) l) =
  s * sum_list (imap (fun k a => a * g k) l).
Proof.
  revert g. induction l as [|a l IH]; intros g; simpl; [lia|].
  specialize (IH (g ∘ S)). simpl in IH.
  unfold compose in *. rewrite IH. lia.
Qed.

Lemma linear_index_horner sizes : ∀ sub,
  length sub ≤ length sizes → linear_index sizes sub = horner sizes sub.
Proof.
  unfold linear_index.
  induction sizes as [|s sizes IH]; intros [|a sub] Hlen; simpl in *; try lia.
  unfold compose. simpl.
  rewrite (sum_list_imap_scale (fun k => prod_list (take k sizes)) s sub).
  rewrite IH by lia. lia.
Qed.

Lemma linear_index_sub2ind sizes sub :
  in_range sizes sub → linear_index sizes sub = sub2ind sizes sub.
Proof.
  intros H. rewrite sub2ind_horner. apply linear_index_horner.
  apply Forall2_length in H. lia.
Qed.

Lemma prod_list_pos sizes : Forall (fun s => 0 < s) sizes → 0 < prod_list sizes.
Proof. induction 1; simpl; [lia|]. nia. Qed.

Lemma horner_bound sizes sub :
  in_range sizes sub → horner sizes sub < prod_list sizes.
Proof.
  unfold in_range. induction 1 as [|a s sub sizes Has _ IH]; simpl; [lia|]. nia.
Qed.

Lemma horner_inj sizes x y :
  in_range sizes x → in_range sizes y → horner sizes x = horner sizes y → x = y.
Proof.
  unfold in_range. intros Hx. revert y.
  induction Hx as [|a s x sizes Has _ IH]; intros y Hy Heq.
  - by inversion Hy.
  - inversion Hy as [|b ? y' ? Hbs Hy']; subst. simpl in Heq.
    assert (horner sizes x = horner sizes y') as Hh.
    { destruct (Nat.lt_trichotomy (horner sizes x) (horner sizes y')) as [?|[?|?]];
        [nia | done | nia]. }
    rewrite Hh in Heq. assert (a = b) as -> by lia.
    f_equal. by apply IH.
Qed.

(** ** Parallel lists and restriction *)

Lemma lookupVal_Forall2 {A} (P : VarID → A → Prop) vars (vals : list A) v :
  Forall2 P vars vals → v ∈ vars → ∃ a, lookupVal vars vals v = Some a ∧ P v a.
Proof.
  induction 1 as [|w a vars vals Hwa _ IH]; intros Hin; [by inversion Hin|].
  simpl. destruct (decide (w = v)) as [->|Hne]; [eauto|].
  apply elem_of_cons in Hin as [->|Hin]; [done|]. auto.
Qed.

Lemma lookupVal_None {A} vars (vals : list A) v :
  v ∉ vars → lookupVal vars vals v = None.
Proof.
  revert vals. induction vars as [|w vars IH]; intros [|a vals] Hv; simpl; try done.
  apply not_elem_of_cons in Hv as [Hne Hv].
  destruct (decide (w = v)); [congruence|]. auto.
Qed.

Lemma lookupVal_Some_elem {A} vars (vals : list A) v a :
  lookupVal vars vals v = Some a → v ∈ vars.
Proof.
  revert vals. induction vars as [|w vars IH]; intros [|b vals]; simpl; try done.
  destruct (decide (w = v)) as [->|]; [intros; apply elem_of_cons; auto|].
  intros H. apply elem_of_cons. right. eauto.
Qed.

Lemma restrict_length vars sub own : length (restrict vars sub own) = length own.
Proof. unfold restrict. by rewrite length_fmap. Qed.

Lemma restrict_cons vars sub v own :
  restrict vars sub (v :: own) =
  default 0 (lookupVal vars sub v) :: restrict vars sub own.
Proof. done. Qed.

Lemma restrict_cons_notin v a vars sub own :
  v ∉ own → restrict (v :: vars) (a :: sub) own = restrict vars sub own.
Proof.
  unfold restrict. intros Hv. apply list_fmap_ext. intros i w Hw. simpl.
  destruct (decide (v = w)) as [->|]; [|done].
  exfalso. apply Hv. eapply list_elem_of_lookup_2; eauto.
Qed.

Lemma restrict_self vars : ∀ sub,
  NoDup vars → length sub = length vars → restrict vars sub vars = sub.
Proof.
  induction vars as [|v vars IH]; intros [|a sub] Hnd Hlen; try done.
  simpl in Hlen. apply NoDup_cons in Hnd as [Hv Hnd].
  rewrite restrict_cons. simpl lookupVal. rewrite decide_True by done. simpl. f_equal.
  rewrite restrict_cons_notin by done. apply IH; [done|lia].
Qed.

Lemma restrict_in_range reg vars sub own sizes :
  tuple_over reg vars sub → own ⊆ vars →
  Forall2 (fun v s => reg !! v = Some s) own sizes →
  in_range sizes (restrict vars sub own).
Proof.
  intros Hsub Hown Hsizes. unfold in_range, restrict.
  induction Hsizes as [|v s own sizes Hv _ IH]; simpl; [constructor|].
  constructor.
  - destruct (lookupVal_Forall2 _ _ _ v Hsub) as (a & -> & s' & Hs' & Ha).
    { apply Hown. apply elem_of_cons; auto. }
    simpl. congruence.
  - apply IH. intros w Hw. apply Hown. apply elem_of_cons; auto.
Qed.

Lemma tuple_over_in_range reg vars sizes sub :
  Forall2 (fun v s => reg !! v = Some s) vars sizes →
  tuple_over reg vars sub ↔ in_range sizes sub.
Proof.
  intros Hs. unfold tuple_over, in_range. revert sub.
  induction Hs as [|v s vars sizes Hv _ IH]; intros sub; split; intros H;
    inversion H; subst; constructor; try (by apply IH).
  - destruct H2 as (s' & ? & ?). congruence.
  - eauto.
Qed.

Lemma StronglySorted_lt_NoDup (l : list nat) : StronglySorted lt l → NoDup l.
Proof.
  induction 1 as [|x l _ IH Hx]; constructor; [|done].
  intros Hin. rewrite Forall_forall in Hx. specialize (Hx x Hin). lia.
Qed.

(** ** The supervariable accessor *)

Lemma superIndex_horner inV : ∀ myV siz sub skip idx,
  StronglySorted lt myV → StronglySorted le inV → myV ⊆ inV →
  length sub = length inV →
  DiscreteFunction.superIndex myV siz inV sub skip idx =
  idx + skip * horner siz (restrict inV sub myV).
Proof.
  induction inV as [|v inV IH]; intros myV siz sub skip idx Hmy Hin Hsub Hlen.
  - destruct myV as [|m myV].
    + destruct siz; simpl; lia.
    + exfalso. specialize (Hsub m). rewrite elem_of_cons in Hsub.
      specialize (Hsub (or_introl eq_refl)). by apply not_elem_of_nil in Hsub.
  - destruct sub as [|a sub]; [done|]. simpl in Hlen.
    apply StronglySorted_inv in Hin as [Hin Hv].
    destruct myV as [|m myV]; [destruct siz; simpl; lia|].
    apply StronglySorted_inv in Hmy as [Hmy Hm].
    rewrite Forall_forall in Hv, Hm.
    destruct siz as [|s siz]; [simpl; lia|].
    simpl DiscreteFunction.superIndex.
    destruct (decide (m ≠ v)) as [Hne|Heq].
    + assert (m ∈ inV) as Hmin.
      { specialize (Hsub m). rewrite !elem_of_cons in Hsub.
        destruct Hsub as [?|?]; auto; congruence. }
      rewrite IH; [|by constructor; [|apply Forall_forall]|done| |lia].
      * rewrite restrict_cons_notin; [done|].
        intros Hvin. apply elem_of_cons in Hvin as [?|Hvin]; [congruence|].
        specialize (Hv m Hmin). specialize (Hm v Hvin). lia.
      * intros w Hw. specialize (Hsub w Hw).
        apply elem_of_cons in Hsub as [->|?]; [|done].
        apply elem_of_cons in Hw as [?|Hw]; [congruence|].
        specialize (Hv m Hmin). specialize (Hm v Hw). lia.
    + assert (m = v) as -> by (destruct (decide (m = v)); [done|by exfalso; apply Heq]).
      assert (v ∉ myV) as Hnotin.
      { intros Hvin. specialize (Hm v Hvin). lia. }
      rewrite IH; [|done|done| |lia].
      * rewrite restrict_cons. simpl lookupVal. rewrite decide_True by done.
        rewrite restrict_cons_notin by done. simpl. lia.
      * intros w Hw. assert (w ∈ v :: inV) as Hw'.
        { apply Hsub. apply elem_of_cons; auto. }
        apply elem_of_cons in Hw' as [->|?]; [done|done].
Qed.

Lemma getSuperIndex_sub2ind reg f vars sub :
  wf reg f → StronglySorted le vars → vars_i f ⊆ vars → tuple_over reg vars sub →
  DiscreteFunction.getSuperIndex f vars sub =
    sub2ind (size_i f) (restrict vars sub (vars_i f)) ∧
  in_range (size_i f) (restrict vars sub (vars_i f)).
Proof.
  intros [Hs Hz Hv] Hvars Hsub Htup. split.
  - unfold DiscreteFunction.getSuperIndex.
    rewrite superIndex_horner; try done.
    + rewrite sub2ind_horner. lia.
    + symmetry. by eapply Forall2_length.
  - by eapply restrict_in_range.
Qed.

Lemma wf_lookup reg f sub :
  wf reg f → in_range (size_i f) sub →
  ∃ v, values_i f !! sub2ind (size_i f) sub = Some v.
Proof.
  intros [_ _ Hv] Hr. apply lookup_lt_is_Some_2.
  rewrite Hv, sub2ind_horner. by apply horner_bound.
Qed.

(** C4: for a function [f], a sorted list [outerVars] that contains the
    variables of [f], and a parallel list [outerSub] of in-range subindices,
    the accessor [f(outerVars, outerSub)] returns the cell at the linear
    index [Σ_k sub[k] · ∏_{j<k} sizes[j]] taken over the coordinates of the
    variables of [f] only (first variable fastest). *)
Theorem C4_supervariable_accessor reg f outerVars outerSub :
  wf reg f →
  Sorted le outerVars →
  vars_i f ⊆ outerVars →
  tuple_over reg outerVars outerSub →
  let own := restrict outerVars outerSub (vars_i f) in
  DiscreteFunction.getSuperIndex f outerVars outerSub = linear_index (size_i f) own ∧
  ∃ v, DiscreteFunction.atSuper f outerVars outerSub = Ok v ∧
       values_i f !! linear_index (size_i f) own = Some v.
Proof.
  intros Hwf Hsorted Hsub Htup own.
  apply Sorted_StronglySorted in Hsorted; [|intros ???; lia].
  destruct (getSuperIndex_sub2ind reg f outerVars outerSub) as [Hidx Hr]; try done.
  fold own in Hidx, Hr.
  rewrite linear_index_sub2ind by done. split; [done|].
  destruct (wf_lookup reg f own Hwf Hr) as [v Hv].
  exists v. split; [|done].
  unfold DiscreteFunction.atSuper, DiscreteFunction.at_. by rewrite Hidx, Hv.
Qed.

(** ** Sorting and deduplication *)

Lemma sort_Sorted l : Sorted le (sort l).
Proof. apply (Sorted_merge_sort le). Qed.

Lemma sort_Permutation l : sort l ≡ₚ l.
Proof. apply (merge_sort_Permutation le). Qed.

Lemma sort_elem_of l x : x ∈ sort l ↔ x ∈ l.
Proof. by rewrite (sort_Permutation l). Qed.

Lemma Sorted_le_NoDup_lt (l : list nat) :
  Sorted le l → NoDup l → StronglySorted lt l.
Proof.
  intros Hs Hnd. apply Sorted_StronglySorted in Hs; [|intros ???; lia].
  induction Hs as [|x l Hl IH Hx]; [constructor|].
  apply NoDup_cons in Hnd as [Hnotin Hnd]. constructor; [auto|].
  rewrite Forall_forall in *. intros y Hy. specialize (Hx y Hy).
  assert (x ≠ y) by (intros ->; done). lia.
Qed.

Lemma StronglySorted_lt_le (l : list nat) :
  StronglySorted lt l → StronglySorted le l.
Proof.
  induction 1 as [|x l _ IH Hx]; constructor; [done|].
  eapply Forall_impl; [done|]. simpl. lia.
Qed.

Lemma sort_sorted_id l : StronglySorted lt l → sort l = l.
Proof.
  intros Hl. apply (Sorted_unique le).
  - apply sort_Sorted.
  - apply StronglySorted_Sorted. by apply StronglySorted_lt_le.
  - apply sort_Permutation.
Qed.

Lemma unique_cons_cons a b l :
  unique (a :: b :: l) =
  if decide (a = b) then unique (b :: l) else a :: unique (b :: l).
Proof. done. Qed.

Lemma unique_elem_of l x : x ∈ unique l ↔ x ∈ l.
Proof.
  induction l as [|a l IH]; [done|].
  destruct l as [|b l]; [done|].
  rewrite unique_cons_cons.
  destruct (decide (a = b)) as [->|Hne].
  - rewrite IH. rewrite !elem_of_cons. intuition congruence.
  - rewrite elem_of_cons, IH. by rewrite (elem_of_cons (b :: l)).
Qed.

Lemma unique_strictly_sorted l :
  StronglySorted le l → StronglySorted lt (unique l).
Proof.
  induction 1 as [|a l Hl IH Ha]; [constructor|].
  destruct l as [|b l]; [repeat constructor|].
  rewrite unique_cons_cons.
  destruct (decide (a = b)) as [->|Hne]; [done|].
  constructor; [done|].
  rewrite Forall_forall in *. intros y Hy.
  rewrite unique_elem_of in Hy.
  apply StronglySorted_inv in Hl as [_ Hb]. rewrite Forall_forall in Hb.
  assert (a ≤ b) by (apply Ha; apply elem_of_cons; auto).
  apply elem_of_cons in Hy as [->|Hy]; [lia|].
  specialize (Hb y Hy). lia.
Qed.

Lemma unique_sorted_id l : StronglySorted lt l → unique l = l.
Proof.
  induction 1 as [|a l Hl IH Ha]; [done|].
  destruct l as [|b l]; [done|].
  rewrite unique_cons_cons.
  rewrite Forall_forall in Ha.
  assert (a < b) by (apply Ha; apply elem_of_cons; auto).
  rewrite decide_False by lia. by rewrite IH.
Qed.

(** ** The constructor *)

Lemma cacheSizes_ok reg vars :
  (∀ v, v ∈ vars → is_Some (reg !! v)) →
  ∃ sizes, DiscreteFunction.cacheSizes reg vars = Ok sizes ∧
           Forall2 (fun v s => reg !! v = Some s) vars sizes.
Proof.
  induction vars as [|v vars IH]; intros Hreg.
  - exists []. split; [done|constructor].
  - destruct (Hreg v) as [s Hs]; [apply elem_of_cons; auto|].
    destruct IH as (sizes & Hc & Hf).
    { intros w Hw. apply Hreg. apply elem_of_cons; auto. }
    exists (s :: sizes). split; [|by constructor].
    simpl. unfold Register.getDomainSize. rewrite Hs. simpl. by rewrite Hc.
Qed.

(** ** The cell count in [int] *)

Lemma wrap_int_small z :
  (-2147483648 ≤ z)%Z → (z ≤ INT_MAX)%Z → wrap_int z = z.
Proof.
  unfold wrap_int, INT_MAX. intros Hlo Hhi.
  rewrite Z.mod_small by lia. lia.
Qed.

Lemma wrap_int_range z :
  (-2147483648 ≤ wrap_int z)%Z ∧ (wrap_int z ≤ INT_MAX)%Z.
Proof.
  unfold wrap_int, INT_MAX.
  pose proof (Z.mod_pos_bound (z + 2147483648) 4294967296). lia.
Qed.

Lemma wrap_int_mul_l a b : wrap_int (wrap_int a * b) = wrap_int (a * b).
Proof.
  unfold wrap_int. f_equal.
  replace (((a + 2147483648) mod 4294967296 - 2147483648) * b + 2147483648)%Z
    with ((a + 2147483648) mod 4294967296 * b + (2147483648 - 2147483648 * b))%Z
    by lia.
  replace (a * b + 2147483648)%Z
    with ((a + 2147483648) * b + (2147483648 - 2147483648 * b))%Z by lia.
  rewrite (Z.add_mod ((a + 2147483648) mod 4294967296 * b)) by lia.
  rewrite Z.mul_mod_idemp_l by lia.
  by rewrite <- Z.add_mod by lia.
Qed.

Lemma totalSize_from sizes t :
  (-2147483648 ≤ t)%Z → (t ≤ INT_MAX)%Z →
  fold_left (fun t s => wrap_int (t * Z.of_nat s)) sizes t
  = wrap_int (t * Z.of_nat (prod_list sizes)).
Proof.
  revert t. induction sizes as [|s sizes IH]; intros t Hlo Hhi.
  - simpl. rewrite Z.mul_1_r. by rewrite wrap_int_small.
  - cbn [fold_left]. rewrite IH by apply wrap_int_range.
    rewrite wrap_int_mul_l. f_equal.
    change (prod_list (s :: sizes)) with (s * prod_list sizes).
    rewrite Nat2Z.inj_mul. lia.
Qed.

(** The constructor's [totalSize] is the product of the sizes as an [int]. *)
Lemma totalSize_wrap sizes :
  DiscreteFunction.totalSize sizes = wrap_int (Z.of_nat (prod_list sizes)).
Proof.
  unfold DiscreteFunction.totalSize.
  rewrite totalSize_from by (unfold INT_MAX; lia).
  f_equal. lia.
Qed.

Lemma totalSize_fits sizes :
  fits_int (prod_list sizes) →
  DiscreteFunction.totalSize sizes = Z.of_nat (prod_list sizes).
Proof.
  intros Hfit. rewrite totalSize_wrap. apply wrap_int_small; [lia|done].
Qed.

Lemma prod_list_Permutation (l1 l2 : list nat) :
  l1 ≡ₚ l2 → prod_list l1 = prod_list l2.
Proof.
  induction 1 as [|x l1 l2 _ IH|x y l|l1 l2 l3 _ IH1 _ IH2].
  - done.
  - change (x * prod_list l1 = x * prod_list l2). by rewrite IH.
  - change (y * (x * prod_list l) = x * (y * prod_list l)). lia.
  - congruence.
Qed.

Lemma domainSizes_registered reg vars sizes :
  Forall2 (fun v s => reg !! v = Some s) vars sizes →
  domainSizes reg vars = sizes.
Proof.
  induction 1 as [|v s vars sizes Hs _ IH]; [done|].
  unfold domainSizes in *. rewrite fmap_cons, Hs. simpl. by f_equal.
Qed.

Lemma cellCount_Permutation reg vars vars' :
  vars ≡ₚ vars' → cellCount reg vars = cellCount reg vars'.
Proof.
  intros Hp. unfold cellCount, domainSizes.
  apply prod_list_Permutation. by apply fmap_Permutation.
Qed.

(** ** The constructed function *)

Lemma make_ok reg vars val :
  (∀ v, v ∈ vars → is_Some (reg !! v)) →
  ∃ sizes, Forall2 (fun v s => reg !! v = Some s) (sort vars) sizes ∧
    (fits_int (prod_list sizes) →
     DiscreteFunction.make reg vars val =
       Ok (mkDiscreteFunction (sort vars) sizes (replicate (prod_list sizes) val))).
Proof.
  intros Hreg.
  destruct (cacheSizes_ok reg (sort vars)) as (sizes & Hc & Hf).
  { intros v Hv. apply Hreg. by apply sort_elem_of. }
  exists sizes. split; [done|]. intros Hfit.
  unfold DiscreteFunction.make. rewrite Hc. cbn [bind].
  rewrite totalSize_fits by done.
  rewrite decide_False by lia. by rewrite Nat2Z.id.
Qed.

(** C9, as the constructor implements it: for every list of registered
    variables, sorted or not, whose number of tuples fits an [int] (the
    type in which the constructor counts the cells), the constructed
    function has a sorted [vars] list that is a permutation of the given
    list (hence duplicate-free when the given list has no repeated id), a
    [sizes] list matching the register entry of each variable, and a
    [values] array of length [∏ sizes] with every cell equal to the initial
    scalar. *)
Theorem C9_constructor reg vars val :
  (∀ v, v ∈ vars → is_Some (reg !! v)) →
  fits_int (cellCount reg vars) →
  ∃ f, DiscreteFunction.make reg vars val = Ok f ∧
       Sorted le (vars_i f) ∧
       vars_i f ≡ₚ vars ∧
       (NoDup vars → NoDup (vars_i f)) ∧
       Forall2 (fun v s => reg !! v = Some s) (vars_i f) (size_i f) ∧
       length (values_i f) = prod_list (size_i f) ∧
       (∀ k, k < prod_list (size_i f) → values_i f !! k = Some val).
Proof.
  intros Hreg Hfit. destruct (make_ok reg vars val Hreg) as (sizes & Hf & Hmk).
  rewrite Hmk.
  2:{ rewrite <- (domainSizes_registered _ _ _ Hf).
      change (fits_int (cellCount reg (sort vars))).
      by rewrite (cellCount_Permutation reg (sort vars) vars)
        by apply sort_Permutation. }
  eexists. split; [done|]. simpl.
  split; [apply sort_Sorted|].
  split; [apply sort_Permutation|].
  split; [intros Hnd; by rewrite (sort_Permutation vars)|].
  split; [done|].
  split; [by rewrite length_replicate|].
  intros k Hk. by apply lookup_replicate_2.
Qed.




(** C9 as stated fails: from a list that repeats an id the constructor
    keeps both copies, so [vars] is not duplicate-free. *)
Lemma C9_repeated_ids_kept :
  let reg : Registry := {[1 := 2]} in
  (∀ v, v ∈ [1; 1] → is_Some (reg !! v)) ∧
  ∃ f, DiscreteFunction.make reg [1; 1] 0%Z = Ok f ∧
       vars_i f = [1; 1] ∧ ¬ NoDup (vars_i f).
Proof.
  split.
  - intros v Hv. exists 2.
    assert (v = 1) as ->; [|done].
    rewrite !elem_of_cons in Hv. destruct Hv as [?|[?|Hv]]; try done.
    by apply not_elem_of_nil in Hv.
  - eexists. split; [by vm_compute|]. split; [done|]. simpl.
    intros Hnd. apply NoDup_cons in Hnd as [Hnotin _].
    apply Hnotin. apply elem_of_cons; auto.
Qed.

(** ** The register *)

(** C7: registering an absent variable succeeds; registering it again with
    the same size succeeds; registering it again with a different size fails
    ([-1] through the C surface) and leaves the register unchanged, so the
    variable keeps its first size. *)
Theorem C7_register_variable (reg : Registry) (var : VarID) (s1 s2 : ValIndex) :
  reg !! var = None →
  s2 ≠ s1 →
  ∃ reg1,
    Register.registerVariable var s1 reg = (Ok tt, reg1) ∧
    reg1 !! var = Some s1 ∧
    Register.registerVariable var s1 reg1 = (Ok tt, reg1) ∧
    Register.registerVariable var s2 reg1 = (Throw InconsistentDomainException, reg1) ∧
    Register.registerVariable_ms var s2 reg1 = ((-1)%Z, reg1) ∧
    Register.getDomainSize (Register.registerVariable_ms var s2 reg1).2 var = Ok s1.
Proof.
  intros Habsent Hne. exists (<[var := s1]> reg).
  unfold Register.registerVariable_ms, Register.registerVariable, Register.getDomainSize.
  rewrite Habsent, lookup_insert_eq.
  rewrite decide_True by done. rewrite decide_False by done.
  simpl. by rewrite lookup_insert_eq.
Qed.

(** ** Comparison with a scalar *)

Lemma forallb_lookup {A} (p : A → bool) (l : list A) :
  forallb p l = true ↔ ∀ k x, l !! k = Some x → p x = true.
Proof.
  rewrite forallb_forall. split.
  - intros H k x Hk. apply H. apply list_elem_of_In. by eapply list_elem_of_lookup_2.
  - intros H x Hx. apply list_elem_of_In, list_elem_of_lookup_1 in Hx as [k Hk]. eauto.
Qed.

Lemma lt_fs_spec f v :
  Compare.lt_fs f v = true ↔ ∀ k (x : Z), values_i f !! k = Some x → (x < v)%Z.
Proof.
  unfold Compare.lt_fs. rewrite forallb_lookup.
  split; intros H k x Hk; specialize (H k x Hk);
    destruct (Z.geb_spec x v); simpl in *; try done; lia.
Qed.

Lemma le_fs_spec f v :
  Compare.le_fs f v = true ↔ ∀ k (x : Z), values_i f !! k = Some x → (x ≤ v)%Z.
Proof.
  unfold Compare.le_fs. rewrite forallb_lookup.
  split; intros H k x Hk; specialize (H k x Hk);
    destruct (Z.gtb_spec x v); simpl in *; try done; lia.
Qed.

Lemma gt_fs_spec f v :
  Compare.gt_fs f v = true ↔ ∀ k (x : Z), values_i f !! k = Some x → (v < x)%Z.
Proof.
  unfold Compare.gt_fs. rewrite forallb_lookup.
  split; intros H k x Hk; specialize (H k x Hk);
    destruct (Z.leb_spec x v); simpl in *; try done; lia.
Qed.

Lemma ge_fs_spec f v :
  Compare.ge_fs f v = true ↔ ∀ k (x : Z), values_i f !! k = Some x → (v ≤ x)%Z.
Proof.
  unfold Compare.ge_fs. rewrite forallb_lookup.
  split; intros H k x Hk; specialize (H k x Hk);
    destruct (Z.ltb_spec x v); simpl in *; try done; lia.
Qed.

(** What the forms with the scalar on the left compute: the relation of the
    function-first operator they call, which is not their own mirror image. *)
Lemma scalar_left_spec f v :
  (Compare.ge_sf v f = true ↔ ∀ k (x : Z), values_i f !! k = Some x → (x < v)%Z) ∧
  (Compare.gt_sf v f = true ↔ ∀ k (x : Z), values_i f !! k = Some x → (x ≤ v)%Z) ∧
  (Compare.le_sf v f = true ↔ ∀ k (x : Z), values_i f !! k = Some x → (v < x)%Z) ∧
  (Compare.lt_sf v f = true ↔ ∀ k (x : Z), values_i f !! k = Some x → (v ≤ x)%Z).
Proof.
  split; [apply lt_fs_spec|]. split; [apply le_fs_spec|].
  split; [apply gt_fs_spec|apply ge_fs_spec].
Qed.

(** C6: at the constant function [5] and the scalar [5], where the only cell
    equals the scalar, [5 >= f] and [5 <= f] return false although the
    relation holds at the cell, and [5 > f] and [5 < f] return true although
    it does not; the four forms with the function on the left agree with the
    relation at the cell. *)
Theorem C6_scalar_left_forms_diverge :
  let f := DiscreteFunction.constant 5 in
  values_i f = [5%Z] ∧
  Compare.ge_sf 5 f = false ∧
  Compare.le_sf 5 f = false ∧
  Compare.gt_sf 5 f = true ∧
  Compare.lt_sf 5 f = true ∧
  Compare.lt_fs f 5 = false ∧
  Compare.le_fs f 5 = true ∧
  Compare.gt_fs f 5 = false ∧
  Compare.ge_fs f 5 = true.
Proof. repeat split. Qed.

(** ** Runs of the iterator *)

Lemma visits_fixed s a sizes fixed x L :
  visits sizes fixed x L →
  visits (s :: sizes) (true :: fixed) (a :: x) (cons a <$> L).
Proof.
  induction 1 as [x Hc|x y L Hinc _ IH].
  - apply visits_last. simpl. done.
  - simpl. apply visits_step with (y := a :: y); [|done].
    simpl. by rewrite Hinc.
Qed.

Lemma count_up_last s sizes fixed x :
  (DomainIterator.increment sizes fixed x).2 = true →
  ∀ n b, b + n = s → 0 < n →
  visits (s :: sizes) (false :: fixed) (b :: x) ((fun c => c :: x) <$> seq b n).
Proof.
  intros Hc. induction n as [|n IH]; intros b Hb Hn; [lia|].
  destruct n as [|n].
  - simpl. apply visits_last. simpl.
    destruct (Nat.ltb_spec (S b) s); [lia|]. done.
  - change (seq b (S (S n))) with (b :: seq (S b) (S n)). rewrite fmap_cons.
    apply visits_step with (y := S b :: x); [|apply IH; lia].
    simpl. destruct (Nat.ltb_spec (S b) s); [done|lia].
Qed.

Lemma count_up_step s sizes fixed x y R :
  DomainIterator.increment sizes fixed x = (y, false) →
  visits (s :: sizes) (false :: fixed) (0 :: y) R →
  ∀ n b, b + n = s → 0 < n →
  visits (s :: sizes) (false :: fixed) (b :: x)
    (((fun c => c :: x) <$> seq b n) ++ R).
Proof.
  intros Hinc HR. induction n as [|n IH]; intros b Hb Hn; [lia|].
  destruct n as [|n].
  - simpl. apply visits_step with (y := 0 :: y); [|done]. simpl.
    destruct (Nat.ltb_spec (S b) s); [lia|]. by rewrite Hinc.
  - change (seq b (S (S n))) with (b :: seq (S b) (S n)). rewrite fmap_cons.
    simpl. apply visits_step with (y := S b :: x); [|apply IH; lia].
    simpl. destruct (Nat.ltb_spec (S b) s); [done|lia].
Qed.

Lemma visits_free s sizes fixed x L :
  0 < s →
  visits sizes fixed x L →
  visits (s :: sizes) (false :: fixed) (0 :: x)
    (t ← L; (fun b => b :: t) <$> seq 0 s).
Proof.
  intros Hs. induction 1 as [x Hc|x y L Hinc _ IH].
  - simpl. rewrite app_nil_r. apply count_up_last; [done|lia|done].
  - simpl. eapply count_up_step; [done|done|lia|done].
Qed.

Lemma visits_tuples sizes : ∀ fixed sub,
  Forall (fun s => 0 < s) sizes →
  visits sizes fixed (start sizes fixed sub) (tuples sizes fixed sub).
Proof.
  induction sizes as [|s sizes IH]; intros fixed sub Hpos.
  - simpl. by apply visits_last.
  - apply Forall_cons in Hpos as [Hs Hpos].
    destruct fixed as [|fx fixed]; [by apply visits_last|].
    destruct sub as [|a sub]; [by apply visits_last|].
    simpl. destruct fx.
    + apply visits_fixed. by apply IH.
    + apply visits_free; [done|]. by apply IH.
Qed.

Lemma forEach_advance {S} vars sizes fixed (body : DomainIterator → S → Result S) L :
  ∀ x fuel s,
  visits sizes fixed x (x :: L) →
  length L ≤ fuel →
  forEach fuel
    (DomainIterator.advance (mkDomainIterator vars sizes x fixed false)) body s =
  foldM (fun y => body (mkDomainIterator vars sizes y fixed false)) L s.
Proof.
  induction L as [|y L IH]; intros x fuel s Hv Hfuel.
  - inversion Hv as [? Hc|? ? ? Hinc Hv']; subst; [|inversion Hv'].
    unfold DomainIterator.advance. simpl. rewrite Hc. by destruct fuel.
  - inversion Hv as [|? y' ? Hinc Hv']; subst.
    assert (y' = y) as -> by (inversion Hv'; done).
    unfold DomainIterator.advance. simpl it_sizes. simpl it_fixed. simpl it_sub.
    simpl it_vars. rewrite Hinc. simpl in Hfuel.
    destruct fuel as [|fuel]; [lia|]. simpl.
    destruct (body _ s) as [s'| | |]; simpl; try done.
    apply (IH y fuel s' Hv'). lia.
Qed.

Lemma forEach_visits {S} vars sizes fixed (body : DomainIterator → S → Result S) L x fuel s :
  visits sizes fixed x L →
  length L ≤ fuel →
  forEach fuel (mkDomainIterator vars sizes x fixed false) body s =
  foldM (fun y => body (mkDomainIterator vars sizes y fixed false)) L s.
Proof.
  intros Hv Hfuel.
  assert (∃ L', L = x :: L') as [L' ->] by (inversion Hv; eauto).
  simpl in Hfuel. destruct fuel as [|fuel]; [lia|]. simpl.
  destruct (body _ s) as [s'| | |]; simpl; try done.
  apply forEach_advance; [done|lia].
Qed.

(** ** The tuples of a run *)

Lemma tuples_compatible sizes : ∀ fixed sub x,
  length fixed = length sizes → length sub = length sizes →
  x ∈ tuples sizes fixed sub ↔ compatible sizes fixed sub x.
Proof.
  induction sizes as [|s sizes IH]; intros [|fx fixed] [|a sub] x Hf Hs;
    simpl in Hf, Hs; try lia.
  - simpl. rewrite list_elem_of_singleton. destruct x; naive_solver.
  - simpl. destruct fx.
    + rewrite list_elem_of_fmap. split.
      * intros (t & -> & Ht). split; [done|]. apply IH; [lia|lia|done].
      * destruct x as [|b x]; [done|]. intros [-> Hc].
        exists x. split; [done|]. apply IH; [lia|lia|done].
    + rewrite list_elem_of_bind. split.
      * intros (t & Hx & Ht). apply list_elem_of_fmap in Hx as (b & -> & Hb).
        apply elem_of_seq in Hb. split; [lia|]. apply IH; [lia|lia|done].
      * destruct x as [|b x]; [done|]. intros [Hb Hc].
        exists x. split; [|apply IH; [lia|lia|done]].
        apply list_elem_of_fmap. exists b. split; [done|].
        apply elem_of_seq. lia.
Qed.

Lemma tuples_length sizes : ∀ fixed sub,
  Forall (fun s => 0 < s) sizes →
  length (tuples sizes fixed sub) ≤ prod_list sizes.
Proof.
  induction sizes as [|s sizes IH]; intros fixed sub Hpos; [simpl; lia|].
  apply Forall_cons in Hpos as [Hs Hpos].
  pose proof (prod_list_pos sizes Hpos).
  destruct fixed as [|fx fixed]; [simpl; nia|].
  destruct sub as [|a sub]; [simpl; nia|].
  specialize (IH fixed sub Hpos). simpl. destruct fx.
  - rewrite length_fmap. nia.
  - clear - IH. revert IH. generalize (prod_list sizes) as n.
    generalize (tuples sizes fixed sub) as L.
    induction L as [|t L IHL]; intros n Hn; simpl in *; [lia|].
    rewrite length_app, length_fmap, length_seq.
    assert (length L ≤ n - 1) as Hl by lia.
    specialize (IHL (n - 1) Hl). unfold mbind in IHL. nia.
Qed.

(** ** Loops that fill a value array *)

Lemma foldM_ext {X S} (b1 b2 : X → S → Result S) L : ∀ s,
  (∀ x s, x ∈ L → b1 x s = b2 x s) → foldM b1 L s = foldM b2 L s.
Proof.
  induction L as [|x L IH]; intros s Hext; [done|].
  simpl. rewrite Hext by (apply elem_of_cons; auto).
  destruct (b2 x s); simpl; try done.
  apply IH. intros y s' Hy. apply Hext. apply elem_of_cons; auto.
Qed.

Lemma setAt_ok r i v :
  i < length (values_i r) →
  DiscreteFunction.setAt r i v =
    Ok (mkDiscreteFunction (vars_i r) (size_i r) (<[i := v]> (values_i r))).
Proof. intros H. unfold DiscreteFunction.setAt. by rewrite decide_True. Qed.

Section write_loop.
Context {X : Type}.
Variable idx : DiscreteFunction → X → nat.
Variable val : X → Result ValType.
Hypothesis idx_domain : ∀ r r' x,
  vars_i r = vars_i r' → size_i r = size_i r' → idx r x = idx r' x.

Lemma foldM_write L : ∀ r0,
  (∀ x, x ∈ L → idx r0 x < length (values_i r0) ∧ ∃ v, val x = Ok v) →
  (∀ x y, x ∈ L → y ∈ L → idx r0 x = idx r0 y → val x = val y) →
  ∃ r,
    foldM (fun x r => let* v := val x in DiscreteFunction.setAt r (idx r x) v) L r0
      = Ok r ∧
    vars_i r = vars_i r0 ∧ size_i r = size_i r0 ∧
    length (values_i r) = length (values_i r0) ∧
    (∀ x, x ∈ L → of_option (values_i r !! idx r0 x) = val x) ∧
    (∀ i, (∀ x, x ∈ L → idx r0 x ≠ i) → values_i r !! i = values_i r0 !! i).
Proof.
  induction L as [|x0 L IH]; intros r0 Hok Hsame.
  - exists r0. repeat split; try done. intros x Hx. by apply not_elem_of_nil in Hx.
  - destruct (Hok x0) as [Hlt [v0 Hv0]]; [apply elem_of_cons; auto|].
    set (r1 := mkDiscreteFunction (vars_i r0) (size_i r0)
                 (<[idx r0 x0 := v0]> (values_i r0))).
    assert (∀ x, idx r1 x = idx r0 x) as Hidx by (intros; by apply idx_domain).
    destruct (IH r1) as (r & Hr & Hvars & Hsizes & Hlen & Hwritten & Hrest).
    { intros x Hx. rewrite Hidx. simpl. rewrite length_insert.
      apply Hok. apply elem_of_cons; auto. }
    { intros x y Hx Hy. rewrite !Hidx. apply Hsame; apply elem_of_cons; auto. }
    exists r. simpl. rewrite Hv0. simpl. rewrite setAt_ok by done. fold r1.
    split; [done|]. split; [done|]. split; [done|].
    split; [by rewrite Hlen; simpl; rewrite length_insert|].
    split.
    + intros x Hx. apply elem_of_cons in Hx as [->|Hx].
      * destruct (decide (idx r0 x0 ∈ idx r0 <$> L)) as [Hin|Hnotin].
        -- apply list_elem_of_fmap in Hin as (y & Heq & Hy).
           rewrite Heq. rewrite <- (Hidx y), Hwritten by done.
           symmetry. apply Hsame; [apply elem_of_cons; auto|apply elem_of_cons; auto|done].
        -- rewrite Hrest.
           ++ simpl. rewrite list_lookup_insert_eq by done. by rewrite Hv0.
           ++ intros y Hy Heq. apply Hnotin. apply list_elem_of_fmap.
              exists y. split; [|done]. by rewrite <- Heq, Hidx.
      * rewrite <- (Hidx x). by apply Hwritten.
    + intros i Hi. rewrite Hrest.
      * simpl. apply list_lookup_insert_ne. apply Hi. apply elem_of_cons; auto.
      * intros y Hy. rewrite Hidx. apply Hi. apply elem_of_cons; auto.
Qed.
End write_loop.

(** ** Conditioned iterators *)

Lemma condition_make pv pvals f :
  DomainIterator.condition pv pvals (DomainIterator.make f) =
  mkDomainIterator (vars_i f) (size_i f)
    (pinned_sub pv pvals (vars_i f)) (pinned_fixed pv pvals (vars_i f)) false.
Proof. done. Qed.

Lemma pinned_sub_cons pv pvals w own :
  pinned_sub pv pvals (w :: own) =
  default 0 (lookupVal pv pvals w) :: pinned_sub pv pvals own.
Proof. done. Qed.

Lemma pinned_fixed_cons pv pvals w own :
  pinned_fixed pv pvals (w :: own) =
  (match lookupVal pv pvals w with Some _ => true | None => false end)
    :: pinned_fixed pv pvals own.
Proof. done. Qed.

Lemma pinned_sub_nil own : pinned_sub [] [] own = replicate (length own) 0.
Proof. induction own as [|w own IH]; [done|]. rewrite pinned_sub_cons, IH. done. Qed.

Lemma pinned_fixed_nil own : pinned_fixed [] [] own = replicate (length own) false.
Proof. induction own as [|w own IH]; [done|]. rewrite pinned_fixed_cons, IH. done. Qed.

Lemma condition_nil f :
  DomainIterator.condition [] [] (DomainIterator.make f) = DomainIterator.make f.
Proof.
  rewrite condition_make, pinned_sub_nil, pinned_fixed_nil. done.
Qed.

Lemma pinned_length pv pvals own :
  length (pinned_sub pv pvals own) = length own ∧
  length (pinned_fixed pv pvals own) = length own.
Proof.
  unfold pinned_sub, pinned_fixed.
  rewrite !length_zip_with, !length_replicate. lia.
Qed.

Lemma pinned_start pv pvals own : ∀ sizes,
  length sizes = length own →
  start sizes (pinned_fixed pv pvals own) (pinned_sub pv pvals own) =
  pinned_sub pv pvals own.
Proof.
  induction own as [|w own IH]; intros [|s sizes] Hlen; simpl in Hlen; try done.
  rewrite pinned_sub_cons, pinned_fixed_cons. simpl.
  rewrite IH by lia. by destruct (lookupVal pv pvals w).
Qed.

Lemma lookupVal_Forall2_Some {A} (P : VarID → A → Prop) vars (vals : list A) v a :
  Forall2 P vars vals → lookupVal vars vals v = Some a → P v a.
Proof.
  induction 1 as [|w b vars vals Hwb _ IH]; simpl; [done|].
  destruct (decide (w = v)) as [->|]; [by intros [= ->]|done].
Qed.

Lemma pinned_compatible reg pv pvals own sizes :
  Forall2 (fun v s => reg !! v = Some s) own sizes →
  NoDup own →
  tuple_over reg pv pvals →
  ∀ x, compatible sizes (pinned_fixed pv pvals own) (pinned_sub pv pvals own) x
       ↔ agrees reg pv pvals own x.
Proof.
  intros Hsizes Hnd Hpin. unfold agrees.
  induction Hsizes as [|w s own sizes Hw Hsizes IH]; intros x.
  - simpl. destruct x.
    + split; [|done]. intros _. split; [constructor|].
      intros w a Hw. by apply not_elem_of_nil in Hw.
    + split; [done|]. intros [H _]. inversion H.
  - apply NoDup_cons in Hnd as [Hnotin Hnd]. specialize (IH Hnd).
    rewrite pinned_sub_cons, pinned_fixed_cons.
    destruct x as [|b x].
    { simpl. split; [done|]. intros [H _]. inversion H. }
    simpl compatible. rewrite IH. clear IH.
    assert (∀ u, u ∈ own → lookupVal (w :: own) (b :: x) u = lookupVal own x u) as Htail.
    { intros u Hu. simpl. rewrite decide_False; [done|]. by intros ->. }
    split.
    + intros [Hhead [Htup Hag]]. split.
      * constructor; [|done]. exists s. split; [done|].
        destruct (lookupVal pv pvals w) as [a|] eqn:Hl; [|done]. simpl in Hhead. subst b.
        apply (lookupVal_Forall2_Some _ _ _ _ _ Hpin) in Hl as (s' & Hs' & Ha).
        congruence.
      * intros u a Hu Hl. apply elem_of_cons in Hu as [->|Hu].
        -- rewrite Hl in Hhead. simpl in *. rewrite decide_True by done. by subst.
        -- rewrite Htail by done. by apply Hag.
    + intros [Htup Hag]. inversion Htup as [|? ? ? ? (s' & Hs' & Hb) Htup']; subst.
      split; [|split; [done|]].
      * destruct (lookupVal pv pvals w) as [a|] eqn:Hl.
        -- simpl. specialize (Hag w a). simpl in Hag. rewrite decide_True in Hag by done.
           assert (Some b = Some a) as [= ->]; [|done].
           apply Hag; [apply elem_of_cons; auto|done].
        -- congruence.
      * intros u a Hu Hl. rewrite <- Htail by done.
        apply Hag; [apply elem_of_cons; auto|done].
Qed.

(** The run of a conditioned iterator, as the loops use it. *)
Lemma run_facts reg f pv pvals :
  reg_positive reg → layout reg f → tuple_over reg pv pvals →
  let it := DomainIterator.condition pv pvals (DomainIterator.make f) in
  let L := tuples (size_i f) (it_fixed it) (it_sub it) in
  visits (size_i f) (it_fixed it) (it_sub it) L ∧
  length L ≤ DiscreteFunction.domainSize f ∧
  (∀ x, x ∈ L ↔ agrees reg pv pvals (vars_i f) x).
Proof.
  intros Hreg [Hsorted Hsizes Hvalues] Hpin it L.
  assert (Forall (fun s => 0 < s) (size_i f)) as Hpos.
  { clear - Hreg Hsizes. induction Hsizes; constructor; eauto. }
  pose proof (Forall2_length _ _ _ Hsizes) as Hlen.
  destruct (pinned_length pv pvals (vars_i f)) as [Hl1 Hl2].
  subst L it. rewrite condition_make. simpl. split; [|split].
  - rewrite <- (pinned_start pv pvals (vars_i f) (size_i f)) at 1 by lia.
    by apply visits_tuples.
  - unfold DiscreteFunction.domainSize. rewrite Hvalues. by apply tuples_length.
  - intros x. rewrite tuples_compatible by lia.
    apply pinned_compatible; [done| |done]. by apply StronglySorted_lt_NoDup.
Qed.

Lemma conditioned_run {S} reg f pv pvals (body : DomainIterator → S → Result S) s :
  reg_positive reg → layout reg f → tuple_over reg pv pvals →
  let it := DomainIterator.condition pv pvals (DomainIterator.make f) in
  ∃ L,
    (∀ x, x ∈ L ↔ agrees reg pv pvals (vars_i f) x) ∧
    forEach (DiscreteFunction.domainSize f) it body s
      = foldM (fun y => body (at_tuple it y)) L s.
Proof.
  intros Hreg Hwf Hpin it.
  destruct (run_facts reg f pv pvals Hreg Hwf Hpin) as (Hv & HL & Hmem).
  eexists. split; [exact Hmem|].
  fold it in Hv, HL. subst it. rewrite condition_make in *. simpl in Hv, HL.
  by apply forEach_visits.
Qed.

(** ** Reading cells *)

Lemma of_option_Ok {A} (o : option A) v : of_option o = Ok v → o = Some v.
Proof. destruct o; simpl; [by intros [= ->]|done]. Qed.

Lemma atSuper_cell reg f vars x :
  wf reg f → StronglySorted le vars → vars_i f ⊆ vars → tuple_over reg vars x →
  ∃ v, DiscreteFunction.atSuper f vars x = Ok v ∧
       cell f (restrict vars x (vars_i f)) = Some v.
Proof.
  intros Hwf Hsorted Hsub Htup.
  destruct (getSuperIndex_sub2ind reg f vars x) as [Hidx Hr]; try done.
  destruct (wf_lookup reg f _ Hwf Hr) as [v Hv].
  exists v. unfold DiscreteFunction.atSuper, DiscreteFunction.at_, cell.
  rewrite Hidx, linear_index_sub2ind, Hv by done. done.
Qed.

Lemma wf_positive reg f :
  reg_positive reg → wf reg f → Forall (fun s => 0 < s) (size_i f).
Proof.
  intros Hreg [_ Hsizes _ _]. induction Hsizes; constructor; eauto.
Qed.

Lemma wf_in_range reg f x :
  wf reg f → tuple_over reg (vars_i f) x ↔ in_range (size_i f) x.
Proof. intros [_ Hsizes _ _]. by apply tuple_over_in_range. Qed.

Lemma wf_index_bound reg f x :
  wf reg f → tuple_over reg (vars_i f) x →
  sub2ind (size_i f) x < length (values_i f).
Proof.
  intros Hwf Hx. pose proof Hwf as [_ _ Hlen _].
  rewrite Hlen, sub2ind_horner. apply horner_bound. by apply (wf_in_range reg f x).
Qed.

Lemma wf_cell_at reg f x :
  wf reg f → tuple_over reg (vars_i f) x →
  cell f x = values_i f !! sub2ind (size_i f) x.
Proof.
  intros Hwf Hx. unfold cell. rewrite linear_index_sub2ind; [done|].
  by apply (wf_in_range reg f x).
Qed.

Lemma wf_index_inj reg f x y :
  wf reg f → tuple_over reg (vars_i f) x → tuple_over reg (vars_i f) y →
  sub2ind (size_i f) x = sub2ind (size_i f) y → x = y.
Proof.
  intros Hwf Hx Hy. rewrite !sub2ind_horner.
  apply horner_inj; by apply (wf_in_range reg f).
Qed.

(** ** Whole-domain iterators *)

Lemma agrees_nil reg own x : agrees reg [] [] own x ↔ tuple_over reg own x.
Proof.
  unfold agrees. split; [by intros [? _]|]. intros H. split; [done|].
  intros w a _ Hl. done.
Qed.

Lemma full_run {S} reg f (body : DomainIterator → S → Result S) s :
  reg_positive reg → layout reg f →
  ∃ L,
    (∀ x, x ∈ L ↔ tuple_over reg (vars_i f) x) ∧
    forEach (DiscreteFunction.domainSize f) (DomainIterator.make f) body s
      = foldM (fun y => body (at_tuple (DomainIterator.make f) y)) L s.
Proof.
  intros Hreg Hwf.
  destruct (conditioned_run reg f [] [] body s Hreg Hwf) as (L & HL & Hrun).
  { constructor. }
  rewrite condition_nil in Hrun. exists L. split; [|done].
  intros x. rewrite HL. apply agrees_nil.
Qed.

(** ** expand *)

Lemma newVar_spec (own V : list VarID) :
  let newVar := unique (sort (own ++ V)) in
  StronglySorted lt newVar ∧ ∀ v, v ∈ newVar ↔ v ∈ own ∨ v ∈ V.
Proof.
  intros newVar. split.
  - apply unique_strictly_sorted. apply Sorted_StronglySorted; [intros ???; lia|].
    apply sort_Sorted.
  - intros v. unfold newVar. by rewrite unique_elem_of, sort_elem_of, elem_of_app.
Qed.

Lemma strictly_sorted_eq (l k : list nat) :
  StronglySorted lt l → StronglySorted lt k → (∀ v, v ∈ l ↔ v ∈ k) → l = k.
Proof.
  intros Hl Hk Heq. apply (Sorted_unique le).
  - apply StronglySorted_Sorted. by apply StronglySorted_lt_le.
  - apply StronglySorted_Sorted. by apply StronglySorted_lt_le.
  - apply NoDup_Permutation; [by apply StronglySorted_lt_NoDup..|done].
Qed.

Lemma make_sorted reg vars val :
  StronglySorted lt vars →
  (∀ v, v ∈ vars → is_Some (reg !! v)) →
  fits_int (cellCount reg vars) →
  ∃ f, DiscreteFunction.make reg vars val = Ok f ∧ wf reg f ∧ vars_i f = vars ∧
       values_i f = replicate (prod_list (size_i f)) val.
Proof.
  intros Hsorted Hreg Hfit.
  destruct (make_ok reg vars val Hreg) as (sizes & Hsizes & Hmk).
  rewrite sort_sorted_id in * by done.
  unfold cellCount in Hfit. rewrite (domainSizes_registered _ _ _ Hsizes) in Hfit.
  rewrite Hmk by done.
  eexists. split; [done|]. split; [|done].
  constructor; simpl; [done|done|by rewrite length_replicate..].
Qed.

Lemma wf_cellCount reg f : wf reg f → cellCount reg (vars_i f) = length (values_i f).
Proof.
  intros [_ Hsizes Hlen _]. unfold cellCount.
  by rewrite (domainSizes_registered _ _ _ Hsizes).
Qed.

(** ** Domains inside a representable one *)

Lemma cellCount_cons reg v vars :
  cellCount reg (v :: vars) = default 0 (reg !! v) * cellCount reg vars.
Proof. done. Qed.

Lemma cellCount_filter reg (P : VarID → Prop) `{!∀ v, Decision (P v)} vars :
  (∀ v, v ∈ vars → 0 < default 0 (reg !! v)) →
  cellCount reg (filter P vars) ≤ cellCount reg vars.
Proof.
  induction vars as [|v vars IH]; intros Hpos; [done|].
  assert (0 < default 0 (reg !! v)) by (apply Hpos, elem_of_cons; auto).
  assert (cellCount reg (filter P vars) ≤ cellCount reg vars) as Hle
    by (apply IH; intros w Hw; apply Hpos, elem_of_cons; auto).
  rewrite filter_cons. destruct (decide (P v)); rewrite !cellCount_cons; nia.
Qed.

Lemma wf_registered_positive reg f v :
  reg_positive reg → wf reg f → v ∈ vars_i f → 0 < default 0 (reg !! v).
Proof.
  intros Hreg [_ Hsizes _ _] Hv.
  apply list_elem_of_lookup in Hv as [i Hi].
  destruct (Forall2_lookup_l _ _ _ _ _ Hsizes Hi) as (s & _ & Hs).
  rewrite Hs. simpl. by eapply Hreg.
Qed.

Lemma wf_filter_fits reg f (P : VarID → Prop) `{!∀ v, Decision (P v)} :
  reg_positive reg → wf reg f → fits_int (cellCount reg (filter P (vars_i f))).
Proof.
  intros Hreg Hwf.
  pose proof (cellCount_filter reg P (vars_i f)
                (fun v => wf_registered_positive reg f v Hreg Hwf)) as Hle.
  rewrite (wf_cellCount reg f Hwf) in Hle.
  pose proof (wf_fits _ _ Hwf) as Hfit. unfold fits_int in *. lia.
Qed.

Lemma expand_subset reg f V :
  wf reg f →
  length (unique (sort (vars_i f ++ V))) ≤ length (vars_i f) →
  unique (sort (vars_i f ++ V)) = vars_i f.
Proof.
  intros [Hsorted _ _ _] Hlen.
  destruct (newVar_spec (vars_i f) V) as [Hnew Hmem].
  set (newVar := unique (sort (vars_i f ++ V))) in *.
  assert (vars_i f ≡ₚ newVar) as Hperm.
  { apply submseteq_length_Permutation; [|done].
    apply NoDup_submseteq; [by apply StronglySorted_lt_NoDup|].
    intros v Hv. apply Hmem. auto. }
  apply strictly_sorted_eq; [done|done|].
  intros v. by rewrite Hperm.
Qed.



(** ** condition *)

Lemma filter_ext_in {A} (P1 P2 : A → Prop)
    `{∀ x, Decision (P1 x)} `{∀ x, Decision (P2 x)} (l : list A) :
  (∀ x, x ∈ l → P1 x ↔ P2 x) → filter P1 l = filter P2 l.
Proof.
  induction l as [|a l IH]; intros Hext; [done|].
  rewrite !filter_cons.
  rewrite IH by (intros x Hx; apply Hext; apply elem_of_cons; auto).
  specialize (Hext a (proj2 (elem_of_cons _ _ _) (or_introl eq_refl))).
  destruct (decide (P1 a)), (decide (P2 a)); tauto.
Qed.

Lemma StronglySorted_filter_lt (P : nat → Prop) `{∀ x, Decision (P x)} l :
  StronglySorted lt l → StronglySorted lt (filter P l).
Proof.
  induction 1 as [|a l _ IH Ha]; [constructor|].
  rewrite filter_cons. destruct (decide (P a)); [|done].
  constructor; [done|].
  rewrite Forall_forall in *. intros y Hy. apply Ha.
  by apply list_elem_of_filter in Hy as [_ ?].
Qed.

Lemma lookupVal_fmap {A} (g : VarID → A) own w :
  w ∈ own → lookupVal own (g <$> own) w = Some (g w).
Proof.
  induction own as [|v own IH]; intros Hw; [by apply not_elem_of_nil in Hw|].
  simpl. destruct (decide (v = w)) as [->|Hne]; [done|].
  apply elem_of_cons in Hw as [->|Hw]; [done|auto].
Qed.

Lemma lookupVal_is_Some {A} vars (vals : list A) v :
  length vals = length vars → v ∈ vars → is_Some (lookupVal vars vals v).
Proof.
  revert vals. induction vars as [|w vars IH]; intros [|a vals] Hlen Hv;
    simpl in Hlen; try done.
  - by apply not_elem_of_nil in Hv.
  - simpl. destruct (decide (w = v)); [by eexists|].
    apply elem_of_cons in Hv as [->|Hv]; [done|]. apply IH; [lia|done].
Qed.

Lemma lookupVal_ext own : ∀ (x y : list nat),
  NoDup own → length x = length own → length y = length own →
  (∀ w, w ∈ own → lookupVal own x w = lookupVal own y w) → x = y.
Proof.
  induction own as [|v own IH]; intros [|a x] [|b y] Hnd Hx Hy Hext;
    simpl in Hx, Hy; try done.
  apply NoDup_cons in Hnd as [Hnotin Hnd].
  pose proof (Hext v (proj2 (elem_of_cons _ _ _) (or_introl eq_refl))) as Hv.
  simpl in Hv. rewrite !decide_True in Hv by done. assert (a = b) as -> by congruence.
  f_equal. apply IH; [done|lia|lia|].
  intros w Hw. specialize (Hext w (proj2 (elem_of_cons _ _ _) (or_intror Hw))).
  simpl in Hext. rewrite !decide_False in Hext by (by intros ->). done.
Qed.

Lemma isFixed_condition pv pvals f w :
  w ∈ vars_i f →
  DomainIterator.isFixed (DomainIterator.condition pv pvals (DomainIterator.make f)) w
  = match lookupVal pv pvals w with Some _ => true | None => false end.
Proof.
  rewrite condition_make. unfold DomainIterator.isFixed. simpl.
  generalize (vars_i f) as own.
  induction own as [|v own IH]; intros Hw; [by apply not_elem_of_nil in Hw|].
  rewrite pinned_fixed_cons. simpl.
  destruct (decide (v = w)) as [->|Hne]; [done|].
  apply elem_of_cons in Hw as [->|Hw]; [done|auto].
Qed.

Lemma fixedCount_condition pv pvals f :
  0 = DomainIterator.fixedCount
        (DomainIterator.condition pv pvals (DomainIterator.make f)) ↔
  ∀ w, w ∈ vars_i f → lookupVal pv pvals w = None.
Proof.
  rewrite condition_make. unfold DomainIterator.fixedCount. simpl.
  generalize (vars_i f) as own.
  induction own as [|v own IH].
  - split; [|done]. intros _ w Hw. by apply not_elem_of_nil in Hw.
  - rewrite pinned_fixed_cons, filter_cons.
    destruct (lookupVal pv pvals v) as [a|] eqn:Hv.
    + rewrite decide_True by done. simpl. split; [lia|].
      intros H. specialize (H v (proj2 (elem_of_cons _ _ _) (or_introl eq_refl))).
      congruence.
    + rewrite decide_False by done. rewrite IH. split.
      * intros H w Hw. apply elem_of_cons in Hw as [->|Hw]; auto.
      * intros H w Hw. apply H. apply elem_of_cons; auto.
Qed.

Lemma extend_agrees reg own pv pvals free y :
  tuple_over reg pv pvals →
  tuple_over reg free y →
  (∀ w, w ∈ own → lookupVal pv pvals w = None → w ∈ free) →
  agrees reg pv pvals own (extend own pv pvals free y).
Proof.
  intros Hpin Hy Hfree. split.
  - unfold tuple_over, extend. apply Forall2_fmap_r, Forall_Forall2_diag.
    apply Forall_forall. intros w Hw. unfold compose.
    destruct (lookupVal pv pvals w) as [a|] eqn:Hl.
    + apply (lookupVal_Forall2_Some _ _ _ _ _ Hpin) in Hl. exact Hl.
    + destruct (lookupVal_Forall2 _ _ _ w Hy) as (b & -> & Hb); [auto|exact Hb].
  - intros w a Hw Hl. unfold extend. rewrite lookupVal_fmap by done. by rewrite Hl.
Qed.

Lemma restrict_extend own pv pvals free y :
  NoDup free → length y = length free → free ⊆ own →
  (∀ w, w ∈ free → lookupVal pv pvals w = None) →
  restrict own (extend own pv pvals free y) free = y.
Proof.
  intros Hnd Hlen Hsub Hfree.
  rewrite <- (restrict_self free y Hnd Hlen) at 2.
  unfold restrict. apply list_fmap_ext. intros i w Hw.
  apply list_elem_of_lookup_2 in Hw.
  unfold extend. rewrite lookupVal_fmap by auto. by rewrite Hfree.
Qed.

Lemma agrees_restrict_inj reg own pv pvals free x x' :
  NoDup own →
  (∀ w, w ∈ own → lookupVal pv pvals w = None → w ∈ free) →
  agrees reg pv pvals own x → agrees reg pv pvals own x' →
  restrict own x free = restrict own x' free → x = x'.
Proof.
  intros Hnd Hfree [Hx Hax] [Hx' Hax'] Hr.
  pose proof (Forall2_length _ _ _ Hx) as Hlx.
  pose proof (Forall2_length _ _ _ Hx') as Hlx'.
  apply (lookupVal_ext own); [done|lia|lia|].
  intros w Hw. destruct (lookupVal pv pvals w) as [a|] eqn:Hl.
  - by rewrite (Hax w a), (Hax' w a).
  - specialize (Hfree w Hw Hl).
    apply list_elem_of_lookup_1 in Hfree as [i Hi].
    assert (restrict own x free !! i = restrict own x' free !! i) as Hri by (by rewrite Hr).
    unfold restrict in Hri. rewrite !list_lookup_fmap, Hi in Hri. simpl in Hri.
    destruct (lookupVal_is_Some own x w) as [b Hb]; [lia|done|].
    destruct (lookupVal_is_Some own x' w) as [b' Hb']; [lia|done|].
    rewrite Hb, Hb' in *. simpl in Hri. congruence.
Qed.

Lemma filter_all {A} (P : A → Prop) `{∀ x, Decision (P x)} (l : list A) :
  (∀ x, x ∈ l → P x) → filter P l = l.
Proof.
  induction l as [|a l IH]; intros Hall; [done|].
  rewrite filter_cons_True by (apply Hall; apply elem_of_cons; auto).
  rewrite IH; [done|]. intros x Hx. apply Hall. apply elem_of_cons; auto.
Qed.

Lemma lookupVal_None_iff reg pv pvals w :
  tuple_over reg pv pvals → lookupVal pv pvals w = None ↔ w ∉ pv.
Proof.
  intros Hpin. split.
  - intros Hl Hw. destruct (lookupVal_Forall2 _ _ _ w Hpin Hw) as (a & Ha & _). congruence.
  - apply lookupVal_None.
Qed.

Lemma freeVars_spec reg pv pvals f :
  tuple_over reg pv pvals →
  filter (fun v => DomainIterator.isFixed
            (DomainIterator.condition pv pvals (DomainIterator.make f)) v = false)
    (vars_i f)
  = filter (fun v => v ∉ pv) (vars_i f).
Proof.
  intros Hpin. apply filter_ext_in. intros w Hw.
  rewrite isFixed_condition by done.
  rewrite <- (lookupVal_None_iff reg pv pvals w Hpin).
  by destruct (lookupVal pv pvals w).
Qed.

(** C3: for a function [f], a sorted list [V] of variables and a parallel
    list [vals] of in-range values, conditioning leaves a function [f'] over
    the variables of [f] that are not in [V], whose value at every tuple [y]
    over [dom(f')] is the value of [f] at the tuple extending [y] by the
    values of [vals]; when no variable of [V] is in [dom(f)], [f] is left
    unchanged. *)
Theorem C3_condition reg f V vals :
  reg_positive reg →
  wf reg f →
  Sorted le V →
  tuple_over reg V vals →
  ∃ f',
    Ops.condition reg V vals f = Ok f' ∧
    wf reg f' ∧
    vars_i f' = filter (fun v => v ∉ V) (vars_i f) ∧
    (∀ v, v ∈ vars_i f' ↔ v ∈ vars_i f ∧ v ∉ V) ∧
    (∀ y, tuple_over reg (vars_i f') y →
       ∃ v, cell f' y = Some v ∧
            cell f (extend (vars_i f) V vals (vars_i f') y) = Some v) ∧
    ((∀ v, v ∈ V → v ∉ vars_i f) → f' = f).
Proof.
  intros Hreg Hwf _ Hpin.
  pose proof Hwf as [Hsorted Hsizes Hvalues Hfits].
  pose proof (StronglySorted_lt_NoDup _ Hsorted) as Hnd.
  set (free := filter (fun v => v ∉ V) (vars_i f)).
  assert (∀ v, v ∈ free ↔ v ∈ vars_i f ∧ v ∉ V) as Hfree.
  { intros v. unfold free. rewrite list_elem_of_filter. tauto. }
  assert (∀ y, tuple_over reg (vars_i f) y →
            ∃ v, cell f y = Some v) as Hcellf.
  { intros y Hy. apply lookup_lt_is_Some_2. rewrite linear_index_sub2ind.
    - by apply (wf_index_bound reg).
    - by apply (wf_in_range reg f). }
  unfold Ops.condition.
  destruct (decide (0 = _)) as [Hzero|Hnz].
  - rewrite fixedCount_condition in Hzero.
    assert (free = vars_i f) as Hall.
    { apply filter_all. intros w Hw.
      apply (lookupVal_None_iff reg V vals w Hpin). auto. }
    exists f. split; [done|]. split; [done|]. fold free.
    split; [done|]. rewrite Hall in Hfree. split; [done|]. split; [|done].
    intros y Hy.
    assert (extend (vars_i f) V vals (vars_i f) y = y) as ->.
    { rewrite <- (restrict_self (vars_i f) y Hnd) at 2
        by (symmetry; by eapply Forall2_length).
      unfold extend, restrict. apply list_fmap_ext. intros i w Hw.
      apply list_elem_of_lookup_2 in Hw. by rewrite Hzero. }
    destruct (Hcellf y Hy) as [v Hv]. eauto.
  - rewrite (freeVars_spec reg V vals f Hpin). fold free.
    assert (StronglySorted lt free) as Hfs by (by apply StronglySorted_filter_lt).
    destruct (make_sorted reg free 0%Z Hfs) as (r0 & -> & Hwf0 & Hvars0 & _).
    { intros v Hv. apply Hfree in Hv as [Hv _].
      eapply lookupVal_Forall2 in Hsizes as (s & _ & Hs); [|done]. by eexists. }
    { by apply wf_filter_fits. }
    simpl.
    set (body := fun (k : DomainIterator) (r : DiscreteFunction) =>
      let* v := DiscreteFunction.at_ f (DomainIterator.getInd k) in
      DiscreteFunction.setAtSuper r (DomainIterator.getVars k)
        (DomainIterator.getSubInd k) v).
    destruct (conditioned_run reg f V vals body r0 Hreg Hwf Hpin)
      as (L & HL & ->).
    assert (StronglySorted le (vars_i f)) as Hle by (by apply StronglySorted_lt_le).
    assert (free ⊆ vars_i f) as Hsub by (intros v Hv; by apply Hfree in Hv as [? _]).
    assert (∀ w, w ∈ vars_i f → lookupVal V vals w = None → w ∈ free) as Hnone.
    { intros w Hw Hl. apply Hfree. split; [done|].
      by apply (lookupVal_None_iff reg V vals w Hpin). }
    assert (∀ x, agrees reg V vals (vars_i f) x →
              DiscreteFunction.getSuperIndex r0 (vars_i f) x =
                sub2ind (size_i r0) (restrict (vars_i f) x free) ∧
              in_range (size_i r0) (restrict (vars_i f) x free)) as Hidx.
    { intros x [Hx _]. rewrite <- Hvars0.
      apply (getSuperIndex_sub2ind reg); try done. by rewrite Hvars0. }
    destruct (foldM_write (fun r y => DiscreteFunction.getSuperIndex r (vars_i f) y)
                (fun y => DiscreteFunction.at_ f (sub2ind (size_i f) y)) ) with (L := L) (r0 := r0)
      as (r & Hr & Hvars & Hsz & Hlen & Hwritten & _).
    { intros r1 r2 x H1 H2. unfold DiscreteFunction.getSuperIndex. by rewrite H1, H2. }
    { intros x Hx. apply HL in Hx. destruct (Hidx x Hx) as [-> Hin]. split.
      - destruct Hwf0 as [_ _ -> _]. rewrite sub2ind_horner. by apply horner_bound.
      - destruct Hx as [Hx _]. apply (wf_in_range reg f x Hwf) in Hx.
        destruct (wf_lookup reg f x Hwf Hx) as [v Hv].
        exists v. unfold DiscreteFunction.at_. by rewrite Hv. }
    { intros x y Hx Hy Heq. apply HL in Hx, Hy.
      destruct (Hidx x Hx) as [Hix Hrx]. destruct (Hidx y Hy) as [Hiy Hry].
      rewrite Hix, Hiy, !sub2ind_horner in Heq.
      apply horner_inj in Heq; [|done|done].
      by rewrite (agrees_restrict_inj reg (vars_i f) V vals free x y). }
    exists r. split; [exact Hr|].
    assert (wf reg r) as Hwfr.
    { destruct Hwf0 as [H1 H2 H3 H4].
      constructor; [by rewrite Hvars|by rewrite Hvars, Hsz| |by rewrite Hlen].
      by rewrite Hlen, Hsz. }
    split; [done|]. rewrite Hvars, Hvars0.
    split; [done|]. split; [done|]. split.
    + intros y Hy.
      set (x := extend (vars_i f) V vals free y).
      assert (agrees reg V vals (vars_i f) x) as Hx by (by apply extend_agrees).
      assert (restrict (vars_i f) x free = y) as Hrx.
      { apply restrict_extend; [by apply StronglySorted_lt_NoDup| |done|].
        - symmetry. by eapply Forall2_length.
        - intros w Hw. apply (lookupVal_None_iff reg V vals w Hpin). by apply Hfree. }
      specialize (Hwritten x (proj2 (HL x) Hx)).
      destruct (Hidx x Hx) as [Hix _]. rewrite Hix, Hrx in Hwritten.
      destruct (Hcellf x (proj1 Hx)) as [v Hv]. exists v. split; [|done].
      rewrite (wf_cell_at reg) by (by rewrite ?Hvars, ?Hvars0).
      rewrite Hsz. apply of_option_Ok. rewrite Hwritten.
      unfold DiscreteFunction.at_. rewrite <- (wf_cell_at reg) by (done || apply Hx).
      by rewrite Hv.
    + intros Hdisj. exfalso. apply Hnz. apply fixedCount_condition.
      intros w Hw. apply (lookupVal_None_iff reg V vals w Hpin).
      intros HwV. by apply (Hdisj w).
Qed.

(** ** The domain check of marginal *)

Lemma includes_cons_cons x l1 y l2 :
  includes (x :: l1) (y :: l2) =
  if y <? x then false
  else if x <? y then includes l1 (y :: l2)
  else includes l1 l2.
Proof. done. Qed.

Lemma includes_subset l2 : ∀ l1,
  StronglySorted lt l1 → StronglySorted lt l2 →
  includes l1 l2 = true ↔ l2 ⊆ l1.
Proof.
  induction l2 as [|y l2 IH]; intros l1 H1 H2.
  - simpl. split; [|done]. intros _ v Hv. by apply not_elem_of_nil in Hv.
  - apply StronglySorted_inv in H2 as [H2 Hy]. rewrite Forall_forall in Hy.
    induction H1 as [|x l1 H1 IH1 Hx].
    + simpl. split; [done|]. intros Hsub.
      specialize (Hsub y (proj2 (elem_of_cons _ _ _) (or_introl eq_refl))).
      by apply not_elem_of_nil in Hsub.
    + rewrite Forall_forall in Hx. rewrite includes_cons_cons.
      destruct (Nat.ltb_spec y x) as [Hyx|Hyx].
      { split; [done|]. intros Hsub.
        specialize (Hsub y (proj2 (elem_of_cons _ _ _) (or_introl eq_refl))).
        apply elem_of_cons in Hsub as [->|Hin]; [lia|].
        specialize (Hx y Hin). lia. }
      destruct (Nat.ltb_spec x y) as [Hxy|Hxy].
      * rewrite IH1. split.
        -- intros Hsub v Hv. apply elem_of_cons. right. by apply Hsub.
        -- intros Hsub v Hv. specialize (Hsub v Hv).
           apply elem_of_cons in Hsub as [->|?]; [|done].
           apply elem_of_cons in Hv as [->|Hv]; [lia|]. specialize (Hy x Hv). lia.
      * assert (x = y) as -> by lia. rewrite (IH l1 H1 H2). split.
        -- intros Hsub v Hv. apply elem_of_cons in Hv as [->|Hv];
             apply elem_of_cons; auto.
        -- intros Hsub v Hv. specialize (Hsub v (proj2 (elem_of_cons _ _ _) (or_intror Hv))).
           apply elem_of_cons in Hsub as [->|?]; [|done].
           specialize (Hy y Hv). lia.
Qed.

Lemma no_throw_bind {A B} (m : Result A) (k : A → Result B) :
  no_throw m → (∀ a, no_throw (k a)) → no_throw (bind m k).
Proof.
  intros Hm Hk e. destruct m as [a|e0| |]; simpl; [apply Hk| |done|done].
  exfalso. by apply (Hm e0).
Qed.

Lemma no_throw_at f i : no_throw (DiscreteFunction.at_ f i).
Proof. intros e. unfold DiscreteFunction.at_. by destruct (values_i f !! i). Qed.

Lemma no_throw_setAt f i v : no_throw (DiscreteFunction.setAt f i v).
Proof. intros e. unfold DiscreteFunction.setAt. by destruct (decide _). Qed.

Lemma no_throw_forEach {S} (body : DomainIterator → S → Result S) fuel :
  (∀ it s, no_throw (body it s)) → ∀ it s, no_throw (forEach fuel it body s).
Proof.
  intros Hbody. induction fuel as [|fuel IH]; intros it s; simpl;
    destruct (DomainIterator.hasNext it); try done.
  apply no_throw_bind; auto.
Qed.

Lemma no_throw_marginalCell inFun agg it out :
  no_throw (Ops.marginalCell inFun agg it out).
Proof.
  unfold Ops.marginalCell, Ops.aggregateCell.
  apply no_throw_bind; [|intros; apply no_throw_setAt].
  apply no_throw_bind; [apply no_throw_at|]. intros a.
  apply no_throw_forEach. intros it' s.
  apply no_throw_bind; [apply no_throw_at|done].
Qed.

(** C8: [marginal(in, aggregate, out)], for any aggregate and hence for each
    of its specialisations, fails with the bad-domain error if and only if
    the variable list of [out] is not a subset of that of [in]; on that error
    [out] is left unchanged. *)
Theorem C8_marginal_bad_domain reg inFun agg outFun :
  wf reg inFun →
  wf reg outFun →
  ((Ops.marginal inFun agg outFun).1 = Throw BadDomainException
     ↔ ¬ (vars_i outFun ⊆ vars_i inFun)) ∧
  ((Ops.marginal inFun agg outFun).1 = Throw BadDomainException →
     (Ops.marginal inFun agg outFun).2 = outFun) ∧
  ((Ops.maxMarginal inFun outFun).1 = Throw BadDomainException
     ↔ ¬ (vars_i outFun ⊆ vars_i inFun)) ∧
  ((Ops.minMarginal inFun outFun).1 = Throw BadDomainException
     ↔ ¬ (vars_i outFun ⊆ vars_i inFun)) ∧
  ((Ops.meanMarginal inFun outFun).1 = Throw BadDomainException
     ↔ ¬ (vars_i outFun ⊆ vars_i inFun)) ∧
  ((Ops.meanMarginal inFun outFun).1 = Throw BadDomainException →
     (Ops.meanMarginal inFun outFun).2 = outFun).
Proof.
  intros [Hin _ _] [Hout _ _].
  assert (∀ agg, (Ops.marginal inFun agg outFun).1 = Throw BadDomainException
            ↔ ¬ (vars_i outFun ⊆ vars_i inFun)) as Hiff.
  { intros agg'. unfold Ops.marginal.
    rewrite <- (includes_subset _ _ Hin Hout).
    destruct (includes (vars_i inFun) (vars_i outFun)); simpl.
    - split; [|done].
      pose proof (no_throw_forEach (Ops.marginalCell inFun agg')
        (DiscreteFunction.domainSize outFun)
        (no_throw_marginalCell inFun agg') (DomainIterator.make outFun) outFun) as Hnt.
      destruct (forEach _ _ _ _) as [a|e| |]; simpl; try done.
      intros _. by destruct (Hnt e).
    - split; [done|]. done. }
  assert (∀ agg, (Ops.marginal inFun agg outFun).1 = Throw BadDomainException →
            (Ops.marginal inFun agg outFun).2 = outFun) as Hsame.
  { intros agg'. unfold Ops.marginal.
    destruct (includes (vars_i inFun) (vars_i outFun)); simpl; [|done].
    by destruct (forEach _ _ _ _). }
  split; [apply Hiff|]. split; [apply Hsame|].
  split; [apply Hiff|]. split; [apply Hiff|].
  unfold Ops.meanMarginal.
  specialize (Hiff Z.add). specialize (Hsame Z.add).
  destruct (Ops.marginal inFun Z.add outFun) as [[[]|e| |] out'];
    simpl in *; try done.
Qed.

(** ** marginal *)

Lemma agrees_restrict reg own pv y x :
  NoDup pv → pv ⊆ own → tuple_over reg pv y →
  agrees reg pv y own x ↔ tuple_over reg own x ∧ restrict own x pv = y.
Proof.
  intros Hnd Hsub Hy. pose proof (Forall2_length _ _ _ Hy) as Hlen.
  unfold agrees. split; intros [Hx H]; (split; [done|]).
  - rewrite <- (restrict_self pv y Hnd) by lia.
    unfold restrict. apply list_fmap_ext. intros i w Hw.
    apply list_elem_of_lookup_2 in Hw.
    destruct (lookupVal_is_Some pv y w) as [a Ha]; [lia|done|].
    by rewrite Ha, (H w a) by auto.
  - intros w a Hw Hl. pose proof (lookupVal_Some_elem _ _ _ _ Hl) as Hwpv.
    pose proof (Forall2_length _ _ _ Hx) as Hlx.
    destruct (lookupVal_is_Some own x w) as [b Hb]; [lia|done|].
    rewrite <- H in Hl. unfold restrict in Hl.
    rewrite lookupVal_fmap in Hl by done. rewrite Hb in *. simpl in Hl. congruence.
Qed.

Lemma tuples_all_fixed sizes : ∀ fixed sub,
  Forall (fun b => b = true) fixed → tuples sizes fixed sub = [sub].
Proof.
  induction sizes as [|s sizes IH]; intros [|fx fixed] [|a sub] Hall; try done.
  apply Forall_cons in Hall as [-> Hall]. simpl. by rewrite IH.
Qed.

Lemma pinned_fixed_all pv pvals own :
  (∀ w, w ∈ own → is_Some (lookupVal pv pvals w)) →
  Forall (fun b => b = true) (pinned_fixed pv pvals own).
Proof.
  induction own as [|w own IH]; intros Hall; [constructor|].
  rewrite pinned_fixed_cons. constructor.
  - destruct (Hall w) as [a ->]; [apply elem_of_cons; auto|done].
  - apply IH. intros u Hu. apply Hall. apply elem_of_cons; auto.
Qed.

Lemma foldM_aggregate {X} (val : X → Result ValType)
    (agg : ValType → ValType → ValType) L : ∀ a : ValType,
  (∀ x, x ∈ L → ∃ v, val x = Ok v) →
  ∃ vs, Forall2 (fun x v => val x = Ok v) L vs ∧
        foldM (fun x r => let* v := val x in Ok (agg r v)) L a
          = Ok (fold_left agg vs a).
Proof.
  induction L as [|x L IH]; intros a Hok.
  - exists []. split; [constructor|done].
  - destruct (Hok x) as [v Hv]; [apply elem_of_cons; auto|].
    destruct (IH (agg a v)) as (vs & Hvs & Hfold).
    { intros y Hy. apply Hok. apply elem_of_cons; auto. }
    exists (v :: vs). split; [by constructor|]. simpl. rewrite Hv. simpl. exact Hfold.
Qed.

(** What one round of the loop of [marginal] computes for the tuple [y] of
    the output: the fold of [aggregate] over the cells of [inFun] at the
    tuples that restrict to [y], starting from the first of them. *)
Lemma aggregateCell_spec reg inFun outFun agg y :
  reg_positive reg → wf reg inFun → wf reg outFun →
  vars_i outFun ⊆ vars_i inFun →
  tuple_over reg (vars_i outFun) y →
  ∃ x0 L' v0 vs,
    (∀ x, x ∈ x0 :: L' ↔
       tuple_over reg (vars_i inFun) x ∧ restrict (vars_i inFun) x (vars_i outFun) = y) ∧
    cell inFun x0 = Some v0 ∧
    Forall2 (fun x v => cell inFun x = Some v) L' vs ∧
    Ops.aggregateCell inFun agg (at_tuple (DomainIterator.make outFun) y)
      = Ok (fold_left agg vs v0) ∧
    (vars_i inFun ⊆ vars_i outFun → L' = []).
Proof.
  intros Hreg Hin Hout Hsub Hy.
  pose proof (Hout) as [Hso _ _].
  pose proof (StronglySorted_lt_NoDup _ Hso) as Hnd.
  destruct (run_facts reg inFun (vars_i outFun) y Hreg Hin Hy) as (Hv & HL & Hmem).
  unfold Ops.aggregateCell, DomainIterator.conditionOn.
  change (DomainIterator.getVars (at_tuple (DomainIterator.make outFun) y))
    with (vars_i outFun).
  change (DomainIterator.getSubInd (at_tuple (DomainIterator.make outFun) y)) with y.
  rewrite condition_make in *. simpl in Hv, HL, Hmem.
  set (fixed := pinned_fixed (vars_i outFun) y (vars_i inFun)) in *.
  set (x0 := pinned_sub (vars_i outFun) y (vars_i inFun)) in *.
  set (L := tuples (size_i inFun) fixed x0) in *.
  assert (∃ L', L = x0 :: L') as [L' HLeq] by (inversion Hv; eauto).
  rewrite HLeq in *.
  assert (∀ x, x ∈ x0 :: L' → ∃ v, cell inFun x = Some v ∧
            DiscreteFunction.at_ inFun (sub2ind (size_i inFun) x) = Ok v) as Hcells.
  { intros x Hx. apply Hmem in Hx as [Hx _].
    pose proof (proj1 (wf_in_range reg inFun x Hin) Hx) as Hr.
    destruct (wf_lookup reg inFun x Hin Hr) as [v Hl].
    exists v. rewrite (wf_cell_at reg) by done.
    unfold DiscreteFunction.at_. by rewrite Hl. }
  destruct (Hcells x0) as (v0 & Hc0 & Ha0); [apply elem_of_cons; auto|].
  destruct (foldM_aggregate
    (fun x => DiscreteFunction.at_ inFun (sub2ind (size_i inFun) x)) agg L' v0)
    as (vs & Hvs & Hfold).
  { intros x Hx. destruct (Hcells x) as (v & _ & Hv'); [apply elem_of_cons; auto|]. eauto. }
  exists x0, L', v0, vs. split; [|split; [done|split; [|split]]].
  - intros x. rewrite Hmem. by apply agrees_restrict.
  - clear - Hvs Hcells. induction Hvs as [|x v L' vs Hxv _ IH]; constructor.
    + destruct (Hcells x) as (v' & Hc & Ha); [rewrite !elem_of_cons; auto|]. congruence.
    + apply IH. intros z Hz. apply Hcells.
      rewrite elem_of_cons in Hz. rewrite !elem_of_cons. tauto.
  - unfold DomainIterator.getInd at 1. simpl it_sizes. simpl it_sub. rewrite Ha0. simpl.
    rewrite (forEach_advance _ _ _ _ L') by (simpl in HL; done || lia).
    exact Hfold.
  - intros Hsup. unfold L in HLeq. rewrite tuples_all_fixed in HLeq; [by injection HLeq|].
    apply pinned_fixed_all. intros w Hw. apply lookupVal_is_Some; [|by apply Hsup].
    symmetry. by eapply Forall2_length.
Qed.

Lemma marginal_spec reg inFun outFun agg :
  reg_positive reg → wf reg inFun → wf reg outFun →
  vars_i outFun ⊆ vars_i inFun →
  ∃ out',
    Ops.marginal inFun agg outFun = (Ok tt, out') ∧
    vars_i out' = vars_i outFun ∧ size_i out' = size_i outFun ∧
    length (values_i out') = length (values_i outFun) ∧
    ∀ y, tuple_over reg (vars_i outFun) y →
      of_option (values_i out' !! sub2ind (size_i outFun) y) =
      Ops.aggregateCell inFun agg (at_tuple (DomainIterator.make outFun) y).
Proof.
  intros Hreg Hin Hout Hsub.
  unfold Ops.marginal.
  rewrite (proj2 (includes_subset _ _ (wf_sorted _ _ Hin) (wf_sorted _ _ Hout)) Hsub).
  simpl.
  destruct (full_run reg outFun (Ops.marginalCell inFun agg) outFun Hreg Hout)
    as (L & HL & ->).
  destruct (foldM_write (fun _ y => sub2ind (size_i outFun) y)
              (fun y => Ops.aggregateCell inFun agg (at_tuple (DomainIterator.make outFun) y))
              (fun _ _ _ _ _ => eq_refl) L outFun)
    as (r & Hr & Hvars & Hsizes & Hlen & Hwritten & _).
  { intros y Hy. apply HL in Hy. split.
    - by apply (wf_index_bound reg).
    - destruct (aggregateCell_spec reg inFun outFun agg y)
        as (x0 & L' & v0 & vs & _ & _ & _ & -> & _); eauto. }
  { intros x y Hx Hy Hidx. apply HL in Hx, Hy.
    by rewrite (wf_index_inj reg outFun x y). }
  exists r. split.
  - change (foldM _ L outFun) with
      (foldM (fun x r => let* v := Ops.aggregateCell inFun agg
                                     (at_tuple (DomainIterator.make outFun) x) in
                         DiscreteFunction.setAt r (sub2ind (size_i outFun) x) v) L outFun).
    by rewrite Hr.
  - split; [done|]. split; [done|]. split; [done|].
    intros y Hy. apply Hwritten. by apply HL.
Qed.

Lemma horner_surj sizes : ∀ k,
  Forall (fun s => 0 < s) sizes → k < prod_list sizes →
  ∃ y, in_range sizes y ∧ horner sizes y = k.
Proof.
  induction sizes as [|s sizes IH]; intros k Hpos Hk; simpl in Hk.
  - exists []. split; [constructor|simpl; lia].
  - apply Forall_cons in Hpos as [Hs Hpos].
    destruct (IH (k / s) Hpos) as (y & Hy & Hh).
    { apply Nat.Div0.div_lt_upper_bound. lia. }
    exists (k mod s :: y). split.
    + constructor; [|done]. apply Nat.mod_upper_bound. lia.
    + simpl. rewrite Hh. pose proof (Nat.div_mod_eq k s). lia.
Qed.

Lemma sizes_functional (reg : Registry) vars sizes1 sizes2 :
  Forall2 (fun v s => reg !! v = Some s) vars sizes1 →
  Forall2 (fun v s => reg !! v = Some s) vars sizes2 →
  sizes1 = sizes2.
Proof.
  intros H1. revert sizes2. induction H1 as [|v s vars sizes1 Hv _ IH];
    intros sizes2 H2; inversion H2; subst; [done|].
  f_equal; [congruence|auto].
Qed.

(** C10: when the variable list of [out] equals that of [in],
    [marginal(in, aggregate, out)] turns [out] into a cell-by-cell copy of
    [in], whatever the aggregate, because every conditioned inner iteration
    goes through exactly one cell. *)
Theorem C10_marginal_same_domain reg inFun outFun
    (aggregate : ValType → ValType → ValType) :
  reg_positive reg →
  wf reg inFun →
  wf reg outFun →
  vars_i outFun = vars_i inFun →
  ∃ out',
    Ops.marginal inFun aggregate outFun = (Ok tt, out') ∧
    vars_i out' = vars_i outFun ∧
    size_i out' = size_i outFun ∧
    values_i out' = values_i inFun ∧
    ∀ k, k < DiscreteFunction.domainSize inFun →
      ∃ v, DiscreteFunction.at_ out' k = Ok v ∧ DiscreteFunction.at_ inFun k = Ok v.
Proof.
  intros Hreg Hin Hout Heq.
  assert (size_i outFun = size_i inFun) as Hsz.
  { apply (sizes_functional reg (vars_i inFun)); [|by destruct Hin].
    rewrite <- Heq. by destruct Hout. }
  destruct (marginal_spec reg inFun outFun aggregate Hreg Hin Hout)
    as (out' & Hm & Hvars & Hsizes & Hlen & Hcells).
  { by rewrite Heq. }
  assert (length (values_i outFun) = length (values_i inFun)) as Hlen2.
  { destruct Hin as [_ _ ->], Hout as [_ _ ->]. by rewrite Hsz. }
  assert (values_i out' = values_i inFun) as Hvals.
  { apply list_eq. intros k.
    destruct (decide (k < length (values_i inFun))) as [Hk|Hk].
    - destruct (horner_surj (size_i inFun) k) as (y & Hy & Hh).
      { by apply (wf_positive reg). }
      { by destruct Hin as [_ _ <-]. }
      assert (tuple_over reg (vars_i inFun) y) as Hty by (by apply (wf_in_range reg inFun)).
      destruct (aggregateCell_spec reg inFun outFun aggregate y)
        as (x0 & L' & v0 & vs & Hmem & Hc0 & Hvs & Hagg & Hone); try done.
      { by rewrite Heq. } { by rewrite Heq. }
      rewrite Hone in * by (by rewrite Heq).
      inversion Hvs; subst vs. simpl in Hagg.
      assert (x0 = y) as ->.
      { destruct (Hmem x0) as [[Hx0 Hr] _]; [apply elem_of_cons; auto|].
        rewrite Heq in Hr. rewrite restrict_self in Hr; [done| |].
        - apply StronglySorted_lt_NoDup. by destruct Hin.
        - symmetry. by eapply Forall2_length. }
      specialize (Hcells y). rewrite Heq in Hcells. specialize (Hcells Hty).
      rewrite Hagg, Hsz, sub2ind_horner, Hh in Hcells.
      apply of_option_Ok in Hcells. rewrite Hcells.
      rewrite (wf_cell_at reg), sub2ind_horner, Hh in Hc0 by done. done.
    - rewrite !lookup_ge_None_2; [done|lia|lia]. }
  exists out'. split; [done|]. split; [done|]. split; [done|]. split; [done|].
  intros k Hk. unfold DiscreteFunction.at_. rewrite Hvals.
  destruct (lookup_lt_is_Some_2 (values_i inFun) k Hk) as [v ->]. by exists v.
Qed.

Lemma fold_left_max vs : ∀ a m,
  fold_left Z.max vs a = m →
  m ∈ a :: vs ∧ ∀ v, v ∈ a :: vs → (v ≤ m)%Z.
Proof.
  induction vs as [|w vs IH]; intros a m Hm; simpl in Hm.
  - subst. split; [apply elem_of_cons; auto|].
    intros v Hv. apply elem_of_cons in Hv as [->|Hv]; [lia|by apply not_elem_of_nil in Hv].
  - destruct (IH _ _ Hm) as [Hin Hub]. split.
    + apply elem_of_cons in Hin as [->|Hin].
      * destruct (Z.max_spec a w) as [[_ ->]|[_ ->]]; rewrite !elem_of_cons; auto.
      * rewrite !elem_of_cons; auto.
    + intros v Hv. rewrite !elem_of_cons in Hv.
      assert ((Z.max a w ≤ m)%Z) by (apply Hub; apply elem_of_cons; auto).
      destruct Hv as [->|[->|Hv]]; [lia|lia|].
      apply Hub. apply elem_of_cons; auto.
Qed.

(** C2: for a function [f] and an output function [out] whose variables are
    among those of [f], [maxMarginal(f, out)] overwrites [out] so that at
    every tuple [y] over [dom(out)] its value is the maximum of [f(x)] over
    the tuples [x] over [dom(f)] that restrict to [y]; the domains of [f]
    and [out] are unchanged. *)
Theorem C2_maxMarginal reg f out :
  reg_positive reg →
  wf reg f →
  wf reg out →
  vars_i out ⊆ vars_i f →
  ∃ out',
    Ops.maxMarginal f out = (Ok tt, out') ∧
    vars_i out' = vars_i out ∧
    size_i out' = size_i out ∧
    wf reg out' ∧
    ∀ y, tuple_over reg (vars_i out) y →
      ∃ m,
        cell out' y = Some m ∧
        (∃ x, tuple_over reg (vars_i f) x ∧
              restrict (vars_i f) x (vars_i out) = y ∧ cell f x = Some m) ∧
        (∀ x v, tuple_over reg (vars_i f) x →
              restrict (vars_i f) x (vars_i out) = y →
              cell f x = Some v → (v ≤ m)%Z).
Proof.
  intros Hreg Hf Hout Hsub.
  destruct (marginal_spec reg f out Z.max Hreg Hf Hout Hsub)
    as (out' & Hm & Hvars & Hsizes & Hlen & Hcells).
  assert (wf reg out') as Hwf'.
  { destruct Hout as [H1 H2 H3 H4].
    constructor;
      [by rewrite Hvars|by rewrite Hvars, Hsizes|by rewrite Hlen, Hsizes|by rewrite Hlen]. }
  exists out'. split; [done|]. split; [done|]. split; [done|]. split; [done|].
  intros y Hy.
  destruct (aggregateCell_spec reg f out Z.max y)
    as (x0 & L' & v0 & vs & Hmem & Hc0 & Hvs & Hagg & _); try done.
  specialize (Hcells y Hy). rewrite Hagg in Hcells. apply of_option_Ok in Hcells.
  destruct (fold_left_max vs v0 _ eq_refl) as [Hin Hub].
  exists (fold_left Z.max vs v0). split; [|split].
  - rewrite (wf_cell_at reg) by (by rewrite ?Hvars). by rewrite Hsizes.
  - apply elem_of_cons in Hin as [Heq|Hin].
    + exists x0. destruct (Hmem x0) as [[Hx0 Hr0] _]; [apply elem_of_cons; auto|].
      split; [done|]. split; [done|]. by rewrite Heq.
    + apply list_elem_of_lookup_1 in Hin as [i Hi].
      destruct (Forall2_lookup_r _ _ _ _ _ Hvs Hi) as (x & Hx & Hcx).
      destruct (Hmem x) as [[Hx1 Hx2] _].
      { apply elem_of_cons. right. by eapply list_elem_of_lookup_2. }
      exists x. done.
  - intros x v Hx Hr Hcx.
    assert (x ∈ x0 :: L') as Hxin by (by apply Hmem).
    apply Hub. apply elem_of_cons in Hxin as [->|Hxin].
    + apply elem_of_cons. left. congruence.
    + apply elem_of_cons. right.
      apply list_elem_of_lookup_1 in Hxin as [i Hi].
      destruct (Forall2_lookup_l _ _ _ _ _ Hvs Hi) as (v' & Hv' & Hcx').
      assert (v' = v) as -> by congruence.
      by eapply list_elem_of_lookup_2.
Qed.

(** ** Equality of functions *)

Lemma foldM_forallb {X} (val : X → Result bool) (p : X → bool) L : ∀ acc,
  (∀ x, x ∈ L → val x = Ok (p x)) →
  foldM (fun x ok => let* t := val x in Ok (ok && t)) L acc = Ok (acc && forallb p L).
Proof.
  induction L as [|x L IH]; intros acc Hval; simpl.
  - by rewrite andb_true_r.
  - rewrite Hval by (apply elem_of_cons; auto). simpl.
    rewrite IH by (intros y Hy; apply Hval; apply elem_of_cons; auto).
    by rewrite andb_assoc.
Qed.

Lemma domainTable_sorted reg vars :
  StronglySorted lt vars →
  (∀ v, v ∈ vars → is_Some (reg !! v)) →
  ∃ u, Equality.domainTable reg vars = Ok u ∧ layout reg u ∧ vars_i u = vars.
Proof.
  intros Hsorted Hreg.
  destruct (cacheSizes_ok reg (sort vars)) as (sizes & Hc & Hf).
  { intros v Hv. apply Hreg. by apply sort_elem_of. }
  unfold Equality.domainTable. rewrite Hc. simpl.
  rewrite sort_sorted_id in * by done.
  eexists. split; [done|]. split; [|done].
  constructor; simpl; [done|done|by rewrite length_replicate].
Qed.

(** C5: [equalWithinTolerance(f, g, 0)], and with it [operator==(f, g)],
    which is [equalWithinTolerance] with tolerance [0], returns true if and
    only if the broadcasted values of [f] and [g] are equal at every
    coordinate tuple of the union of their domains. *)
Theorem C5_equal_at_zero_tolerance zeroDenominator reg f g :
  reg_positive reg →
  wf reg f →
  wf reg g →
  let union := unique (sort (vars_i f ++ vars_i g)) in
  ∃ b,
    Equality.equalWithinTolerance zeroDenominator reg f g 0 = Ok b ∧
    Equality.eq zeroDenominator reg f g = Ok b ∧
    (b = true ↔
     ∀ x, tuple_over reg union x →
       cell f (restrict union x (vars_i f)) = cell g (restrict union x (vars_i g))).
Proof.
  intros Hreg Hf Hg union.
  destruct (newVar_spec (vars_i f) (vars_i g)) as [Hnew Hmem]. fold union in Hnew, Hmem.
  unfold Equality.eq, Equality.equalWithinTolerance. fold union.
  destruct (domainTable_sorted reg union Hnew) as (u & -> & Hwfu & Hvarsu).
  { intros v Hv. apply Hmem in Hv as [Hv|Hv].
    - destruct Hf as [_ Hs _ _].
      eapply lookupVal_Forall2 in Hs as (s & _ & Hs); [|done]. by eexists.
    - destruct Hg as [_ Hs _ _].
      eapply lookupVal_Forall2 in Hs as (s & _ & Hs); [|done]. by eexists. }
  simpl.
  destruct (full_run reg u
    (fun it ok =>
       let* a := DiscreteFunction.atSuper f (DomainIterator.getVars it)
                   (DomainIterator.getSubInd it) in
       let* b := DiscreteFunction.atSuper g (DomainIterator.getVars it)
                   (DomainIterator.getSubInd it) in
       Ok (ok && Equality.withinTolerance zeroDenominator a b 0)) true Hreg Hwfu)
    as (L & HL & ->).
  rewrite Hvarsu in HL.
  assert (StronglySorted le union) as Hle by (by apply StronglySorted_lt_le).
  set (p := fun x => bool_decide
    (cell f (restrict union x (vars_i f)) = cell g (restrict union x (vars_i g)))).
  exists (forallb p L).
  assert (foldM (fun y => (fun it ok =>
       let* a := DiscreteFunction.atSuper f (DomainIterator.getVars it)
                   (DomainIterator.getSubInd it) in
       let* b := DiscreteFunction.atSuper g (DomainIterator.getVars it)
                   (DomainIterator.getSubInd it) in
       Ok (ok && Equality.withinTolerance zeroDenominator a b 0))
         (at_tuple (DomainIterator.make u) y)) L true = Ok (forallb p L)) as Hrun.
  { rewrite (foldM_ext _
      (fun x ok => let* t :=
         (let* a := DiscreteFunction.atSuper f union x in
          let* b := DiscreteFunction.atSuper g union x in
          Ok (Equality.withinTolerance zeroDenominator a b 0)) in Ok (ok && t))).
    - rewrite (foldM_forallb _ p); [done|].
      intros x Hx. apply HL in Hx.
      destruct (atSuper_cell reg f union x) as (a & -> & Hca); try done.
      { intros v Hv. apply Hmem. auto. }
      destruct (atSuper_cell reg g union x) as (b & -> & Hcb); try done.
      { intros v Hv. apply Hmem. auto. }
      simpl. unfold p, Equality.withinTolerance. rewrite decide_True by done.
      rewrite Hca, Hcb. f_equal. apply bool_decide_ext. split; congruence.
    - intros x ok Hx. unfold at_tuple, DomainIterator.getVars, DomainIterator.getSubInd.
      simpl. rewrite Hvarsu.
      destruct (DiscreteFunction.atSuper f union x); simpl; try done.
      by destruct (DiscreteFunction.atSuper g union x). }
  split; [exact Hrun|]. split; [exact Hrun|].
  rewrite forallb_forall. split.
  - intros H x Hx. apply HL in Hx. apply list_elem_of_In in Hx.
    specialize (H x Hx). unfold p in H. by apply bool_decide_eq_true in H.
  - intros H x Hx. apply list_elem_of_In, HL in Hx.
    unfold p. apply bool_decide_eq_true. by apply H.
Qed.

(** ** The running example *)

Example expand_example :
  Ops.expand example_reg [2] example_f =
  Ok (mkDiscreteFunction [1; 2] [2; 3] [10; 20; 10; 20; 10; 20]%Z).
Proof. by vm_compute. Qed.

Example maxMarginal_example :
  Ops.maxMarginal example_g example_out =
  (Ok tt, mkDiscreteFunction [1] [2] [20; 21]%Z).
Proof. by vm_compute. Qed.

Example condition_example :
  Ops.condition example_reg [2] [1] example_g =
  Ok (mkDiscreteFunction [1] [2] [10; 11]%Z).
Proof. by vm_compute. Qed.

Example marginal_bad_domain_example :
  Ops.marginal example_f Z.max example_g = (Throw BadDomainException, example_g).
Proof. by vm_compute. Qed.

Example sub2ind_example : sub2ind [2; 3; 4] [1; 2; 3] = 23.
Proof. reflexivity. Qed.

Lemma example_reg_positive : reg_positive example_reg.
Proof.
  intros v s Hv. unfold example_reg in Hv.
  apply lookup_insert_Some in Hv as [[_ <-]|[_ Hv]]; [lia|].
  apply lookup_singleton_Some in Hv as [_ <-]. lia.
Defined.

Lemma example_g_wf : wf example_reg example_g.
Proof.
  constructor; simpl.
  - repeat constructor.
  - repeat constructor.
  - reflexivity.
  - by vm_compute.
Defined.

Lemma example_f_wf : wf example_reg example_f.
Proof. constructor; simpl; [repeat constructor..|reflexivity|by vm_compute]. Defined.

Lemma example_out_wf : wf example_reg example_out.
Proof. constructor; simpl; [repeat constructor..|reflexivity|by vm_compute]. Defined.

Lemma example_registered (V : list nat) :
  V ⊆ [1; 2] → ∀ v, v ∈ V → is_Some (example_reg !! v).
Proof.
  intros Hsub v Hv. specialize (Hsub v Hv).
  rewrite !elem_of_cons in Hsub. destruct Hsub as [->|[->|Hnil]].
  - by exists 2.
  - by exists 3.
  - by apply not_elem_of_nil in Hnil.
Defined.

Lemma example_tuple_2_1 : tuple_over example_reg [2] [1].
Proof. repeat constructor. exists 3. split; [reflexivity|lia]. Defined.

Lemma example_tuple_12 : tuple_over example_reg [1; 2] [1; 2].
Proof.
  constructor; [exists 2; split; [reflexivity|lia]|].
  constructor; [exists 3; split; [reflexivity|lia]|constructor].
Defined.

Lemma example_sub_1_12 : [1] ⊆ [1; 2].
Proof. intros v Hv. apply elem_of_cons in Hv as [->|Hv]; [|by inversion Hv]. by left. Defined.

(** ** Instances of the theorems on the running example *)


Lemma C2_maxMarginal_witness :
  reg_positive example_reg ∧ wf example_reg example_g ∧ wf example_reg example_out ∧
  vars_i example_out ⊆ vars_i example_g ∧
  ∃ out',
    Ops.maxMarginal example_g example_out = (Ok tt, out') ∧
    vars_i out' = vars_i example_out ∧
    size_i out' = size_i example_out ∧
    wf example_reg out' ∧
    ∀ y, tuple_over example_reg (vars_i example_out) y →
      ∃ m,
        cell out' y = Some m ∧
        (∃ x, tuple_over example_reg (vars_i example_g) x ∧
              restrict (vars_i example_g) x (vars_i example_out) = y ∧
              cell example_g x = Some m) ∧
        (∀ x v, tuple_over example_reg (vars_i example_g) x →
              restrict (vars_i example_g) x (vars_i example_out) = y →
              cell example_g x = Some v → (v ≤ m)%Z).
Proof.
  split; [exact example_reg_positive|]. split; [exact example_g_wf|].
  split; [exact example_out_wf|]. split; [exact example_sub_1_12|].
  exact (C2_maxMarginal example_reg example_g example_out
           example_reg_positive example_g_wf example_out_wf example_sub_1_12).
Defined.

Lemma C3_condition_witness :
  reg_positive example_reg ∧ wf example_reg example_g ∧ Sorted le [2] ∧
  tuple_over example_reg [2] [1] ∧
  ∃ f',
    Ops.condition example_reg [2] [1] example_g = Ok f' ∧
    wf example_reg f' ∧
    vars_i f' = filter (fun v => v ∉ [2]) (vars_i example_g) ∧
    (∀ v, v ∈ vars_i f' ↔ v ∈ vars_i example_g ∧ v ∉ [2]) ∧
    (∀ y, tuple_over example_reg (vars_i f') y →
       ∃ v, cell f' y = Some v ∧
            cell example_g (extend (vars_i example_g) [2] [1] (vars_i f') y) = Some v) ∧
    ((∀ v, v ∈ [2] → v ∉ vars_i example_g) → f' = example_g).
Proof.
  assert (Sorted le [2]) as Hs by (repeat constructor).
  split; [exact example_reg_positive|]. split; [exact example_g_wf|].
  split; [exact Hs|]. split; [exact example_tuple_2_1|].
  exact (C3_condition example_reg example_g [2] [1]
           example_reg_positive example_g_wf Hs example_tuple_2_1).
Defined.

Lemma C4_supervariable_accessor_witness :
  wf example_reg example_f ∧ Sorted le [1; 2] ∧ vars_i example_f ⊆ [1; 2] ∧
  tuple_over example_reg [1; 2] [1; 2] ∧
  DiscreteFunction.getSuperIndex example_f [1; 2] [1; 2] =
    linear_index (size_i example_f) (restrict [1; 2] [1; 2] (vars_i example_f)) ∧
  ∃ v, DiscreteFunction.atSuper example_f [1; 2] [1; 2] = Ok v ∧
       values_i example_f !!
         linear_index (size_i example_f) (restrict [1; 2] [1; 2] (vars_i example_f))
       = Some v.
Proof.
  assert (Sorted le [1; 2]) as Hs by (repeat constructor).
  split; [exact example_f_wf|]. split; [exact Hs|].
  split; [exact example_sub_1_12|]. split; [exact example_tuple_12|].
  exact (C4_supervariable_accessor example_reg example_f [1; 2] [1; 2]
           example_f_wf Hs example_sub_1_12 example_tuple_12).
Defined.

Lemma C5_equal_at_zero_tolerance_witness :
  reg_positive example_reg ∧ wf example_reg example_f ∧ wf example_reg example_g ∧
  ∃ b,
    Equality.equalWithinTolerance (fun _ _ _ => false) example_reg example_f example_g 0
      = Ok b ∧
    Equality.eq (fun _ _ _ => false) example_reg example_f example_g = Ok b ∧
    (b = true ↔
     ∀ x, tuple_over example_reg (unique (sort (vars_i example_f ++ vars_i example_g))) x →
       cell example_f
         (restrict (unique (sort (vars_i example_f ++ vars_i example_g))) x
            (vars_i example_f)) =
       cell example_g
         (restrict (unique (sort (vars_i example_f ++ vars_i example_g))) x
            (vars_i example_g))).
Proof.
  split; [exact example_reg_positive|]. split; [exact example_f_wf|].
  split; [exact example_g_wf|].
  exact (C5_equal_at_zero_tolerance (fun _ _ _ => false) example_reg example_f example_g
           example_reg_positive example_f_wf example_g_wf).
Defined.

Lemma C7_register_variable_witness :
  (∅ : gmap nat nat) !! 1 = None ∧ 3 ≠ 2 ∧
  ∃ reg1,
    Register.registerVariable 1 2 ∅ = (Ok tt, reg1) ∧
    reg1 !! 1 = Some 2 ∧
    Register.registerVariable 1 2 reg1 = (Ok tt, reg1) ∧
    Register.registerVariable 1 3 reg1 = (Throw InconsistentDomainException, reg1) ∧
    Register.registerVariable_ms 1 3 reg1 = ((-1)%Z, reg1) ∧
    Register.getDomainSize (Register.registerVariable_ms 1 3 reg1).2 1 = Ok 2.
Proof.
  assert ((∅ : gmap nat nat) !! 1 = None) as H1 by reflexivity.
  assert (3 ≠ 2) as H2 by lia.
  split; [exact H1|]. split; [exact H2|].
  exact (C7_register_variable ∅ 1 2 3 H1 H2).
Defined.

Lemma C8_marginal_bad_domain_witness :
  wf example_reg example_f ∧ wf example_reg example_g ∧
  ((Ops.marginal example_f Z.max example_g).1 = Throw BadDomainException
     ↔ ¬ (vars_i example_g ⊆ vars_i example_f)) ∧
  ((Ops.marginal example_f Z.max example_g).1 = Throw BadDomainException →
     (Ops.marginal example_f Z.max example_g).2 = example_g) ∧
  ((Ops.maxMarginal example_f example_g).1 = Throw BadDomainException
     ↔ ¬ (vars_i example_g ⊆ vars_i example_f)) ∧
  ((Ops.minMarginal example_f example_g).1 = Throw BadDomainException
     ↔ ¬ (vars_i example_g ⊆ vars_i example_f)) ∧
  ((Ops.meanMarginal example_f example_g).1 = Throw BadDomainException
     ↔ ¬ (vars_i example_g ⊆ vars_i example_f)) ∧
  ((Ops.meanMarginal example_f example_g).1 = Throw BadDomainException →
     (Ops.meanMarginal example_f example_g).2 = example_g).
Proof.
  split; [exact example_f_wf|]. split; [exact example_g_wf|].
  exact (C8_marginal_bad_domain example_reg example_f Z.max example_g
           example_f_wf example_g_wf).
Defined.

Lemma C9_constructor_witness :
  (∀ v, v ∈ [2; 1] → is_Some (example_reg !! v)) ∧
  fits_int (cellCount example_reg [2; 1]) ∧
  ∃ f, DiscreteFunction.make example_reg [2; 1] 7%Z = Ok f ∧
       Sorted le (vars_i f) ∧
       vars_i f ≡ₚ [2; 1] ∧
       (NoDup [2; 1] → NoDup (vars_i f)) ∧
       Forall2 (fun v s => example_reg !! v = Some s) (vars_i f) (size_i f) ∧
       length (values_i f) = prod_list (size_i f) ∧
       (∀ k, k < prod_list (size_i f) → values_i f !! k = Some 7%Z).
Proof.
  assert (∀ v, v ∈ [2; 1] → is_Some (example_reg !! v)) as Hreg.
  { apply example_registered. intros v Hv.
    rewrite !elem_of_cons in Hv. rewrite !elem_of_cons. tauto. }
  assert (fits_int (cellCount example_reg [2; 1])) as Hfit by (by vm_compute).
  split; [exact Hreg|]. split; [exact Hfit|].
  exact (C9_constructor example_reg [2; 1] 7%Z Hreg Hfit).
Defined.

Lemma C10_marginal_same_domain_witness :
  reg_positive example_reg ∧ wf example_reg example_f ∧ wf example_reg example_out ∧
  vars_i example_out = vars_i example_f ∧
  ∃ out',
    Ops.marginal example_f Z.add example_out = (Ok tt, out') ∧
    vars_i out' = vars_i example_out ∧
    size_i out' = size_i example_out ∧
    values_i out' = values_i example_f ∧
    ∀ k, k < DiscreteFunction.domainSize example_f →
      ∃ v, DiscreteFunction.at_ out' k = Ok v ∧ DiscreteFunction.at_ example_f k = Ok v.
Proof.
  split; [exact example_reg_positive|]. split; [exact example_f_wf|].
  split; [exact example_out_wf|]. split; [reflexivity|].
  exact (C10_marginal_same_domain example_reg example_f example_out Z.add
           example_reg_positive example_f_wf example_out_wf eq_refl).
Defined.

(** * Further properties *)

(** ** The order and multiplicity of a run *)

Lemma tuples_NoDup sizes : ∀ fixed sub, NoDup (tuples sizes fixed sub).
Proof.
  induction sizes as [|s sizes IH]; intros fixed sub.
  - simpl. apply NoDup_singleton.
  - destruct fixed as [|fx fixed]; [apply NoDup_singleton|].
    destruct sub as [|a sub]; [apply NoDup_singleton|].
    simpl. destruct fx.
    + apply NoDup_fmap_2_strong; [|apply IH]. by intros x y _ _ [= ->].
    + apply NoDup_bind; [| |apply IH].
      * intros t1 t2 x _ _ H1 H2.
        apply list_elem_of_fmap in H1 as (b1 & -> & _).
        apply list_elem_of_fmap in H2 as (b2 & [= _ ->] & _). done.
      * intros t _. apply NoDup_fmap_2_strong; [|apply NoDup_seq].
        by intros x y _ _ [= ->].
Qed.

Lemma horner_bind_order s sizes L : ∀ a n,
  horner sizes <$> L = seq a n →
  horner (s :: sizes) <$> (t ← L; (fun b => b :: t) <$> seq 0 s) = seq (s * a) (s * n).
Proof.
  induction L as [|t L IH]; intros a n Hmap.
  - destruct n; [|done]. by rewrite Nat.mul_0_r.
  - destruct n as [|n]; [done|]. simpl in Hmap. injection Hmap as Ht HL.
    rewrite bind_cons, fmap_app, (IH (S a) n HL).
    replace (s * S n) with (s + s * n) by lia. rewrite seq_app. f_equal.
    + rewrite <- list_fmap_compose.
      replace (seq (s * a) s) with (Nat.add (s * a) <$> seq 0 s)
        by (rewrite fmap_add_seq; f_equal; lia).
      apply list_fmap_ext. intros i b _. simpl. rewrite Ht. lia.
    + f_equal. lia.
Qed.

Lemma horner_tuples_order sizes : ∀ sub,
  length sub = length sizes →
  horner sizes <$> tuples sizes (replicate (length sizes) false) sub
  = seq 0 (prod_list sizes).
Proof.
  induction sizes as [|s sizes IH]; intros [|a sub] Hlen; simpl in Hlen; try done.
  change (tuples (s :: sizes) (replicate (length (s :: sizes)) false) (a :: sub))
    with (t ← tuples sizes (replicate (length sizes) false) sub;
          (fun b => b :: t) <$> seq 0 s).
  rewrite (horner_bind_order s sizes _ 0 (prod_list sizes)) by (apply IH; lia).
  by rewrite Nat.mul_0_r.
Qed.

(** ** marginal with any aggregate *)

Lemma aggregateCell_run reg inFun outFun (agg : ValType → ValType → ValType) y :
  reg_positive reg → wf reg inFun → tuple_over reg (vars_i outFun) y →
  ∃ x0 L' v0 vs,
    tuples (size_i inFun) (pinned_fixed (vars_i outFun) y (vars_i inFun))
      (pinned_sub (vars_i outFun) y (vars_i inFun)) = x0 :: L' ∧
    Forall2 (fun x v => values_i inFun !! sub2ind (size_i inFun) x = Some v)
      (x0 :: L') (v0 :: vs) ∧
    Ops.aggregateCell inFun agg (at_tuple (DomainIterator.make outFun) y)
      = Ok (fold_left agg vs v0).
Proof.
  intros Hreg Hin Hy.
  destruct (run_facts reg inFun (vars_i outFun) y Hreg Hin Hy) as (Hv & HL & Hmem).
  unfold Ops.aggregateCell, DomainIterator.conditionOn.
  change (DomainIterator.getVars (at_tuple (DomainIterator.make outFun) y))
    with (vars_i outFun).
  change (DomainIterator.getSubInd (at_tuple (DomainIterator.make outFun) y)) with y.
  rewrite condition_make in *. simpl in Hv, HL, Hmem.
  set (fixed := pinned_fixed (vars_i outFun) y (vars_i inFun)) in *.
  set (x0 := pinned_sub (vars_i outFun) y (vars_i inFun)) in *.
  set (L := tuples (size_i inFun) fixed x0) in *.
  assert (∃ L', L = x0 :: L') as [L' HLeq] by (inversion Hv; eauto).
  rewrite HLeq in *.
  assert (∀ x, x ∈ x0 :: L' → ∃ v,
            values_i inFun !! sub2ind (size_i inFun) x = Some v) as Hcells.
  { intros x Hx. apply Hmem in Hx as [Hx _].
    apply (wf_lookup reg); [done|]. by apply (wf_in_range reg inFun). }
  destruct (Hcells x0) as (v0 & Hc0); [apply elem_of_cons; auto|].
  destruct (foldM_aggregate
    (fun x => DiscreteFunction.at_ inFun (sub2ind (size_i inFun) x)) agg L' v0)
    as (vs & Hvs & Hfold).
  { intros x Hx. destruct (Hcells x) as (v & Hv'); [apply elem_of_cons; auto|].
    exists v. unfold DiscreteFunction.at_. by rewrite Hv'. }
  exists x0, L', v0, vs. split; [done|]. split.
  - constructor; [done|].
    eapply Forall2_impl; [exact Hvs|]. intros x v Hxv.
    by apply of_option_Ok.
  - unfold DomainIterator.getInd at 1. simpl it_sizes. simpl it_sub.
    unfold DiscreteFunction.at_ at 1. rewrite Hc0. simpl.
    rewrite (forEach_advance _ _ _ _ L') by (simpl in HL; done || lia).
    exact Hfold.
Qed.

(** One round of the loop of [marginal]: the tuples it folds, without
    repetition, and their cells. *)
Lemma aggregateCell_lists reg inFun outFun (agg : ValType → ValType → ValType) y :
  reg_positive reg → wf reg inFun → wf reg outFun →
  vars_i outFun ⊆ vars_i inFun →
  tuple_over reg (vars_i outFun) y →
  ∃ x0 L' v0 vs,
    NoDup (x0 :: L') ∧
    (∀ x, x ∈ x0 :: L' ↔
       tuple_over reg (vars_i inFun) x ∧
       restrict (vars_i inFun) x (vars_i outFun) = y) ∧
    Forall2 (fun x v => cell inFun x = Some v) (x0 :: L') (v0 :: vs) ∧
    Ops.aggregateCell inFun agg (at_tuple (DomainIterator.make outFun) y)
      = Ok (fold_left agg vs v0).
Proof.
  intros Hreg Hin Hout Hsub Hy.
  destruct (aggregateCell_run reg inFun outFun agg y Hreg Hin Hy)
    as (x0 & L' & v0 & vs & HL & Hvals & Hagg).
  destruct (run_facts reg inFun (vars_i outFun) y Hreg Hin Hy) as (_ & _ & Hmem).
  rewrite condition_make in Hmem. simpl in Hmem. rewrite HL in Hmem.
  assert (∀ x, x ∈ x0 :: L' ↔
            tuple_over reg (vars_i inFun) x ∧
            restrict (vars_i inFun) x (vars_i outFun) = y) as Hmem'.
  { intros x. rewrite Hmem. apply agrees_restrict; [|done|done].
    apply StronglySorted_lt_NoDup. by destruct Hout. }
  exists x0, L', v0, vs. split; [|split; [done|split; [|done]]].
  - rewrite <- HL. apply tuples_NoDup.
  - apply Forall2_same_length_lookup_2; [by eapply Forall2_length|].
    intros i x v Hx Hv.
    rewrite (wf_cell_at reg); [|done|].
    + by apply (Forall2_lookup_lr _ _ _ i x v Hvals).
    + apply Hmem'. by eapply list_elem_of_lookup_2.
Qed.

Lemma marginal_out_wf reg outFun out' :
  wf reg outFun → vars_i out' = vars_i outFun → size_i out' = size_i outFun →
  length (values_i out') = length (values_i outFun) → wf reg out'.
Proof.
  intros [H1 H2 H3] Hvars Hsizes Hlen.
  constructor;
      [by rewrite Hvars|by rewrite Hvars, Hsizes|by rewrite Hlen, Hsizes|by rewrite Hlen].
Qed.

(** [marginal] with any aggregate returns normally on a subset domain, keeps
    the domain of [out], and leaves in every cell [y] of [out] the left fold
    of the aggregate over the cells of [in] at the tuples that restrict to
    [y], each of them folded exactly once. *)
Theorem marginal_folds_each_cell_once reg inFun outFun
    (aggregate : ValType → ValType → ValType) :
  reg_positive reg →
  wf reg inFun →
  wf reg outFun →
  vars_i outFun ⊆ vars_i inFun →
  ∃ out',
    Ops.marginal inFun aggregate outFun = (Ok tt, out') ∧
    vars_i out' = vars_i outFun ∧
    size_i out' = size_i outFun ∧
    ∀ y, tuple_over reg (vars_i outFun) y →
      ∃ x0 L' v0 vs,
        NoDup (x0 :: L') ∧
        (∀ x, x ∈ x0 :: L' ↔
           tuple_over reg (vars_i inFun) x ∧
           restrict (vars_i inFun) x (vars_i outFun) = y) ∧
        Forall2 (fun x v => cell inFun x = Some v) (x0 :: L') (v0 :: vs) ∧
        cell out' y = Some (fold_left aggregate vs v0).
Proof.
  intros Hreg Hin Hout Hsub.
  destruct (marginal_spec reg inFun outFun aggregate Hreg Hin Hout Hsub)
    as (out' & Hm & Hvars & Hsizes & Hlen & Hcells).
  exists out'. split; [done|]. split; [done|]. split; [done|].
  intros y Hy.
  destruct (aggregateCell_lists reg inFun outFun aggregate y Hreg Hin Hout Hsub Hy)
    as (x0 & L' & v0 & vs & Hnd & Hmem & Hvals & Hagg).
  exists x0, L', v0, vs. split; [done|]. split; [done|]. split; [done|].
  specialize (Hcells y Hy). rewrite Hagg in Hcells. apply of_option_Ok in Hcells.
  rewrite (wf_cell_at reg).
  - by rewrite Hsizes.
  - by apply (marginal_out_wf reg outFun).
  - by rewrite Hvars.
Qed.

Lemma fold_left_min vs : ∀ a m,
  fold_left Z.min vs a = m →
  m ∈ a :: vs ∧ ∀ v, v ∈ a :: vs → (m ≤ v)%Z.
Proof.
  induction vs as [|w vs IH]; intros a m Hm; simpl in Hm.
  - subst. split; [apply elem_of_cons; auto|].
    intros v Hv. apply elem_of_cons in Hv as [->|Hv]; [lia|by apply not_elem_of_nil in Hv].
  - destruct (IH _ _ Hm) as [Hin Hlb]. split.
    + apply elem_of_cons in Hin as [->|Hin].
      * destruct (Z.min_spec a w) as [[_ ->]|[_ ->]]; rewrite !elem_of_cons; auto.
      * rewrite !elem_of_cons; auto.
    + intros v Hv. rewrite !elem_of_cons in Hv.
      assert ((m ≤ Z.min a w)%Z) by (apply Hlb; apply elem_of_cons; auto).
      destruct Hv as [->|[->|Hv]]; [lia|lia|].
      apply Hlb. apply elem_of_cons; auto.
Qed.

(** The cells of [in] at the tuples that restrict to [y], as [marginal]
    folds them. *)
Lemma marginal_cells reg inFun outFun (agg : ValType → ValType → ValType) :
  reg_positive reg → wf reg inFun → wf reg outFun →
  vars_i outFun ⊆ vars_i inFun →
  ∃ out',
    Ops.marginal inFun agg outFun = (Ok tt, out') ∧
    vars_i out' = vars_i outFun ∧ size_i out' = size_i outFun ∧
    ∀ y, tuple_over reg (vars_i outFun) y →
      ∃ v0 vs,
        cell out' y = Some (fold_left agg vs v0) ∧
        (∀ v, v ∈ v0 :: vs ↔
           ∃ x, tuple_over reg (vars_i inFun) x ∧
                restrict (vars_i inFun) x (vars_i outFun) = y ∧
                cell inFun x = Some v).
Proof.
  intros Hreg Hin Hout Hsub.
  destruct (marginal_spec reg inFun outFun agg Hreg Hin Hout Hsub)
    as (out' & Hm & Hvars & Hsizes & Hlen & Hcells).
  exists out'. split; [done|]. split; [done|]. split; [done|].
  intros y Hy.
  destruct (aggregateCell_lists reg inFun outFun agg y Hreg Hin Hout Hsub Hy)
    as (x0 & L' & v0 & vs & _ & Hmem & Hvals & Hagg).
  exists v0, vs. split.
  { specialize (Hcells y Hy). rewrite Hagg in Hcells. apply of_option_Ok in Hcells.
    rewrite (wf_cell_at reg); [by rewrite Hsizes| |by rewrite Hvars].
    by apply (marginal_out_wf reg outFun). }
  intros v. split.
  - intros Hv. apply list_elem_of_lookup_1 in Hv as [i Hi].
    destruct (Forall2_lookup_r _ _ _ _ _ Hvals Hi) as (x & Hx & Hcx).
    exists x. apply list_elem_of_lookup_2 in Hx. apply Hmem in Hx as [? ?]. done.
  - intros (x & Hx & Hr & Hcx).
    assert (x ∈ x0 :: L') as Hin' by (by apply Hmem).
    apply list_elem_of_lookup_1 in Hin' as [i Hi].
    destruct (Forall2_lookup_l _ _ _ _ _ Hvals Hi) as (v' & Hv' & Hcx').
    assert (v' = v) as -> by congruence. by eapply list_elem_of_lookup_2.
Qed.

(** [minMarginal(f, out)] overwrites [out] so that at every tuple [y] over
    [dom(out)] its value is the minimum of [f(x)] over the tuples [x] over
    [dom(f)] that restrict to [y]; the domain of [out] is unchanged. *)
Theorem minMarginal_minimum reg f out :
  reg_positive reg →
  wf reg f →
  wf reg out →
  vars_i out ⊆ vars_i f →
  ∃ out',
    Ops.minMarginal f out = (Ok tt, out') ∧
    vars_i out' = vars_i out ∧
    size_i out' = size_i out ∧
    ∀ y, tuple_over reg (vars_i out) y →
      ∃ m,
        cell out' y = Some m ∧
        (∃ x, tuple_over reg (vars_i f) x ∧
              restrict (vars_i f) x (vars_i out) = y ∧ cell f x = Some m) ∧
        (∀ x v, tuple_over reg (vars_i f) x →
              restrict (vars_i f) x (vars_i out) = y →
              cell f x = Some v → (m ≤ v)%Z).
Proof.
  intros Hreg Hf Hout Hsub.
  destruct (marginal_cells reg f out Z.min Hreg Hf Hout Hsub)
    as (out' & Hm & Hvars & Hsizes & Hcells).
  exists out'. split; [done|]. split; [done|]. split; [done|].
  intros y Hy. destruct (Hcells y Hy) as (v0 & vs & Hc & Hmem).
  destruct (fold_left_min vs v0 _ eq_refl) as [Hin Hlb].
  exists (fold_left Z.min vs v0). split; [done|]. split.
  - by apply Hmem.
  - intros x v Hx Hr Hcx. apply Hlb. apply Hmem. eauto.
Qed.

(** At every tuple of [out], what [minMarginal] leaves is at most what
    [maxMarginal] leaves. *)
Theorem minMarginal_le_maxMarginal reg f out :
  reg_positive reg →
  wf reg f →
  wf reg out →
  vars_i out ⊆ vars_i f →
  ∃ lo hi,
    Ops.minMarginal f out = (Ok tt, lo) ∧
    Ops.maxMarginal f out = (Ok tt, hi) ∧
    ∀ y, tuple_over reg (vars_i out) y →
      ∃ a b, cell lo y = Some a ∧ cell hi y = Some b ∧ (a ≤ b)%Z.
Proof.
  intros Hreg Hf Hout Hsub.
  destruct (marginal_cells reg f out Z.min Hreg Hf Hout Hsub)
    as (lo & Hlo & _ & _ & Hclo).
  destruct (marginal_cells reg f out Z.max Hreg Hf Hout Hsub)
    as (hi & Hhi & _ & _ & Hchi).
  exists lo, hi. split; [done|]. split; [done|].
  intros y Hy.
  destruct (Hclo y Hy) as (v0 & vs & Hc1 & Hm1).
  destruct (Hchi y Hy) as (w0 & ws & Hc2 & Hm2).
  exists (fold_left Z.min vs v0), (fold_left Z.max ws w0).
  split; [done|]. split; [done|].
  destruct (fold_left_min vs v0 _ eq_refl) as [_ Hlb].
  destruct (fold_left_max ws w0 _ eq_refl) as [_ Hub].
  assert (v0 ∈ v0 :: vs) as Hv0 by (apply elem_of_cons; auto).
  assert (v0 ∈ w0 :: ws) as Hw0 by (by apply Hm2, Hm1).
  specialize (Hlb v0 Hv0). specialize (Hub v0 Hw0). lia.
Qed.

(** Marginalising onto a function of no variables reduces the whole value
    array of [in], in storage order, with the aggregate: the single cell of
    [out] becomes [aggregate(... aggregate(aggregate(v0, v1), v2) ..., vn)]. *)
Theorem marginal_onto_constant reg inFun outFun
    (aggregate : ValType → ValType → ValType) :
  reg_positive reg →
  wf reg inFun →
  wf reg outFun →
  vars_i outFun = [] →
  ∃ v0 vs,
    values_i inFun = v0 :: vs ∧
    Ops.marginal inFun aggregate outFun =
      (Ok tt, mkDiscreteFunction [] [] [fold_left aggregate vs v0]).
Proof.
  intros Hreg Hin Hout Hnil.
  assert (size_i outFun = []) as Hsz.
  { destruct Hout as [_ Hs _]. rewrite Hnil in Hs. by inversion Hs. }
  destruct (marginal_spec reg inFun outFun aggregate Hreg Hin Hout)
    as (out' & Hm & Hvars & Hsizes & Hlen & Hcells).
  { rewrite Hnil. intros v Hv. by apply not_elem_of_nil in Hv. }
  assert (tuple_over reg (vars_i outFun) []) as Hy by (rewrite Hnil; constructor).
  destruct (aggregateCell_run reg inFun outFun aggregate [] Hreg Hin Hy)
    as (x0 & L' & v0 & vs & HL & Hvals & Hagg).
  specialize (Hcells [] Hy). rewrite Hagg, Hsz in Hcells.
  apply of_option_Ok in Hcells. change (sub2ind [] []) with 0 in Hcells.
  assert (length (values_i out') = 1) as Hlen1.
  { rewrite Hlen. destruct Hout as [_ _ ->]. by rewrite Hsz. }
  exists v0, vs. split.
  - rewrite Hnil, pinned_sub_nil, pinned_fixed_nil in HL.
    pose proof (Forall2_length _ _ _ (wf_sizes _ _ Hin)) as Hls.
    rewrite Hls in HL.
    pose proof (horner_tuples_order (size_i inFun)
                  (replicate (length (size_i inFun)) 0)) as Hord.
    rewrite length_replicate in Hord. specialize (Hord eq_refl).
    rewrite HL in Hord.
    pose proof (Forall2_length _ _ _ Hvals) as Hl2.
    assert (length (x0 :: L') = prod_list (size_i inFun)) as Hl1.
    { rewrite <- (length_fmap (horner (size_i inFun))), Hord. apply length_seq. }
    apply list_eq_same_length with (n := length (v0 :: vs)); [done| |].
    { destruct Hin as [_ _ ->]. by rewrite <- Hl1. }
    intros i a b Hi Ha Hb.
    destruct (Forall2_lookup_r _ _ _ _ _ Hvals Hb) as (x & Hx & Hxv).
    assert (horner (size_i inFun) x = i) as Hh.
    { assert ((horner (size_i inFun) <$> x0 :: L') !! i = Some (horner (size_i inFun) x))
        as Hmap by (by rewrite list_lookup_fmap, Hx).
      rewrite Hord in Hmap. apply lookup_seq in Hmap as [-> _]. done. }
    rewrite sub2ind_horner, Hh in Hxv. congruence.
  - rewrite Hm. f_equal. destruct out' as [vs' ss' vals']. simpl in *.
    rewrite Hvars, Hsizes, Hnil, Hsz. f_equal.
    destruct vals' as [|a [|b vals']]; simpl in Hlen1; try done.
    simpl in Hcells. by injection Hcells as ->.
Qed.

(** ** expand and condition, for reuse *)

(** What [expand] leaves, for the properties below. *)
Lemma expand_facts reg f V :
  reg_positive reg →
  wf reg f →
  (∀ v, v ∈ V → is_Some (reg !! v)) →
  fits_int (cellCount reg (unique (sort (vars_i f ++ V)))) →
  ∃ f',
    Ops.expand reg V f = Ok f' ∧
    wf reg f' ∧
    vars_i f' = unique (sort (vars_i f ++ V)) ∧
    StronglySorted lt (vars_i f') ∧
    (∀ v, v ∈ vars_i f' ↔ v ∈ vars_i f ∨ v ∈ V) ∧
    ∀ x, tuple_over reg (vars_i f') x →
      ∃ v, cell f' x = Some v ∧ cell f (restrict (vars_i f') x (vars_i f)) = Some v.
Proof.
  intros Hreg Hwf HV Hfit.
  destruct (newVar_spec (vars_i f) V) as [Hnew Hmem].
  unfold Ops.expand.
  set (newVar := unique (sort (vars_i f ++ V))) in *.
  destruct (decide (length newVar ≤ length (vars_i f))) as [Hle|Hgt].
  - pose proof (expand_subset reg f V Hwf Hle) as Heq. fold newVar in Heq.
    exists f. split; [done|]. split; [done|]. split; [done|].
    split; [by destruct Hwf|].
    split; [intros v; rewrite <- Heq at 1; apply Hmem|].
    intros x Hx.
    rewrite restrict_self.
    + assert (is_Some (cell f x)) as [v Hv]; [|by exists v].
      rewrite (wf_cell_at reg) by done.
      apply lookup_lt_is_Some_2. by apply (wf_index_bound reg).
    + apply StronglySorted_lt_NoDup. by destruct Hwf.
    + symmetry. by eapply Forall2_length.
  - destruct (make_sorted reg newVar 0%Z Hnew) as (r0 & -> & Hwf0 & Hvars0 & Hvals0).
    { intros v Hv. apply Hmem in Hv as [Hv|Hv]; [|by apply HV].
      destruct Hwf as [_ Hsizes _ _].
      eapply lookupVal_Forall2 in Hsizes as (s & _ & Hs); [|done]. by eexists. }
    { done. }
    simpl. rewrite <- (wf_values _ _ Hwf0).
    change (length (values_i r0)) with (DiscreteFunction.domainSize r0).
    destruct (full_run reg r0
      (fun k r => let* v := DiscreteFunction.atSuper f newVar (DomainIterator.getSubInd k) in
                  DiscreteFunction.setAt r (DomainIterator.getInd k) v) r0 Hreg Hwf0)
      as (L & HL & ->).
    rewrite Hvars0 in HL.
    assert (StronglySorted le newVar) as Hle by (by apply StronglySorted_lt_le).
    assert (vars_i f ⊆ newVar) as Hsub by (intros v Hv; apply Hmem; auto).
    destruct (foldM_write (fun _ y => sub2ind (size_i r0) y)
                (fun y => DiscreteFunction.atSuper f newVar y)
                (fun _ _ _ _ _ => eq_refl) L r0)
      as (r & Hr & Hvars & Hsizes & Hlen & Hwritten & _).
    { intros x Hx. apply HL in Hx. split.
      - apply (wf_index_bound reg); [done|]. by rewrite Hvars0.
      - destruct (atSuper_cell reg f newVar x) as (v & Hv & _); eauto. }
    { intros x y Hx Hy Hidx. apply HL in Hx, Hy.
      rewrite (wf_index_inj reg r0 x y); try done; by rewrite Hvars0. }
    exists r. split; [exact Hr|].
    assert (wf reg r) as Hwfr.
    { destruct Hwf0 as [H1 H2 H3 H4].
      constructor; [by rewrite Hvars|by rewrite Hvars, Hsizes| |by rewrite Hlen].
      by rewrite Hlen, Hsizes. }
    split; [done|]. rewrite Hvars, Hvars0.
    split; [done|]. split; [done|]. split; [done|].
    intros x Hx.
    destruct (atSuper_cell reg f newVar x) as (v & Hv & Hcell); try done.
    exists v. split; [|done].
    rewrite (wf_cell_at reg) by (by rewrite ?Hvars, ?Hvars0).
    specialize (Hwritten x (proj2 (HL x) Hx)). rewrite Hv, Hsizes in *.
    by apply of_option_Ok.
Qed.

(** What [condition] leaves, for the properties below. *)
Lemma condition_facts reg f V vals :
  reg_positive reg →
  wf reg f →
  Sorted le V →
  tuple_over reg V vals →
  ∃ f',
    Ops.condition reg V vals f = Ok f' ∧
    wf reg f' ∧
    vars_i f' = filter (fun v => v ∉ V) (vars_i f) ∧
    (∀ v, v ∈ vars_i f' ↔ v ∈ vars_i f ∧ v ∉ V) ∧
    (∀ y, tuple_over reg (vars_i f') y →
       ∃ v, cell f' y = Some v ∧
            cell f (extend (vars_i f) V vals (vars_i f') y) = Some v) ∧
    ((∀ v, v ∈ V → v ∉ vars_i f) → f' = f).
Proof.
  intros Hreg Hwf _ Hpin.
  pose proof Hwf as [Hsorted Hsizes Hvalues Hfits].
  pose proof (StronglySorted_lt_NoDup _ Hsorted) as Hnd.
  set (free := filter (fun v => v ∉ V) (vars_i f)).
  assert (∀ v, v ∈ free ↔ v ∈ vars_i f ∧ v ∉ V) as Hfree.
  { intros v. unfold free. rewrite list_elem_of_filter. tauto. }
  assert (∀ y, tuple_over reg (vars_i f) y →
            ∃ v, cell f y = Some v) as Hcellf.
  { intros y Hy. apply lookup_lt_is_Some_2. rewrite linear_index_sub2ind.
    - by apply (wf_index_bound reg).
    - by apply (wf_in_range reg f). }
  unfold Ops.condition.
  destruct (decide (0 = _)) as [Hzero|Hnz].
  - rewrite fixedCount_condition in Hzero.
    assert (free = vars_i f) as Hall.
    { apply filter_all. intros w Hw.
      apply (lookupVal_None_iff reg V vals w Hpin). auto. }
    exists f. split; [done|]. split; [done|]. fold free.
    split; [done|]. rewrite Hall in Hfree. split; [done|]. split; [|done].
    intros y Hy.
    assert (extend (vars_i f) V vals (vars_i f) y = y) as ->.
    { rewrite <- (restrict_self (vars_i f) y Hnd) at 2
        by (symmetry; by eapply Forall2_length).
      unfold extend, restrict. apply list_fmap_ext. intros i w Hw.
      apply list_elem_of_lookup_2 in Hw. by rewrite Hzero. }
    destruct (Hcellf y Hy) as [v Hv]. eauto.
  - rewrite (freeVars_spec reg V vals f Hpin). fold free.
    assert (StronglySorted lt free) as Hfs by (by apply StronglySorted_filter_lt).
    destruct (make_sorted reg free 0%Z Hfs) as (r0 & -> & Hwf0 & Hvars0 & _).
    { intros v Hv. apply Hfree in Hv as [Hv _].
      eapply lookupVal_Forall2 in Hsizes as (s & _ & Hs); [|done]. by eexists. }
    { by apply wf_filter_fits. }
    simpl.
    set (body := fun (k : DomainIterator) (r : DiscreteFunction) =>
      let* v := DiscreteFunction.at_ f (DomainIterator.getInd k) in
      DiscreteFunction.setAtSuper r (DomainIterator.getVars k)
        (DomainIterator.getSubInd k) v).
    destruct (conditioned_run reg f V vals body r0 Hreg Hwf Hpin)
      as (L & HL & ->).
    assert (StronglySorted le (vars_i f)) as Hle by (by apply StronglySorted_lt_le).
    assert (free ⊆ vars_i f) as Hsub by (intros v Hv; by apply Hfree in Hv as [? _]).
    assert (∀ w, w ∈ vars_i f → lookupVal V vals w = None → w ∈ free) as Hnone.
    { intros w Hw Hl. apply Hfree. split; [done|].
      by apply (lookupVal_None_iff reg V vals w Hpin). }
    assert (∀ x, agrees reg V vals (vars_i f) x →
              DiscreteFunction.getSuperIndex r0 (vars_i f) x =
                sub2ind (size_i r0) (restrict (vars_i f) x free) ∧
              in_range (size_i r0) (restrict (vars_i f) x free)) as Hidx.
    { intros x [Hx _]. rewrite <- Hvars0.
      apply (getSuperIndex_sub2ind reg); try done. by rewrite Hvars0. }
    destruct (foldM_write (fun r y => DiscreteFunction.getSuperIndex r (vars_i f) y)
                (fun y => DiscreteFunction.at_ f (sub2ind (size_i f) y)) ) with (L := L) (r0 := r0)
      as (r & Hr & Hvars & Hsz & Hlen & Hwritten & _).
    { intros r1 r2 x H1 H2. unfold DiscreteFunction.getSuperIndex. by rewrite H1, H2. }
    { intros x Hx. apply HL in Hx. destruct (Hidx x Hx) as [-> Hin]. split.
      - destruct Hwf0 as [_ _ -> _]. rewrite sub2ind_horner. by apply horner_bound.
      - destruct Hx as [Hx _]. apply (wf_in_range reg f x Hwf) in Hx.
        destruct (wf_lookup reg f x Hwf Hx) as [v Hv].
        exists v. unfold DiscreteFunction.at_. by rewrite Hv. }
    { intros x y Hx Hy Heq. apply HL in Hx, Hy.
      destruct (Hidx x Hx) as [Hix Hrx]. destruct (Hidx y Hy) as [Hiy Hry].
      rewrite Hix, Hiy, !sub2ind_horner in Heq.
      apply horner_inj in Heq; [|done|done].
      by rewrite (agrees_restrict_inj reg (vars_i f) V vals free x y). }
    exists r. split; [exact Hr|].
    assert (wf reg r) as Hwfr.
    { destruct Hwf0 as [H1 H2 H3 H4].
      constructor; [by rewrite Hvars|by rewrite Hvars, Hsz| |by rewrite Hlen].
      by rewrite Hlen, Hsz. }
    split; [done|]. rewrite Hvars, Hvars0.
    split; [done|]. split; [done|]. split.
    + intros y Hy.
      set (x := extend (vars_i f) V vals free y).
      assert (agrees reg V vals (vars_i f) x) as Hx by (by apply extend_agrees).
      assert (restrict (vars_i f) x free = y) as Hrx.
      { apply restrict_extend; [by apply StronglySorted_lt_NoDup| |done|].
        - symmetry. by eapply Forall2_length.
        - intros w Hw. apply (lookupVal_None_iff reg V vals w Hpin). by apply Hfree. }
      specialize (Hwritten x (proj2 (HL x) Hx)).
      destruct (Hidx x Hx) as [Hix _]. rewrite Hix, Hrx in Hwritten.
      destruct (Hcellf x (proj1 Hx)) as [v Hv]. exists v. split; [|done].
      rewrite (wf_cell_at reg) by (by rewrite ?Hvars, ?Hvars0).
      rewrite Hsz. apply of_option_Ok. rewrite Hwritten.
      unfold DiscreteFunction.at_. rewrite <- (wf_cell_at reg) by (done || apply Hx).
      by rewrite Hv.
    + intros Hdisj. exfalso. apply Hnz. apply fixedCount_condition.
      intros w Hw. apply (lookupVal_None_iff reg V vals w Hpin).
      intros HwV. by apply (Hdisj w).
Qed.

(** ** Constructors *)

Lemma cacheSizes_throw reg vars v :
  v ∈ vars → reg !! v = None →
  DiscreteFunction.cacheSizes reg vars = Throw UnknownVariableException.
Proof.
  induction vars as [|w vars IH]; intros Hv Hnone; [by apply not_elem_of_nil in Hv|].
  simpl. unfold Register.getDomainSize.
  destruct (reg !! w) as [s|] eqn:Hw; [|done]. simpl.
  apply elem_of_cons in Hv as [->|Hv]; [congruence|].
  by rewrite IH.
Qed.

(** The list constructor returns a function exactly when every listed
    variable is registered and the cell count it accumulates in [int] is not
    negative, and throws the unknown-variable exception exactly when some
    listed variable is not registered. *)
Theorem constructor_unknown_variable (reg : Registry) (vars : list VarID) (val : ValType) :
  ((∃ f, DiscreteFunction.make reg vars val = Ok f)
     ↔ (∀ v, v ∈ vars → is_Some (reg !! v)) ∧
       (0 ≤ DiscreteFunction.totalSize (domainSizes reg (sort vars)))%Z) ∧
  ((∃ v, v ∈ vars ∧ reg !! v = None)
     ↔ DiscreteFunction.make reg vars val = Throw UnknownVariableException).
Proof.
  assert ((∃ v, v ∈ vars ∧ reg !! v = None) →
          DiscreteFunction.make reg vars val = Throw UnknownVariableException) as Hthrow.
  { intros (v & Hv & Hnone). unfold DiscreteFunction.make.
    rewrite (cacheSizes_throw reg (sort vars) v); [done| |done].
    by apply sort_elem_of. }
  assert ((∀ v, v ∈ vars → is_Some (reg !! v)) →
          ((∃ f, DiscreteFunction.make reg vars val = Ok f) ↔
           (0 ≤ DiscreteFunction.totalSize (domainSizes reg (sort vars)))%Z)) as Hok.
  { intros Hreg.
    destruct (cacheSizes_ok reg (sort vars)) as (sizes & Hc & Hf).
    { intros v Hv. apply Hreg. by apply sort_elem_of. }
    rewrite (domainSizes_registered _ _ _ Hf).
    unfold DiscreteFunction.make. rewrite Hc. cbn [bind].
    destruct (decide (DiscreteFunction.totalSize sizes < 0)%Z) as [Hneg|Hpos].
    - split; [by intros [f Hf']|lia].
    - split; [lia|eauto]. }
  assert ((∀ v, v ∈ vars → is_Some (reg !! v)) ∨ (∃ v, v ∈ vars ∧ reg !! v = None))
    as Hcases.
  { clear. induction vars as [|w vars IH].
    - left. intros v Hv. by apply not_elem_of_nil in Hv.
    - destruct (reg !! w) as [s|] eqn:Hw.
      + destruct IH as [IH|(v & Hv & Hnone)].
        * left. intros v Hv. apply elem_of_cons in Hv as [->|Hv]; [by eexists|auto].
        * right. exists v. split; [apply elem_of_cons; auto|done].
      + right. exists w. split; [apply elem_of_cons; auto|done]. }
  split; split.
  - intros [f Hf]. destruct Hcases as [Hall|Hbad].
    + split; [done|]. apply (Hok Hall). eauto.
    + rewrite (Hthrow Hbad) in Hf. done.
  - intros [Hall Hpos]. by apply (Hok Hall).
  - exact Hthrow.
  - intros Hf. destruct Hcases as [Hall|?]; [|done].
    exfalso. unfold DiscreteFunction.make in Hf.
    destruct (cacheSizes_ok reg (sort vars)) as (sizes & Hc & _).
    { intros v Hv. apply Hall. by apply sort_elem_of. }
    rewrite Hc in Hf. cbn [bind] in Hf.
    by destruct (decide (DiscreteFunction.totalSize sizes < 0)%Z).
Qed.

Lemma cacheSizes_inv reg vars sizes :
  DiscreteFunction.cacheSizes reg vars = Ok sizes →
  Forall2 (fun v s => reg !! v = Some s) vars sizes.
Proof.
  revert sizes. induction vars as [|v vars IH]; intros sizes Hc; simpl in Hc.
  - injection Hc as <-. constructor.
  - unfold Register.getDomainSize in Hc.
    destruct (reg !! v) as [s|] eqn:Hs; [|done]. simpl in Hc.
    destruct (DiscreteFunction.cacheSizes reg vars) as [ss| | |]; [|done..].
    simpl in Hc. injection Hc as <-. constructor; [done|by apply IH].
Qed.

(** Whatever the list, a function that the list constructor returns has as
    many cells as the [int] product of the registered sizes says: the
    number of tuples over the listed variables, wrapped to 32 bits; and
    every cell holds the initial value. *)
Theorem constructor_cell_count reg vars (val : ValType) f :
  DiscreteFunction.make reg vars val = Ok f →
  Z.of_nat (length (values_i f)) = wrap_int (Z.of_nat (cellCount reg vars)) ∧
  ∀ k, k < length (values_i f) → values_i f !! k = Some val.
Proof.
  unfold DiscreteFunction.make. intros Hmk.
  destruct (DiscreteFunction.cacheSizes reg (sort vars)) as [sizes| | |] eqn:Hc;
    [|done..].
  cbn [bind] in Hmk.
  destruct (decide (DiscreteFunction.totalSize sizes < 0)%Z) as [|Hpos]; [done|].
  injection Hmk as <-. simpl. rewrite length_replicate. split.
  - rewrite Z2Nat.id by lia. rewrite totalSize_wrap.
    rewrite <- (cellCount_Permutation reg (sort vars) vars) by apply sort_Permutation.
    unfold cellCount. by rewrite (domainSizes_registered _ _ _ (cacheSizes_inv _ _ _ Hc)).
  - intros k Hk. by apply lookup_replicate_2.
Qed.

(** A count that wraps below zero leaves no function: [65536 · 32768]
    is [-2147483648] as an [int]. *)
Lemma constructor_negative_count val :
  DiscreteFunction.make {[1 := 2 ^ 16; 2 := 2 ^ 15]} [1; 2] val = Undefined.
Proof.
  unfold DiscreteFunction.make.
  change (sort [1; 2]) with [1; 2].
  assert (DiscreteFunction.cacheSizes {[1 := 2 ^ 16; 2 := 2 ^ 15]} [1; 2]
          = Ok [2 ^ 16; 2 ^ 15]) as ->.
  { generalize (2 ^ 16) (2 ^ 15). intros n m. by vm_compute. }
  cbn [bind]. rewrite totalSize_wrap.
  change (prod_list [2 ^ 16; 2 ^ 15]) with (2 ^ 16 * (2 ^ 15 * 1)).
  rewrite !Nat2Z.inj_mul, !Nat2Z.inj_pow.
  by vm_compute.
Qed.

(** The single-variable constructor builds what the list constructor builds
    from the one-element list when the size of the variable is an [int],
    and the default constructor what it builds from the empty list. *)
Lemma constructors_agree (reg : Registry) (var : VarID) (val : ValType) :
  (∀ s, reg !! var = Some s → fits_int s) →
  Scalar.makeVar reg var val = DiscreteFunction.make reg [var] val ∧
  DiscreteFunction.make reg [] val = Ok (DiscreteFunction.constant val).
Proof.
  intros Hfit. split; [|done].
  unfold Scalar.makeVar, DiscreteFunction.make.
  change (sort [var]) with [var]. simpl. unfold Register.getDomainSize.
  destruct (reg !! var) as [s|] eqn:Hs; simpl; [|done].
  specialize (Hfit s eq_refl).
  rewrite totalSize_fits by (simpl; by rewrite Nat.mul_1_r).
  rewrite decide_False by lia. rewrite Nat2Z.id. simpl. by rewrite Nat.mul_1_r.
Qed.

(** On a function that satisfies the invariants, [assignKeepDomain(val)]
    leaves exactly the function that the list constructor builds for the
    same variables and [val]. *)
Theorem assignKeepDomain_as_constructed reg f (val : ValType) :
  wf reg f →
  DiscreteFunction.make reg (vars_i f) val = Ok (Scalar.assignKeepDomain val f) ∧
  wf reg (Scalar.assignKeepDomain val f).
Proof.
  intros Hwf. pose proof Hwf as [Hsorted Hsizes Hlen Hfits].
  destruct (make_ok reg (vars_i f) val) as (sizes & Hs & Hmk).
  { intros v Hv. eapply lookupVal_Forall2 in Hsizes as (s & _ & Hs); [|done]. by eexists. }
  rewrite sort_sorted_id in * by done.
  rewrite (sizes_functional reg (vars_i f) sizes (size_i f) Hs Hsizes) in Hmk.
  rewrite Hmk by (by rewrite <- Hlen).
  unfold Scalar.assignKeepDomain. rewrite Hlen. split; [done|].
  constructor; simpl;
    [done|done|by rewrite length_replicate|by rewrite length_replicate, <- Hlen].
Qed.

(** ** expand: edge and error behaviour *)

(** When every variable of [V] is already in the domain, [expand(V)] leaves
    the function untouched, and does so without consulting the register. *)
Theorem expand_noop (reg : Registry) f V :
  StronglySorted lt (vars_i f) →
  V ⊆ vars_i f →
  Ops.expand reg V f = Ok f.
Proof.
  intros Hsorted Hsub. unfold Ops.expand.
  destruct (newVar_spec (vars_i f) V) as [Hnew Hmem].
  rewrite (strictly_sorted_eq (unique (sort (vars_i f ++ V))) (vars_i f)); try done.
  - by rewrite decide_True.
  - intros v. rewrite Hmem. split; [intros [?|?]; auto|auto].
Qed.

(** [expand] is idempotent: when the tuples over the expanded domain are
    no more than an [int] counts, expanding a second time by the same
    variables changes nothing. *)
Theorem expand_idempotent reg f V :
  reg_positive reg →
  wf reg f →
  (∀ v, v ∈ V → is_Some (reg !! v)) →
  fits_int (cellCount reg (unique (sort (vars_i f ++ V)))) →
  ∃ f', Ops.expand reg V f = Ok f' ∧ Ops.expand reg V f' = Ok f'.
Proof.
  intros Hreg Hwf HV Hfit.
  destruct (expand_facts reg f V Hreg Hwf HV Hfit) as (f' & Hexp & Hwf' & _ & Hs & Hmem & _).
  exists f'. split; [done|].
  unfold Ops.expand.
  destruct (newVar_spec (vars_i f') V) as [Hnew Hmem'].
  rewrite (strictly_sorted_eq (unique (sort (vars_i f' ++ V))) (vars_i f')); try done.
  - by rewrite decide_True.
  - intros v. rewrite Hmem'. split; [intros [?|?]; [done|apply Hmem; auto]|auto].
Qed.

(** [expand] by a list that names an unregistered variable throws the
    unknown-variable exception (the function itself satisfying the
    invariants, the variable is new to it). *)
Theorem expand_unknown_variable reg f V v :
  wf reg f →
  v ∈ V →
  reg !! v = None →
  Ops.expand reg V f = Throw UnknownVariableException.
Proof.
  intros Hwf Hv Hnone. unfold Ops.expand.
  destruct (newVar_spec (vars_i f) V) as [Hnew Hmem].
  set (newVar := unique (sort (vars_i f ++ V))) in *.
  assert (v ∈ newVar) as Hvn by (apply Hmem; auto).
  destruct (decide (length newVar ≤ length (vars_i f))) as [Hle|Hgt].
  - exfalso. pose proof (expand_subset reg f V Hwf Hle) as Heq. fold newVar in Heq.
    rewrite Heq in Hvn. destruct Hwf as [_ Hsizes _ _].
    eapply lookupVal_Forall2 in Hsizes as (s & _ & Hs); [|done]. congruence.
  - unfold DiscreteFunction.make.
    rewrite (cacheSizes_throw reg (sort newVar) v); [done| |done].
    by apply sort_elem_of.
Qed.

(** ** expand and condition together *)

Lemma wf_values_eq reg f g :
  reg_positive reg → wf reg f → wf reg g →
  vars_i g = vars_i f →
  (∀ y, tuple_over reg (vars_i f) y → cell g y = cell f y) →
  g = f.
Proof.
  intros Hreg Hf Hg Hvars Hcells.
  assert (size_i g = size_i f) as Hsz.
  { apply (sizes_functional reg (vars_i f)); [|by destruct Hf].
    rewrite <- Hvars. by destruct Hg. }
  assert (values_i g = values_i f) as Hvals.
  { apply list_eq. intros k.
    destruct (decide (k < prod_list (size_i f))) as [Hk|Hk].
    - destruct (horner_surj (size_i f) k) as (y & Hy & Hh); [by apply (wf_positive reg)|done|].
      assert (tuple_over reg (vars_i f) y) as Hty by (by apply (wf_in_range reg f)).
      specialize (Hcells y Hty).
      rewrite !(wf_cell_at reg) in Hcells by (done || by rewrite Hvars).
      by rewrite Hsz, sub2ind_horner, Hh in Hcells.
    - rewrite !lookup_ge_None_2; [done| |].
      + destruct Hf as [_ _ -> _]. lia.
      + destruct Hg as [_ _ -> _]. rewrite Hsz. lia. }
  destruct f, g. simpl in *. by subst.
Qed.

(** Expanding a function by variables that are new to it and then
    conditioning on those variables, at any in-range values, gives the
    function back, cell for cell, when the tuples over the expanded domain
    are no more than an [int] counts. *)
Theorem expand_then_condition reg f V vals :
  reg_positive reg →
  wf reg f →
  Sorted le V →
  (∀ v, v ∈ V → v ∉ vars_i f) →
  tuple_over reg V vals →
  fits_int (cellCount reg (unique (sort (vars_i f ++ V)))) →
  ∃ f1, Ops.expand reg V f = Ok f1 ∧ Ops.condition reg V vals f1 = Ok f.
Proof.
  intros Hreg Hwf HsV Hdisj Hpin Hfit.
  assert (∀ v, v ∈ V → is_Some (reg !! v)) as HV.
  { intros v Hv. destruct (lookupVal_Forall2 _ _ _ v Hpin Hv) as (a & _ & s & Hs & _).
    by eexists. }
  destruct (expand_facts reg f V Hreg Hwf HV Hfit)
    as (f1 & Hexp & Hwf1 & _ & Hs1 & Hmem1 & Hcells1).
  destruct (condition_facts reg f1 V vals Hreg Hwf1 HsV Hpin)
    as (f2 & Hcond & Hwf2 & _ & Hmem2 & Hcells2 & _).
  exists f1. split; [done|]. rewrite Hcond. f_equal.
  assert (vars_i f2 = vars_i f) as Hvars.
  { apply strictly_sorted_eq; [by destruct Hwf2|by destruct Hwf|].
    intros v. rewrite Hmem2, Hmem1. split.
    - intros [[?|?] ?]; done.
    - intros Hv. split; [auto|]. intros HvV. by apply (Hdisj v). }
  apply (wf_values_eq reg); try done.
  intros y Hy.
  rewrite <- Hvars in Hy.
  destruct (Hcells2 y Hy) as (v & Hc2 & Hc1).
  rewrite Hvars in *.
  set (x := extend (vars_i f1) V vals (vars_i f) y) in *.
  assert (∀ w, w ∈ vars_i f → lookupVal V vals w = None) as Hnone.
  { intros w Hw. apply lookupVal_None. intros HwV. by apply (Hdisj w). }
  assert (tuple_over reg (vars_i f1) x) as Hx.
  { apply (extend_agrees reg (vars_i f1) V vals (vars_i f) y Hpin Hy).
    intros w Hw Hl. apply Hmem1 in Hw as [?|HwV]; [done|].
    destruct (lookupVal_Forall2 _ _ _ w Hpin HwV) as (a & Ha & _). congruence. }
  destruct (Hcells1 x Hx) as (v' & Hc & Hcf).
  assert (v' = v) as -> by congruence.
  unfold x in Hcf. rewrite restrict_extend in Hcf; [by rewrite Hc2, Hcf| | | |done].
  - apply StronglySorted_lt_NoDup. by destruct Hwf.
  - symmetry. by eapply Forall2_length.
  - intros w Hw. apply Hmem1. auto.
Qed.

(** Conditioning on every variable of the function, at the tuple [vals],
    leaves the constant function whose single value is the cell of the
    function at [vals]. *)
Theorem condition_on_all_variables reg f vals :
  reg_positive reg →
  wf reg f →
  tuple_over reg (vars_i f) vals →
  ∃ v, cell f vals = Some v ∧
       Ops.condition reg (vars_i f) vals f = Ok (DiscreteFunction.constant v).
Proof.
  intros Hreg Hwf Hvals.
  pose proof (StronglySorted_lt_NoDup _ (wf_sorted _ _ Hwf)) as Hnd.
  assert (Sorted le (vars_i f)) as Hsorted.
  { apply StronglySorted_Sorted, StronglySorted_lt_le. by destruct Hwf. }
  destruct (condition_facts reg f (vars_i f) vals Hreg Hwf Hsorted Hvals)
    as (f' & Hcond & Hwf' & _ & Hmem & Hcells & _).
  assert (vars_i f' = []) as Hnil.
  { destruct (vars_i f') as [|w l]; [done|].
    destruct (Hmem w) as [[? ?] _]; [apply elem_of_cons; auto|done]. }
  assert (size_i f' = []) as Hsz.
  { destruct Hwf' as [_ Hs _ _]. rewrite Hnil in Hs. by inversion Hs. }
  rewrite Hnil in Hcells. destruct (Hcells []) as (v & Hc' & Hc); [constructor|].
  assert (extend (vars_i f) (vars_i f) vals [] [] = vals) as Hext.
  { pose proof (Forall2_length _ _ _ Hvals) as Hlen.
    rewrite <- (restrict_self (vars_i f) vals Hnd) at 2 by lia.
    unfold extend, restrict. apply list_fmap_ext. intros i w Hw.
    apply list_elem_of_lookup_2 in Hw.
    destruct (lookupVal_is_Some (vars_i f) vals w) as [a ->]; [lia|done|done]. }
  rewrite Hext in Hc. exists v. split; [done|].
  rewrite Hcond. f_equal. unfold DiscreteFunction.constant.
  destruct Hwf' as [_ _ Hlen _]. rewrite Hsz in Hlen. simpl in Hlen.
  unfold cell in Hc'. rewrite Hsz in Hc'.
  destruct f' as [vs ss vals']. simpl in *. subst vs ss. f_equal.
  destruct vals' as [|a [|b vals']]; simpl in Hlen; try done.
  change (linear_index [] []) with 0 in Hc'. simpl in Hc'. by injection Hc' as ->.
Qed.

(** ** Element-wise operations *)

Lemma forRange_foldM {St} (body : nat → St → Result St) count : ∀ first s,
  forRange first count body s = foldM body (seq first count) s.
Proof.
  induction count as [|count IH]; intros first s; simpl; [done|].
  destruct (body first s) as [s'| | |]; simpl; [apply IH|done..].
Qed.

Lemma wf_registered reg f v : wf reg f → v ∈ vars_i f → is_Some (reg !! v).
Proof.
  intros [_ Hsizes _ _] Hv.
  eapply lookupVal_Forall2 in Hsizes as (s & _ & Hs); [|done]. by eexists.
Qed.

(** [elementWiseOp<OP>(f)] returns a function over the domain of [f] whose
    value array is that of [f] with [OP] applied to every cell. *)
Theorem elementWise_unary reg (OP : ValType → ValType) f :
  wf reg f →
  ElementWise.unary reg OP f =
    Ok (mkDiscreteFunction (vars_i f) (size_i f) (OP <$> values_i f)).
Proof.
  intros Hwf. pose proof Hwf as [Hsorted Hsizes Hlen Hfits].
  unfold ElementWise.unary.
  destruct (make_sorted reg (vars_i f) 0%Z Hsorted) as (r0 & -> & Hwf0 & Hvars0 & _).
  { intros v. by apply (wf_registered reg f). }
  { by rewrite (wf_cellCount reg f Hwf). }
  simpl. rewrite forRange_foldM.
  assert (size_i r0 = size_i f) as Hsz.
  { apply (sizes_functional reg (vars_i f)); [|done]. rewrite <- Hvars0. by destruct Hwf0. }
  assert (length (values_i r0) = length (values_i f)) as Hlen0.
  { destruct Hwf0 as [_ _ -> _]. by rewrite Hsz. }
  rewrite (foldM_ext _
    (fun k r => let* v := (let* a := DiscreteFunction.at_ f k in Ok (OP a)) in
                DiscreteFunction.setAt r k v)).
  2:{ intros k r _. by destruct (DiscreteFunction.at_ f k). }
  destruct (foldM_write (fun _ k => k)
              (fun k => let* a := DiscreteFunction.at_ f k in Ok (OP a))
              (fun _ _ _ _ _ => eq_refl)
              (seq 0 (DiscreteFunction.domainSize f)) r0)
    as (r & -> & Hvars & Hsizes' & Hlen' & Hwritten & _).
  { intros k Hk. apply elem_of_seq in Hk. unfold DiscreteFunction.domainSize in Hk.
    split; [lia|].
    destruct (lookup_lt_is_Some_2 (values_i f) k) as [a Ha]; [lia|].
    exists (OP a). unfold DiscreteFunction.at_. by rewrite Ha. }
  { by intros x y _ _ ->. }
  f_equal. destruct r as [vs ss vals]. simpl in *.
  rewrite Hvars, Hsizes', Hvars0, Hsz. f_equal.
  apply list_eq. intros k. rewrite list_lookup_fmap.
  destruct (decide (k < length (values_i f))) as [Hk|Hk].
  - specialize (Hwritten k). unfold DiscreteFunction.domainSize in Hwritten.
    rewrite elem_of_seq in Hwritten. specialize (Hwritten ltac:(lia)).
    unfold DiscreteFunction.at_ in Hwritten.
    destruct (lookup_lt_is_Some_2 (values_i f) k Hk) as [a Ha].
    rewrite Ha in *. simpl in Hwritten. by apply of_option_Ok in Hwritten.
  - rewrite !lookup_ge_None_2 by lia. done.
Qed.

(** When the tuples over the union of the two domains are no more than an
    [int] counts, [elementWiseOp<OP>(f1, f2)] returns a function over the
    sorted union of the two domains whose value at every tuple [x] is [OP]
    applied to the value of [f1] and the value of [f2] at the restrictions
    of [x] to their own domains. *)
Theorem elementWise_binary reg (OP : ValType → ValType → ValType) f1 f2 :
  reg_positive reg →
  wf reg f1 →
  wf reg f2 →
  fits_int (cellCount reg (unique (sort (vars_i f1 ++ vars_i f2)))) →
  ∃ r,
    ElementWise.binary reg OP f1 f2 = Ok r ∧
    wf reg r ∧
    vars_i r = unique (sort (vars_i f1 ++ vars_i f2)) ∧
    (∀ v, v ∈ vars_i r ↔ v ∈ vars_i f1 ∨ v ∈ vars_i f2) ∧
    ∀ x, tuple_over reg (vars_i r) x →
      ∃ a b,
        cell f1 (restrict (vars_i r) x (vars_i f1)) = Some a ∧
        cell f2 (restrict (vars_i r) x (vars_i f2)) = Some b ∧
        cell r x = Some (OP a b).
Proof.
  intros Hreg Hf1 Hf2 Hfit.
  unfold ElementWise.binary, ElementWise.expandTo.
  destruct (make_sorted reg (vars_i f1) 0%Z (wf_sorted _ _ Hf1))
    as (r0 & -> & Hwf0 & Hvars0 & _).
  { intros v. by apply (wf_registered reg f1). }
  { rewrite (wf_cellCount reg f1 Hf1). by destruct Hf1. }
  simpl.
  destruct (expand_facts reg r0 (vars_i f2) Hreg Hwf0)
    as (r1 & -> & Hwf1 & Hvars1 & Hs1 & Hmem1 & _).
  { intros v. by apply (wf_registered reg f2). }
  { by rewrite Hvars0. }
  simpl. rewrite Hvars0 in Hvars1, Hmem1.
  set (body := fun (it : DomainIterator) (r : DiscreteFunction) =>
    let* a := ElementWise.atIterator f1 it in
    let* b := ElementWise.atIterator f2 it in
    DiscreteFunction.setAt r (DomainIterator.getInd it) (OP a b)).
  destruct (full_run reg r1 body r1 Hreg Hwf1) as (L & HL & ->).
  assert (StronglySorted le (vars_i r1)) as Hle by (by apply StronglySorted_lt_le).
  assert (∀ x, tuple_over reg (vars_i r1) x →
            ∃ a b, DiscreteFunction.atSuper f1 (vars_i r1) x = Ok a ∧
                   DiscreteFunction.atSuper f2 (vars_i r1) x = Ok b ∧
                   cell f1 (restrict (vars_i r1) x (vars_i f1)) = Some a ∧
                   cell f2 (restrict (vars_i r1) x (vars_i f2)) = Some b) as Hread.
  { intros x Hx.
    destruct (atSuper_cell reg f1 (vars_i r1) x) as (a & Ha & Hca); try done.
    { intros v Hv. apply Hmem1. auto. }
    destruct (atSuper_cell reg f2 (vars_i r1) x) as (b & Hb & Hcb); try done.
    { intros v Hv. apply Hmem1. auto. }
    by exists a, b. }
  rewrite (foldM_ext _
    (fun x r => let* v := (let* a := DiscreteFunction.atSuper f1 (vars_i r1) x in
                           let* b := DiscreteFunction.atSuper f2 (vars_i r1) x in
                           Ok (OP a b)) in
                DiscreteFunction.setAt r (sub2ind (size_i r1) x) v)).
  2:{ intros x r _. unfold body, ElementWise.atIterator. simpl.
      destruct (DiscreteFunction.atSuper f1 (vars_i r1) x); simpl; try done.
      by destruct (DiscreteFunction.atSuper f2 (vars_i r1) x). }
  destruct (foldM_write (fun _ y => sub2ind (size_i r1) y)
              (fun x => let* a := DiscreteFunction.atSuper f1 (vars_i r1) x in
                        let* b := DiscreteFunction.atSuper f2 (vars_i r1) x in
                        Ok (OP a b))
              (fun _ _ _ _ _ => eq_refl) L r1)
    as (r & -> & Hvars & Hsizes & Hlen & Hwritten & _).
  { intros x Hx. apply HL in Hx. split; [by apply (wf_index_bound reg)|].
    destruct (Hread x Hx) as (a & b & -> & -> & _). by eexists. }
  { intros x y Hx Hy Hidx. apply HL in Hx, Hy.
    by rewrite (wf_index_inj reg r1 x y). }
  exists r. split; [done|].
  assert (wf reg r) as Hwfr.
  { destruct Hwf1 as [H1 H2 H3 H4].
    constructor;
      [by rewrite Hvars|by rewrite Hvars, Hsizes|by rewrite Hlen, Hsizes|by rewrite Hlen]. }
  split; [done|]. rewrite Hvars. split; [done|]. split; [done|].
  intros x Hx. destruct (Hread x Hx) as (a & b & Ha & Hb & Hca & Hcb).
  exists a, b. split; [done|]. split; [done|].
  rewrite (wf_cell_at reg) by (by rewrite ?Hvars).
  specialize (Hwritten x (proj2 (HL x) Hx)). rewrite Ha, Hb in Hwritten.
  simpl in Hwritten. rewrite Hsizes. by apply of_option_Ok.
Qed.

(** ** The three accessors *)

Lemma superIndex_nil siz inV sub skip idx :
  DiscreteFunction.superIndex [] siz inV sub skip idx = idx.
Proof. by destruct inV, sub. Qed.

Lemma mapIndex_superIndex (m : list (VarID * ValIndex)) : ∀ myV siz skip idx,
  MapAccess.mapIndex myV siz m skip idx =
  DiscreteFunction.superIndex myV siz (m.*1) (m.*2) skip idx.
Proof.
  induction m as [|[v a] m IH]; intros myV siz skip idx; [done|].
  simpl. destruct myV as [|w myV]; [done|]. destruct siz as [|s siz]; [done|].
  destruct (decide (w ≠ v)); apply IH.
Qed.

(** The accessor by a variable map addresses the same cell as the accessor
    by parallel lists of variables and subindices, applied to the keys and
    the values of the map in iteration order; a function of no variables is
    read at index [0] whatever the map holds. *)
Theorem map_accessor_agrees (f : DiscreteFunction) (vals : list (VarID * ValIndex)) :
  MapAccess.getIndex f vals = DiscreteFunction.getSuperIndex f (vals.*1) (vals.*2) ∧
  MapAccess.atMap f vals = DiscreteFunction.atSuper f (vals.*1) (vals.*2) ∧
  (vars_i f = [] → MapAccess.getIndex f vals = 0).
Proof.
  assert (MapAccess.getIndex f vals =
          DiscreteFunction.getSuperIndex f (vals.*1) (vals.*2)) as Heq.
  { unfold MapAccess.getIndex, DiscreteFunction.getSuperIndex, DiscreteFunction.noVars.
    destruct (decide (0 = length (vars_i f))) as [Hz|Hnz].
    - destruct (vars_i f); [|done]. by rewrite superIndex_nil.
    - apply mapIndex_superIndex. }
  split; [done|]. split.
  - unfold MapAccess.atMap, DiscreteFunction.atSuper. by rewrite Heq.
  - intros Hnil. unfold MapAccess.getIndex, DiscreteFunction.noVars.
    rewrite Hnil. by rewrite decide_True.
Qed.

(** Read with its own variable list as the outer list, the supervariable
    accessor returns the same cell as the accessor by own-domain
    subindices. *)
Theorem own_accessor_agrees (f : DiscreteFunction) (sub : list ValIndex) :
  StronglySorted lt (vars_i f) →
  length sub = length (vars_i f) →
  DiscreteFunction.atSuper f (vars_i f) sub = DiscreteFunction.atSub f sub.
Proof.
  intros Hsorted Hlen.
  unfold DiscreteFunction.atSuper, DiscreteFunction.atSub, DiscreteFunction.getSuperIndex.
  rewrite superIndex_horner; [|done|by apply StronglySorted_lt_le|done|done].
  rewrite restrict_self; [|by apply StronglySorted_lt_NoDup|done].
  rewrite sub2ind_horner. f_equal. lia.
Qed.

(** ** Comparison with a scalar *)

(** The four comparisons with the function on the left return true exactly
    when the relation holds at every cell (so all four are true of a function
    without cells). *)
Theorem function_first_comparisons (f : DiscreteFunction) (v : ValType) :
  (Compare.lt_fs f v = true ↔ ∀ k (x : Z), values_i f !! k = Some x → (x < v)%Z) ∧
  (Compare.le_fs f v = true ↔ ∀ k (x : Z), values_i f !! k = Some x → (x ≤ v)%Z) ∧
  (Compare.gt_fs f v = true ↔ ∀ k (x : Z), values_i f !! k = Some x → (v < x)%Z) ∧
  (Compare.ge_fs f v = true ↔ ∀ k (x : Z), values_i f !! k = Some x → (v ≤ x)%Z).
Proof.
  split; [apply lt_fs_spec|]. split; [apply le_fs_spec|].
  split; [apply gt_fs_spec|apply ge_fs_spec].
Qed.

(** On a function with at least one cell a strict comparison and the
    opposite weak one are never both true, a strict comparison implies the
    weak one of the same direction, and [f <= v] together with [f >= v]
    means that every cell equals [v]. *)
Theorem comparisons_consistent (f : DiscreteFunction) (v : ValType) :
  0 < DiscreteFunction.domainSize f →
  (Compare.lt_fs f v = true → Compare.ge_fs f v = false) ∧
  (Compare.gt_fs f v = true → Compare.le_fs f v = false) ∧
  (Compare.lt_fs f v = true → Compare.le_fs f v = true) ∧
  (Compare.gt_fs f v = true → Compare.ge_fs f v = true) ∧
  (Compare.le_fs f v = true ∧ Compare.ge_fs f v = true
     ↔ ∀ k (x : Z), values_i f !! k = Some x → x = v).
Proof.
  intros Hpos. unfold DiscreteFunction.domainSize in Hpos.
  destruct (lookup_lt_is_Some_2 (values_i f) 0 Hpos) as [x0 Hx0].
  split; [|split; [|split; [|split]]].
  - intros Hlt. apply not_true_is_false. intros Hge.
    pose proof (proj1 (lt_fs_spec f v) Hlt 0 x0 Hx0).
    pose proof (proj1 (ge_fs_spec f v) Hge 0 x0 Hx0). lia.
  - intros Hgt. apply not_true_is_false. intros Hle.
    pose proof (proj1 (gt_fs_spec f v) Hgt 0 x0 Hx0).
    pose proof (proj1 (le_fs_spec f v) Hle 0 x0 Hx0). lia.
  - rewrite lt_fs_spec, le_fs_spec. intros H k x Hk. specialize (H k x Hk). lia.
  - rewrite gt_fs_spec, ge_fs_spec. intros H k x Hk. specialize (H k x Hk). lia.
  - rewrite le_fs_spec, ge_fs_spec. split.
    + intros [H1 H2] k x Hk. specialize (H1 k x Hk). specialize (H2 k x Hk). lia.
    + intros H. split; intros k x Hk; specialize (H k x Hk); lia.
Qed.

(** The comparisons with the scalar on the left return what the
    function-first operator they call returns: [v >= f] is true exactly when
    every cell is below [v], [v > f] when every cell is at most [v],
    [v <= f] when every cell is above [v], and [v < f] when every cell is at
    least [v]; so [v >= f] implies [v > f], and [v <= f] implies [v < f]. *)
Theorem scalar_first_comparisons (v : ValType) (f : DiscreteFunction) :
  (Compare.ge_sf v f = true ↔ ∀ k (x : Z), values_i f !! k = Some x → (x < v)%Z) ∧
  (Compare.gt_sf v f = true ↔ ∀ k (x : Z), values_i f !! k = Some x → (x ≤ v)%Z) ∧
  (Compare.le_sf v f = true ↔ ∀ k (x : Z), values_i f !! k = Some x → (v < x)%Z) ∧
  (Compare.lt_sf v f = true ↔ ∀ k (x : Z), values_i f !! k = Some x → (v ≤ x)%Z) ∧
  (Compare.ge_sf v f = true → Compare.gt_sf v f = true) ∧
  (Compare.le_sf v f = true → Compare.lt_sf v f = true).
Proof.
  unfold Compare.ge_sf, Compare.gt_sf, Compare.le_sf, Compare.lt_sf.
  split; [apply lt_fs_spec|]. split; [apply le_fs_spec|].
  split; [apply gt_fs_spec|]. split; [apply ge_fs_spec|]. split.
  - rewrite lt_fs_spec, le_fs_spec. intros H k x Hk. specialize (H k x Hk). lia.
  - rewrite gt_fs_spec, ge_fs_spec. intros H k x Hk. specialize (H k x Hk). lia.
Qed.

(** ** Negation *)

Lemma forallb_fmap {A B} (p : B → bool) (g : A → B) (l : list A) :
  forallb p (g <$> l) = forallb (fun x => p (g x)) l.
Proof. induction l as [|a l IH]; simpl; [done|]. f_equal. exact IH. Qed.

Lemma forallb_ext_all {A} (p q : A → bool) (l : list A) :
  (∀ x, p x = q x) → forallb p l = forallb q l.
Proof. intros H. induction l as [|a l IH]; simpl; [done|]. by rewrite H, IH. Qed.

(** Unary minus keeps the domain and negates every cell; applied twice it
    gives the function back, and it mirrors the comparisons:
    [-f < v] is [f > -v] and [-f <= v] is [f >= -v]. *)
Theorem negation_mirrors (f : DiscreteFunction) (v : ValType) :
  Scalar.neg (Scalar.neg f) = f ∧
  vars_i (Scalar.neg f) = vars_i f ∧
  size_i (Scalar.neg f) = size_i f ∧
  (∀ k, values_i (Scalar.neg f) !! k = Z.opp <$> values_i f !! k) ∧
  Compare.lt_fs (Scalar.neg f) v = Compare.gt_fs f (- v) ∧
  Compare.le_fs (Scalar.neg f) v = Compare.ge_fs f (- v) ∧
  Compare.gt_fs (Scalar.neg f) v = Compare.lt_fs f (- v) ∧
  Compare.ge_fs (Scalar.neg f) v = Compare.le_fs f (- v).
Proof.
  unfold Scalar.neg, Scalar.mulScalar. simpl.
  split; [|split; [done|split; [done|split]]].
  - destruct f as [vs ss vals]. simpl. f_equal.
    rewrite <- list_fmap_compose. rewrite <- (list_fmap_id vals) at 2.
    apply list_fmap_ext. intros i x _. simpl. lia.
  - intros k. rewrite list_lookup_fmap.
    destruct (values_i f !! k) as [x|]; simpl; [f_equal; lia|done].
  - unfold Compare.lt_fs, Compare.le_fs, Compare.gt_fs, Compare.ge_fs. simpl.
    rewrite !forallb_fmap.
    repeat split; apply forallb_ext_all; intros x; f_equal.
    + destruct (Z.geb_spec (x * -1) v), (Z.leb_spec x (- v)); lia.
    + destruct (Z.gtb_spec (x * -1) v), (Z.ltb_spec x (- v)); lia.
    + destruct (Z.leb_spec (x * -1) v), (Z.geb_spec x (- v)); lia.
    + destruct (Z.ltb_spec (x * -1) v), (Z.gtb_spec x (- v)); lia.
Qed.

(** ** Foreign coordinates and storage layout *)

(** The supervariable accessor does not look at the subindices of variables
    outside the domain: two subindex lists that agree on the variables of
    the function address the same cell. *)
Theorem accessor_ignores_foreign_coordinates (f : DiscreteFunction)
    (vars : list VarID) (sub1 sub2 : list ValIndex) :
  StronglySorted lt (vars_i f) →
  Sorted le vars →
  vars_i f ⊆ vars →
  length sub1 = length vars →
  length sub2 = length vars →
  (∀ w, w ∈ vars_i f → lookupVal vars sub1 w = lookupVal vars sub2 w) →
  DiscreteFunction.atSuper f vars sub1 = DiscreteFunction.atSuper f vars sub2.
Proof.
  intros Hf Hvars Hsub Hl1 Hl2 Hagree.
  apply Sorted_StronglySorted in Hvars; [|intros ???; lia].
  unfold DiscreteFunction.atSuper, DiscreteFunction.getSuperIndex.
  rewrite !superIndex_horner by done.
  assert (restrict vars sub1 (vars_i f) = restrict vars sub2 (vars_i f)) as ->; [|done].
  unfold restrict. apply list_fmap_ext. intros i w Hw.
  apply list_elem_of_lookup_2 in Hw. by rewrite Hagree.
Qed.

Lemma horner_app s1 : ∀ x1 s2 x2,
  length x1 = length s1 →
  horner (s1 ++ s2) (x1 ++ x2) = horner s1 x1 + prod_list s1 * horner s2 x2.
Proof.
  induction s1 as [|s s1 IH]; intros [|a x1] s2 x2 Hlen; simpl in Hlen; try done.
  change (a + s * horner (s1 ++ s2) (x1 ++ x2)
          = a + s * horner s1 x1 + s * prod_list s1 * horner s2 x2).
  rewrite IH by lia.
  rewrite Nat.mul_add_distr_l, Nat.mul_assoc. lia.
Qed.

Lemma lookupVal_app_l {A} vs : ∀ (x1 : list A) W x2 w,
  length x1 = length vs → w ∈ vs →
  lookupVal (vs ++ W) (x1 ++ x2) w = lookupVal vs x1 w.
Proof.
  induction vs as [|v vs IH]; intros [|a x1] W x2 w Hlen Hw; simpl in Hlen; try done.
  - by apply not_elem_of_nil in Hw.
  - simpl. destruct (decide (v = w)); [done|].
    apply elem_of_cons in Hw as [->|Hw]; [done|]. apply IH; [lia|done].
Qed.

Lemma restrict_app_l vs W x1 x2 :
  NoDup vs → length x1 = length vs →
  restrict (vs ++ W) (x1 ++ x2) vs = x1.
Proof.
  intros Hnd Hlen. rewrite <- (restrict_self vs x1 Hnd Hlen) at 2.
  unfold restrict. apply list_fmap_ext. intros i w Hw.
  apply list_elem_of_lookup_2 in Hw. by rewrite lookupVal_app_l.
Qed.

(** Expanding by variables whose ids are all larger than those of the domain
    tiles the value array, when the tuples over the expanded domain are no
    more than an [int] counts: cell [k] of the expanded function is cell
    [k mod domainSize] of the original one. *)
Theorem expand_by_later_variables_tiles reg f V :
  reg_positive reg →
  wf reg f →
  (∀ v, v ∈ V → is_Some (reg !! v)) →
  (∀ v w, v ∈ V → w ∈ vars_i f → w < v) →
  fits_int (cellCount reg (unique (sort (vars_i f ++ V)))) →
  ∃ f',
    Ops.expand reg V f = Ok f' ∧
    vars_i f' = vars_i f ++ unique (sort V) ∧
    ∀ k, k < DiscreteFunction.domainSize f' →
      values_i f' !! k = values_i f !! (k mod DiscreteFunction.domainSize f).
Proof.
  intros Hreg Hwf HV Hlater Hfit.
  destruct (expand_facts reg f V Hreg Hwf HV Hfit)
    as (f' & Hexp & Hwf' & _ & Hs' & Hmem & Hcells).
  exists f'. split; [done|].
  set (W := unique (sort V)).
  assert (StronglySorted lt W) as HW.
  { apply unique_strictly_sorted, Sorted_StronglySorted; [intros ???; lia|].
    apply sort_Sorted. }
  assert (∀ v, v ∈ W ↔ v ∈ V) as HWmem.
  { intros v. unfold W. by rewrite unique_elem_of, sort_elem_of. }
  assert (vars_i f' = vars_i f ++ W) as Hvars.
  { apply strictly_sorted_eq; [done| |].
    - apply StronglySorted_app_2; [|by destruct Hwf|done].
      intros w v Hw Hv. apply Hlater; [by apply HWmem|done].
    - intros v. rewrite Hmem, elem_of_app, HWmem. done. }
  split; [done|].
  intros k Hk. unfold DiscreteFunction.domainSize in *.
  pose proof Hwf' as [_ Hsizes' Hlen' _].
  rewrite Hvars in Hsizes'.
  apply Forall2_app_inv_l in Hsizes' as (s1 & s2 & Hs1 & Hs2 & Hsz).
  assert (s1 = size_i f) as ->.
  { apply (sizes_functional reg (vars_i f)); [done|by destruct Hwf]. }
  destruct (horner_surj (size_i f') k) as (x & Hx & Hh).
  { by apply (wf_positive reg). } { by rewrite <- Hlen'. }
  assert (tuple_over reg (vars_i f') x) as Htx by (by apply (wf_in_range reg f')).
  destruct (Hcells x Htx) as (v & Hc' & Hc).
  rewrite (wf_cell_at reg), sub2ind_horner, Hh in Hc' by done.
  rewrite Hc'.
  unfold in_range in Hx. rewrite Hsz in Hx.
  apply Forall2_app_inv_r in Hx as (x1 & x2 & Hx1 & Hx2 & ->).
  pose proof (Forall2_length _ _ _ Hx1) as Hl1.
  pose proof (Forall2_length _ _ _ (wf_sizes _ _ Hwf)) as Hl2.
  rewrite Hvars, restrict_app_l in Hc;
    [|apply StronglySorted_lt_NoDup; by destruct Hwf|lia].
  rewrite Hsz, horner_app in Hh by done.
  assert (tuple_over reg (vars_i f) x1) as Htx1 by (by apply (wf_in_range reg f)).
  rewrite (wf_cell_at reg), sub2ind_horner in Hc by done.
  pose proof (horner_bound (size_i f) x1 Hx1) as Hb.
  destruct Hwf as [_ _ Hlenf _]. rewrite Hlenf.
  assert (k mod prod_list (size_i f) = horner (size_i f) x1) as ->; [|done].
  rewrite <- Hh.
  rewrite (Nat.mul_comm (prod_list (size_i f))), Nat.Div0.mod_add.
  by apply Nat.mod_small.
Qed.

Lemma lookupVal_app_r {A} W : ∀ (x2 : list A) vs x1 w,
  length x2 = length W → w ∉ W →
  lookupVal (W ++ vs) (x2 ++ x1) w = lookupVal vs x1 w.
Proof.
  induction W as [|v W IH]; intros [|a x2] vs x1 w Hlen Hw; simpl in Hlen; try done.
  apply not_elem_of_cons in Hw as [Hne Hw].
  simpl. rewrite decide_False by done. apply IH; [lia|done].
Qed.

Lemma prod_list_app l1 l2 : prod_list (l1 ++ l2) = prod_list l1 * prod_list l2.
Proof.
  induction l1 as [|a l1 IH]; [simpl; lia|].
  change (a * prod_list (l1 ++ l2) = a * prod_list l1 * prod_list l2).
  rewrite IH. lia.
Qed.

(** Expanding by variables whose ids are all smaller than those of the
    domain stretches the value array, when the tuples over the expanded
    domain are no more than an [int] counts: with [n] the number of tuples
    over the added variables (the product of their registered sizes, each
    variable counted once), the expanded function has [n] times the cells
    and its cell [k] is cell [k / n] of the original one. *)
Theorem expand_by_earlier_variables_stretches reg f V :
  reg_positive reg →
  wf reg f →
  (∀ v, v ∈ V → is_Some (reg !! v)) →
  (∀ v w, v ∈ V → w ∈ vars_i f → v < w) →
  fits_int (cellCount reg (unique (sort (vars_i f ++ V)))) →
  let n := cellCount reg (unique (sort V)) in
  ∃ f',
    Ops.expand reg V f = Ok f' ∧
    vars_i f' = unique (sort V) ++ vars_i f ∧
    DiscreteFunction.domainSize f' = n * DiscreteFunction.domainSize f ∧
    ∀ k, k < DiscreteFunction.domainSize f' →
      values_i f' !! k = values_i f !! (k / n).
Proof.
  intros Hreg Hwf HV Hearlier Hfit n.
  destruct (expand_facts reg f V Hreg Hwf HV Hfit)
    as (f' & Hexp & Hwf' & _ & Hs' & Hmem & Hcells).
  set (W := unique (sort V)).
  assert (StronglySorted lt W) as HW.
  { apply unique_strictly_sorted, Sorted_StronglySorted; [intros ???; lia|].
    apply sort_Sorted. }
  assert (∀ v, v ∈ W ↔ v ∈ V) as HWmem.
  { intros v. unfold W. by rewrite unique_elem_of, sort_elem_of. }
  assert (vars_i f' = W ++ vars_i f) as Hvars.
  { apply strictly_sorted_eq; [done| |].
    - apply StronglySorted_app_2; [|done|by destruct Hwf].
      intros v w Hv Hw. apply Hearlier; [by apply HWmem|done].
    - intros v. rewrite Hmem, elem_of_app, HWmem. tauto. }
  pose proof Hwf' as [_ Hsizes' Hlen' _].
  rewrite Hvars in Hsizes'.
  apply Forall2_app_inv_l in Hsizes' as (s2 & s1 & Hs2 & Hs1 & Hsz).
  assert (s1 = size_i f) as ->.
  { apply (sizes_functional reg (vars_i f)); [done|by destruct Hwf]. }
  pose proof (wf_positive reg f' Hreg Hwf') as Hpos. rewrite Hsz in Hpos.
  apply Forall_app in Hpos as [Hpos2 _].
  pose proof (prod_list_pos s2 Hpos2) as Hn.
  assert (n = prod_list s2) as ->.
  { unfold n, cellCount. fold W. by rewrite (domainSizes_registered _ _ _ Hs2). }
  exists f'. split; [done|]. split; [done|].
  unfold DiscreteFunction.domainSize.
  split.
  { rewrite Hlen', Hsz, prod_list_app. by destruct Hwf as [_ _ -> _]. }
  intros k Hk.
  destruct (horner_surj (size_i f') k) as (x & Hx & Hh).
  { by apply (wf_positive reg). } { by rewrite <- Hlen'. }
  assert (tuple_over reg (vars_i f') x) as Htx by (by apply (wf_in_range reg f')).
  destruct (Hcells x Htx) as (v & Hc' & Hc).
  rewrite (wf_cell_at reg), sub2ind_horner, Hh in Hc' by done.
  rewrite Hc'.
  unfold in_range in Hx. rewrite Hsz in Hx.
  apply Forall2_app_inv_r in Hx as (x2 & x1 & Hx2 & Hx1 & ->).
  pose proof (Forall2_length _ _ _ Hx2) as Hl2.
  pose proof (Forall2_length _ _ _ Hs2) as Hl2'.
  assert (restrict (W ++ vars_i f) (x2 ++ x1) (vars_i f) = x1) as Hr.
  { rewrite <- (restrict_self (vars_i f) x1) at 2.
    - unfold restrict. apply list_fmap_ext. intros i w Hw.
      apply list_elem_of_lookup_2 in Hw. rewrite lookupVal_app_r; [done|lia|].
      intros HwW. apply HWmem in HwW. specialize (Hearlier w w HwW Hw). lia.
    - apply StronglySorted_lt_NoDup. by destruct Hwf.
    - apply Forall2_length in Hx1. rewrite Hx1.
      symmetry. eapply Forall2_length. by destruct Hwf. }
  rewrite Hvars, Hr in Hc.
  rewrite Hsz, horner_app in Hh by done.
  assert (tuple_over reg (vars_i f) x1) as Htx1 by (by apply (wf_in_range reg f)).
  rewrite (wf_cell_at reg), sub2ind_horner in Hc by done.
  pose proof (horner_bound s2 x2 Hx2) as Hb.
  assert (k / prod_list s2 = horner (size_i f) x1) as ->; [|done].
  rewrite <- Hh.
  rewrite (Nat.mul_comm (prod_list s2)), Nat.div_add by lia.
  rewrite Nat.div_small by done. done.
Qed.

(** ** Instances of the further properties on the running example *)

Lemma example_h_wf : wf example_reg example_h.
Proof. constructor; simpl; [repeat constructor..|reflexivity|by vm_compute]. Defined.

Lemma example_const_wf : wf example_reg example_const.
Proof. constructor; simpl; [repeat constructor..|reflexivity|by vm_compute]. Defined.

Lemma example_fits_f_2 :
  fits_int (cellCount example_reg (unique (sort (vars_i example_f ++ [2])))).
Proof. by vm_compute. Defined.

Lemma example_sub_nil (l : list nat) : [] ⊆ l.
Proof. intros v Hv. by inversion Hv. Defined.

Lemma example_registered_2 : ∀ v, v ∈ [2] → is_Some (example_reg !! v).
Proof.
  apply example_registered. intros v Hv. apply elem_of_cons. by right.
Defined.

Lemma example_registered_1 : ∀ v, v ∈ [1] → is_Some (example_reg !! v).
Proof. apply example_registered. exact example_sub_1_12. Defined.

Lemma marginal_folds_each_cell_once_witness :
  reg_positive example_reg ∧ wf example_reg example_g ∧ wf example_reg example_out ∧
  vars_i example_out ⊆ vars_i example_g ∧
  ∃ out',
    Ops.marginal example_g Z.add example_out = (Ok tt, out') ∧
    vars_i out' = vars_i example_out ∧
    size_i out' = size_i example_out ∧
    ∀ y, tuple_over example_reg (vars_i example_out) y →
      ∃ x0 L' v0 vs,
        NoDup (x0 :: L') ∧
        (∀ x, x ∈ x0 :: L' ↔
           tuple_over example_reg (vars_i example_g) x ∧
           restrict (vars_i example_g) x (vars_i example_out) = y) ∧
        Forall2 (fun x v => cell example_g x = Some v) (x0 :: L') (v0 :: vs) ∧
        cell out' y = Some (fold_left Z.add vs v0).
Proof.
  split; [exact example_reg_positive|]. split; [exact example_g_wf|].
  split; [exact example_out_wf|]. split; [exact example_sub_1_12|].
  exact (marginal_folds_each_cell_once example_reg example_g example_out Z.add
           example_reg_positive example_g_wf example_out_wf example_sub_1_12).
Defined.

Lemma minMarginal_minimum_witness :
  reg_positive example_reg ∧ wf example_reg example_g ∧ wf example_reg example_out ∧
  vars_i example_out ⊆ vars_i example_g ∧
  ∃ out',
    Ops.minMarginal example_g example_out = (Ok tt, out') ∧
    vars_i out' = vars_i example_out ∧
    size_i out' = size_i example_out ∧
    ∀ y, tuple_over example_reg (vars_i example_out) y →
      ∃ m,
        cell out' y = Some m ∧
        (∃ x, tuple_over example_reg (vars_i example_g) x ∧
              restrict (vars_i example_g) x (vars_i example_out) = y ∧
              cell example_g x = Some m) ∧
        (∀ x v, tuple_over example_reg (vars_i example_g) x →
              restrict (vars_i example_g) x (vars_i example_out) = y →
              cell example_g x = Some v → (m ≤ v)%Z).
Proof.
  split; [exact example_reg_positive|]. split; [exact example_g_wf|].
  split; [exact example_out_wf|]. split; [exact example_sub_1_12|].
  exact (minMarginal_minimum example_reg example_g example_out
           example_reg_positive example_g_wf example_out_wf example_sub_1_12).
Defined.

Lemma minMarginal_le_maxMarginal_witness :
  reg_positive example_reg ∧ wf example_reg example_g ∧ wf example_reg example_out ∧
  vars_i example_out ⊆ vars_i example_g ∧
  ∃ lo hi,
    Ops.minMarginal example_g example_out = (Ok tt, lo) ∧
    Ops.maxMarginal example_g example_out = (Ok tt, hi) ∧
    ∀ y, tuple_over example_reg (vars_i example_out) y →
      ∃ a b, cell lo y = Some a ∧ cell hi y = Some b ∧ (a ≤ b)%Z.
Proof.
  split; [exact example_reg_positive|]. split; [exact example_g_wf|].
  split; [exact example_out_wf|]. split; [exact example_sub_1_12|].
  exact (minMarginal_le_maxMarginal example_reg example_g example_out
           example_reg_positive example_g_wf example_out_wf example_sub_1_12).
Defined.

Lemma marginal_onto_constant_witness :
  reg_positive example_reg ∧ wf example_reg example_g ∧
  wf example_reg example_const ∧ vars_i example_const = [] ∧
  ∃ v0 vs,
    values_i example_g = v0 :: vs ∧
    Ops.marginal example_g Z.add example_const =
      (Ok tt, mkDiscreteFunction [] [] [fold_left Z.add vs v0]).
Proof.
  split; [exact example_reg_positive|]. split; [exact example_g_wf|].
  split; [exact example_const_wf|]. split; [reflexivity|].
  exact (marginal_onto_constant example_reg example_g example_const Z.add
           example_reg_positive example_g_wf example_const_wf eq_refl).
Defined.

Lemma assignKeepDomain_as_constructed_witness :
  wf example_reg example_g ∧
  DiscreteFunction.make example_reg (vars_i example_g) 7%Z
    = Ok (Scalar.assignKeepDomain 7%Z example_g) ∧
  wf example_reg (Scalar.assignKeepDomain 7%Z example_g).
Proof.
  split; [exact example_g_wf|].
  exact (assignKeepDomain_as_constructed example_reg example_g 7%Z example_g_wf).
Defined.

Lemma expand_noop_witness :
  StronglySorted lt (vars_i example_g) ∧ [2; 1; 2] ⊆ vars_i example_g ∧
  Ops.expand ∅ [2; 1; 2] example_g = Ok example_g.
Proof.
  assert (StronglySorted lt (vars_i example_g)) as Hs by (exact (wf_sorted _ _ example_g_wf)).
  assert ([2; 1; 2] ⊆ vars_i example_g) as Hsub.
  { intros v Hv. simpl. rewrite !elem_of_cons in Hv. rewrite !elem_of_cons. tauto. }
  split; [exact Hs|]. split; [exact Hsub|].
  exact (expand_noop ∅ example_g [2; 1; 2] Hs Hsub).
Defined.

Lemma expand_idempotent_witness :
  reg_positive example_reg ∧ wf example_reg example_f ∧
  (∀ v, v ∈ [2] → is_Some (example_reg !! v)) ∧
  fits_int (cellCount example_reg (unique (sort (vars_i example_f ++ [2])))) ∧
  ∃ f', Ops.expand example_reg [2] example_f = Ok f' ∧
        Ops.expand example_reg [2] f' = Ok f'.
Proof.
  split; [exact example_reg_positive|]. split; [exact example_f_wf|].
  split; [exact example_registered_2|]. split; [exact example_fits_f_2|].
  exact (expand_idempotent example_reg example_f [2]
           example_reg_positive example_f_wf example_registered_2 example_fits_f_2).
Defined.

Lemma expand_unknown_variable_witness :
  wf example_reg example_f ∧ 3 ∈ [2; 3] ∧ example_reg !! 3 = None ∧
  Ops.expand example_reg [2; 3] example_f = Throw UnknownVariableException.
Proof.
  assert (3 ∈ [2; 3]) as Hin by (apply elem_of_cons; right; apply elem_of_cons; by left).
  assert (example_reg !! 3 = None) as Hnone by reflexivity.
  split; [exact example_f_wf|]. split; [exact Hin|]. split; [exact Hnone|].
  exact (expand_unknown_variable example_reg example_f [2; 3] 3 example_f_wf Hin Hnone).
Defined.

Lemma expand_then_condition_witness :
  reg_positive example_reg ∧ wf example_reg example_f ∧ Sorted le [2] ∧
  (∀ v, v ∈ [2] → v ∉ vars_i example_f) ∧ tuple_over example_reg [2] [1] ∧
  fits_int (cellCount example_reg (unique (sort (vars_i example_f ++ [2])))) ∧
  ∃ f1, Ops.expand example_reg [2] example_f = Ok f1 ∧
        Ops.condition example_reg [2] [1] f1 = Ok example_f.
Proof.
  assert (Sorted le [2]) as Hs by (repeat constructor).
  assert (∀ v, v ∈ [2] → v ∉ vars_i example_f) as Hdisj.
  { intros v Hv Hv'. simpl in Hv'.
    apply elem_of_cons in Hv as [->|Hv]; [|by inversion Hv].
    apply elem_of_cons in Hv' as [Hv'|Hv']; [lia|by inversion Hv']. }
  split; [exact example_reg_positive|]. split; [exact example_f_wf|].
  split; [exact Hs|]. split; [exact Hdisj|]. split; [exact example_tuple_2_1|].
  split; [exact example_fits_f_2|].
  exact (expand_then_condition example_reg example_f [2] [1]
           example_reg_positive example_f_wf Hs Hdisj example_tuple_2_1
           example_fits_f_2).
Defined.

Lemma condition_on_all_variables_witness :
  reg_positive example_reg ∧ wf example_reg example_g ∧
  tuple_over example_reg (vars_i example_g) [1; 2] ∧
  ∃ v, cell example_g [1; 2] = Some v ∧
       Ops.condition example_reg (vars_i example_g) [1; 2] example_g
         = Ok (DiscreteFunction.constant v).
Proof.
  split; [exact example_reg_positive|]. split; [exact example_g_wf|].
  split; [exact example_tuple_12|].
  exact (condition_on_all_variables example_reg example_g [1; 2]
           example_reg_positive example_g_wf example_tuple_12).
Defined.

Lemma elementWise_unary_witness :
  wf example_reg example_g ∧
  ElementWise.unary example_reg Z.abs example_g =
    Ok (mkDiscreteFunction (vars_i example_g) (size_i example_g)
          (Z.abs <$> values_i example_g)).
Proof.
  split; [exact example_g_wf|].
  exact (elementWise_unary example_reg Z.abs example_g example_g_wf).
Defined.

Lemma elementWise_binary_witness :
  reg_positive example_reg ∧ wf example_reg example_f ∧ wf example_reg example_h ∧
  fits_int (cellCount example_reg
              (unique (sort (vars_i example_f ++ vars_i example_h)))) ∧
  ∃ r,
    ElementWise.binary example_reg Z.pow example_f example_h = Ok r ∧
    wf example_reg r ∧
    vars_i r = unique (sort (vars_i example_f ++ vars_i example_h)) ∧
    (∀ v, v ∈ vars_i r ↔ v ∈ vars_i example_f ∨ v ∈ vars_i example_h) ∧
    ∀ x, tuple_over example_reg (vars_i r) x →
      ∃ a b,
        cell example_f (restrict (vars_i r) x (vars_i example_f)) = Some a ∧
        cell example_h (restrict (vars_i r) x (vars_i example_h)) = Some b ∧
        cell r x = Some (Z.pow a b).
Proof.
  split; [exact example_reg_positive|]. split; [exact example_f_wf|].
  split; [exact example_h_wf|]. split; [exact example_fits_f_2|].
  exact (elementWise_binary example_reg Z.pow example_f example_h
           example_reg_positive example_f_wf example_h_wf example_fits_f_2).
Defined.

Lemma own_accessor_agrees_witness :
  StronglySorted lt (vars_i example_g) ∧ length [1; 2] = length (vars_i example_g) ∧
  DiscreteFunction.atSuper example_g (vars_i example_g) [1; 2]
    = DiscreteFunction.atSub example_g [1; 2].
Proof.
  assert (StronglySorted lt (vars_i example_g)) as Hs by (exact (wf_sorted _ _ example_g_wf)).
  split; [exact Hs|]. split; [reflexivity|].
  exact (own_accessor_agrees example_g [1; 2] Hs eq_refl).
Defined.

Lemma comparisons_consistent_witness :
  0 < DiscreteFunction.domainSize example_f ∧
  (Compare.lt_fs example_f 15 = true → Compare.ge_fs example_f 15 = false) ∧
  (Compare.gt_fs example_f 15 = true → Compare.le_fs example_f 15 = false) ∧
  (Compare.lt_fs example_f 15 = true → Compare.le_fs example_f 15 = true) ∧
  (Compare.gt_fs example_f 15 = true → Compare.ge_fs example_f 15 = true) ∧
  (Compare.le_fs example_f 15 = true ∧ Compare.ge_fs example_f 15 = true
     ↔ ∀ k (x : Z), values_i example_f !! k = Some x → x = 15%Z).
Proof.
  assert (0 < DiscreteFunction.domainSize example_f) as Hpos by (vm_compute; lia).
  split; [exact Hpos|].
  exact (comparisons_consistent example_f 15 Hpos).
Defined.

Lemma accessor_ignores_foreign_coordinates_witness :
  StronglySorted lt (vars_i example_f) ∧ Sorted le [1; 2] ∧
  vars_i example_f ⊆ [1; 2] ∧ length [1; 0] = length [1; 2] ∧
  length [1; 2] = length [1; 2] ∧
  (∀ w, w ∈ vars_i example_f → lookupVal [1; 2] [1; 0] w = lookupVal [1; 2] [1; 2] w) ∧
  DiscreteFunction.atSuper example_f [1; 2] [1; 0]
    = DiscreteFunction.atSuper example_f [1; 2] [1; 2].
Proof.
  assert (StronglySorted lt (vars_i example_f)) as Hs by (exact (wf_sorted _ _ example_f_wf)).
  assert (Sorted le [1; 2]) as Hs' by (repeat constructor).
  assert (∀ w, w ∈ vars_i example_f →
            lookupVal [1; 2] [1; 0] w = lookupVal [1; 2] [1; 2] w) as Hag.
  { intros w Hw. simpl in Hw. apply elem_of_cons in Hw as [->|Hw]; [reflexivity|].
    by inversion Hw. }
  split; [exact Hs|]. split; [exact Hs'|]. split; [exact example_sub_1_12|].
  split; [reflexivity|]. split; [reflexivity|]. split; [exact Hag|].
  exact (accessor_ignores_foreign_coordinates example_f [1; 2] [1; 0] [1; 2]
           Hs Hs' example_sub_1_12 eq_refl eq_refl Hag).
Defined.

Lemma expand_by_later_variables_tiles_witness :
  reg_positive example_reg ∧ wf example_reg example_f ∧
  (∀ v, v ∈ [2] → is_Some (example_reg !! v)) ∧
  (∀ v w, v ∈ [2] → w ∈ vars_i example_f → w < v) ∧
  fits_int (cellCount example_reg (unique (sort (vars_i example_f ++ [2])))) ∧
  ∃ f',
    Ops.expand example_reg [2] example_f = Ok f' ∧
    vars_i f' = vars_i example_f ++ unique (sort [2]) ∧
    ∀ k, k < DiscreteFunction.domainSize f' →
      values_i f' !! k = values_i example_f !! (k mod DiscreteFunction.domainSize example_f).
Proof.
  assert (∀ v w, v ∈ [2] → w ∈ vars_i example_f → w < v) as Hlater.
  { intros v w Hv Hw. simpl in Hw.
    apply elem_of_cons in Hv as [->|Hv]; [|by inversion Hv].
    apply elem_of_cons in Hw as [->|Hw]; [lia|by inversion Hw]. }
  split; [exact example_reg_positive|]. split; [exact example_f_wf|].
  split; [exact example_registered_2|]. split; [exact Hlater|].
  split; [exact example_fits_f_2|].
  exact (expand_by_later_variables_tiles example_reg example_f [2]
           example_reg_positive example_f_wf example_registered_2 Hlater
           example_fits_f_2).
Defined.

Lemma expand_by_earlier_variables_stretches_witness :
  reg_positive example_reg ∧ wf example_reg example_h ∧
  (∀ v, v ∈ [1] → is_Some (example_reg !! v)) ∧
  (∀ v w, v ∈ [1] → w ∈ vars_i example_h → v < w) ∧
  fits_int (cellCount example_reg (unique (sort (vars_i example_h ++ [1])))) ∧
  let n := cellCount example_reg (unique (sort [1])) in
  ∃ f',
    Ops.expand example_reg [1] example_h = Ok f' ∧
    vars_i f' = unique (sort [1]) ++ vars_i example_h ∧
    DiscreteFunction.domainSize f' = n * DiscreteFunction.domainSize example_h ∧
    ∀ k, k < DiscreteFunction.domainSize f' →
      values_i f' !! k = values_i example_h !! (k / n).
Proof.
  assert (∀ v w, v ∈ [1] → w ∈ vars_i example_h → v < w) as Hearlier.
  { intros v w Hv Hw. simpl in Hw.
    apply elem_of_cons in Hv as [->|Hv]; [|by inversion Hv].
    apply elem_of_cons in Hw as [->|Hw]; [lia|by inversion Hw]. }
  split; [exact example_reg_positive|]. split; [exact example_h_wf|].
  assert (fits_int (cellCount example_reg (unique (sort (vars_i example_h ++ [1])))))
    as Hfit by (by vm_compute).
  split; [exact example_registered_1|]. split; [exact Hearlier|].
  split; [exact Hfit|].
  exact (expand_by_earlier_variables_stretches example_reg example_h [1]
           example_reg_positive example_h_wf example_registered_1 Hearlier Hfit).
Defined.

Lemma constructor_cell_count_witness :
  DiscreteFunction.make example_reg [2; 1] 7%Z = Ok (Scalar.assignKeepDomain 7%Z example_g) ∧
  Z.of_nat (length (values_i (Scalar.assignKeepDomain 7%Z example_g)))
    = wrap_int (Z.of_nat (cellCount example_reg [2; 1])) ∧
  ∀ k, k < length (values_i (Scalar.assignKeepDomain 7%Z example_g)) →
       values_i (Scalar.assignKeepDomain 7%Z example_g) !! k = Some 7%Z.
Proof.
  assert (DiscreteFunction.make example_reg [2; 1] 7%Z
          = Ok (Scalar.assignKeepDomain 7%Z example_g)) as Hmk by reflexivity.
  split; [exact Hmk|].
  exact (constructor_cell_count example_reg [2; 1] 7%Z _ Hmk).
Defined.
